(** * The unified token ledger and the referral actions of luckydraw-app

    A shallow embedding of the server actions of
    [src/actions/unifiedTokenActions.ts] and of the referral actions
    module (the second server-action file of the repository), over a small
    model of the hosted document database they call.

    Modelling conventions.
    - A document is a finite map from field names to values; a collection is
      a finite map from document ids to documents. Ids are single path
      segments; an automatic id is one that the collection does not use.
    - A JavaScript [number] is a binary64 float, and so is a number of the
      database: the whole-number representation that the database has
      besides is outside the model.
    - A timestamp is a number of milliseconds ([Z]); every call of an action
      reads the clock once ([now]). The clock shows a time that a timestamp
      of the database holds, and that is still one 30 days earlier and 30
      days later.
    - An action runs alone: the database does not change between its calls.
    - Every awaited call on the database or on the rendering cache may be
      rejected by the environment, by kind of call ([fails]); a rejected
      call throws.
    - A transaction or a batch commits all its writes or none; an [update]
      of a document that does not exist makes the commit fail.
    - [ignoreUndefinedProperties] is the database setting of the missing
      module [@/lib/firebase]; it is a parameter of the environment.
    - An action is a function from the database to the database after it and
      either a returned value or an exception thrown to the caller. *)

From Stdlib Require Import ZArith String List.
From Stdlib Require Import PrimFloat.
From Stdlib Require FloatOps SpecFloat.
From stdpp Require Import gmap strings list fin_maps sorting pretty infinite.

Local Open Scope string_scope.
Local Open Scope Z_scope.

(** ** Values, documents and the database *)

#[warnings="-register-all"]
Inductive Value : Type :=
| VNum (q : float)
| VStr (s : string)
| VTime (t : Z)
| VNull
| VMap (m : gmap string Value).

Abbreviation Doc := (gmap string Value).
Abbreviation Collection := (gmap string (gmap string Value)).

Inductive Coll : Type := Users | UnifiedTokens | Transactions.

Record Db : Type := mkDb {
  users : Collection;
  unifiedTokens : Collection;
  transactions : Collection
}.

Definition coll (c : Coll) (db : Db) : Collection :=
  match c with
  | Users => users db
  | UnifiedTokens => unifiedTokens db
  | Transactions => transactions db
  end.

Definition set_coll (c : Coll) (m : Collection) (db : Db) : Db :=
  match c with
  | Users => mkDb m (unifiedTokens db) (transactions db)
  | UnifiedTokens => mkDb (users db) m (transactions db)
  | Transactions => mkDb (users db) (unifiedTokens db) m
  end.

#[global] Instance Coll_eq_dec : EqDecision Coll.
Proof. solve_decision. Defined.

(** [doc(db, 'users', id)] *)
Definition DocRef : Type := Coll * string.

(** ** Enumerations of [@/types] *)

Inductive TokenType : Type :=
| Deposit | Withdrawal | Bonus | ReferralCommission | Cashback | RaffleEntry.

Inductive TokenStatus : Type := Pending | Approved | Rejected | Expired.

Definition type_name (t : TokenType) : string :=
  match t with
  | Deposit => "deposit"
  | Withdrawal => "withdrawal"
  | Bonus => "bonus"
  | ReferralCommission => "referral_commission"
  | Cashback => "cashback"
  | RaffleEntry => "raffle_entry"
  end.

Definition status_name (s : TokenStatus) : string :=
  match s with
  | Pending => "pending"
  | Approved => "approved"
  | Rejected => "rejected"
  | Expired => "expired"
  end.

Definition all_types : list TokenType :=
  [Deposit; Withdrawal; Bonus; ReferralCommission; Cashback; RaffleEntry].

(** The [case] label selected by [switch (tokenData.type)], if any. *)
Definition type_of_string (s : string) : option TokenType :=
  List.find (fun t => String.eqb (type_name t) s) all_types.

(** ** Reading fields *)

Definition str_field (f : string) (d : Doc) : option string :=
  match d !! f with Some (VStr s) => Some s | _ => None end.

Definition num_field (f : string) (d : Doc) : option float :=
  match d !! f with Some (VNum q) => Some q | _ => None end.

Definition time_field (f : string) (d : Doc) : option Z :=
  match d !! f with Some (VTime t) => Some t | _ => None end.

Definition sub_doc (o : option Value) : Doc :=
  match o with Some (VMap m) => m | _ => ∅ end.

(** JavaScript truthiness of a number: every number but [0], [-0] and
    [NaN]. *)
Definition number_truthy (n : option float) : bool :=
  match n with
  | Some q => negb (PrimFloat.is_zero q || PrimFloat.is_nan q)
  | None => false
  end.

(** The number that JavaScript reads in a field that holds a number;
    [undefined] reads as [NaN]. What it makes of a field that holds
    something else is outside the model. *)
Definition js_number (o : option Value) : float :=
  match o with Some (VNum q) => q | _ => PrimFloat.nan end.

(** JavaScript truthiness of a field read ([x || y], [if (x)]). *)
Definition truthy (o : option Value) : bool :=
  match o with
  | None | Some VNull => false
  | Some (VNum q) => number_truthy (Some q)
  | Some (VStr s) => negb (String.eqb s "")
  | Some (VTime _) | Some (VMap _) => true
  end.

(** [tokenData.status !== 'pending'] *)
Definition status_is (s : TokenStatus) (d : Doc) : bool :=
  match d !! "status" with
  | Some (VStr x) => String.eqb x (status_name s)
  | _ => false
  end.

(** ** Field transforms and writes *)

Inductive FieldValue : Type :=
| Lit (v : Value)
| Increment (n : float).

(** [increment(n)] adds [n] to a numeric field, as floats add, and sets any
    other field, or a missing one, to [n]. *)
Definition apply_field (fv : FieldValue) (old : option Value) : Value :=
  match fv with
  | Lit v => v
  | Increment n =>
      match old with
      | Some (VNum q) => VNum (q + n)%float
      | _ => VNum n
      end
  end.

(** A field path such as ['referralStats.pendingCommissions'] is the list of
    its segments. *)
Fixpoint update_path (path : list string) (fv : FieldValue) (d : Doc) : Doc :=
  match path with
  | [] => d
  | k :: rest =>
      match rest with
      | [] => <[k := apply_field fv (d !! k)]> d
      | _ :: _ => <[k := VMap (update_path rest fv (sub_doc (d !! k)))]> d
      end
  end.

Definition UpdateData : Type := list (list string * FieldValue).

Definition apply_update (data : UpdateData) (d : Doc) : Doc :=
  fold_left (fun acc pf => update_path pf.1 pf.2 acc) data d.

Inductive Write : Type :=
| WUpdate (r : DocRef) (data : UpdateData)
| WSet (r : DocRef) (d : Doc).

(** [update] needs the document to exist; [set] creates or replaces it. *)
Definition apply_write (w : Write) (db : Db) : option Db :=
  match w with
  | WUpdate r data =>
      match coll r.1 db !! r.2 with
      | Some d => Some (set_coll r.1 (<[r.2 := apply_update data d]> (coll r.1 db)) db)
      | None => None
      end
  | WSet r d => Some (set_coll r.1 (<[r.2 := d]> (coll r.1 db)) db)
  end.

(** All the writes of a transaction or of a batch, or none of them. *)
Fixpoint commit (ws : list Write) (db : Db) : option Db :=
  match ws with
  | [] => Some db
  | w :: ws' =>
      match apply_write w db with
      | Some db' => commit ws' db'
      | None => None
      end
  end.

(** ** Environment, errors and the action monad *)

Inductive Call : Type :=
| CGetDoc | CGetDocs | CAddDoc | CUpdateDoc
| CRunTransaction | CBatchCommit | CRevalidatePath.

Inductive Error : Type :=
| Rejected_call (c : Call)
| NotFound (r : DocRef)
| ReferenceError (name : string)
| TypeError (msg : string)
| InvalidArgument (msg : string).

Record Env : Type := mkEnv {
  now : Z;
  fails : Call -> bool;
  ignoreUndefinedProperties : bool
}.

(** An environment in which no call is rejected. *)
Definition reliable (t : Z) (ignoreUndefined : bool) : Env :=
  mkEnv t (fun _ => false) ignoreUndefined.

Definition Exc (A : Type) : Type := Error + A.

Definition M (A : Type) : Type := Db -> Db * Exc A.

Definition ret {A} (a : A) : M A := fun db => (db, inr a).

Definition throw {A} (e : Error) : M A := fun db => (db, inl e).

Definition bind {A B} (c : M A) (k : A -> M B) : M B :=
  fun db =>
    match c db with
    | (db', inr a) => k a db'
    | (db', inl e) => (db', inl e)
    end.

Definition lift {A} (x : Exc A) : M A := fun db => (db, x).

Definition try_catch {A} (body : M A) (handler : Error -> M A) : M A :=
  fun db =>
    match body db with
    | (db', inr a) => (db', inr a)
    | (db', inl e) => handler e db'
    end.

Declare Scope action_scope.
Delimit Scope action_scope with action.
Notation "x <- c ;; k" := (bind c (fun x => k))
  (at level 90, c at next level, right associativity) : action_scope.
Notation "c ;;; k" := (bind c (fun _ => k))
  (at level 90, right associativity) : action_scope.
Local Open Scope action_scope.

Definition exc_bind {A B} (x : Exc A) (k : A -> Exc B) : Exc B :=
  match x with
  | inr a => k a
  | inl e => inl e
  end.

Definition call {A} (env : Env) (c : Call) (k : M A) : M A :=
  if fails env c then throw (Rejected_call c) else k.

(** ** Queries *)

Inductive Filter : Type :=
| WhereEq (field : string) (s : string)
| WhereLe (field : string) (t : Z)
| WhereGe (field : string) (t : Z).

Definition matches (f : Filter) (d : Doc) : bool :=
  match f with
  | WhereEq k s =>
      match str_field k d with Some x => String.eqb x s | None => false end
  | WhereLe k t =>
      match time_field k d with Some x => x <=? t | None => false end
  | WhereGe k t =>
      match time_field k d with Some x => t <=? x | None => false end
  end.

(** The order of a result: by document id, or by a timestamp field and then
    by document id. A query with an inequality filter and no [orderBy] is
    ordered by the field of the inequality. *)
Inductive OrderBy : Type :=
| ByName
| ByTimeAsc (f : string)
| ByTimeDesc (f : string).

Record Query : Type := mkQuery {
  q_coll : Coll;
  q_where : list Filter;
  q_order : OrderBy;
  q_limit : option nat
}.

(** An ordered query leaves out the documents without the ordering field. *)
Definition has_order_field (o : OrderBy) (d : Doc) : bool :=
  match o with
  | ByName => true
  | ByTimeAsc f | ByTimeDesc f =>
      match time_field f d with Some _ => true | None => false end
  end.

Definition order_key (f : string) (d : Doc) : Z := default 0 (time_field f d).

Definition doc_leb (o : OrderBy) (x y : string * Doc) : bool :=
  match o with
  | ByName => String.leb x.1 y.1
  | ByTimeAsc f =>
      (order_key f x.2 <? order_key f y.2)
      || ((order_key f x.2 =? order_key f y.2) && String.leb x.1 y.1)
  | ByTimeDesc f =>
      (order_key f y.2 <? order_key f x.2)
      || ((order_key f x.2 =? order_key f y.2) && String.leb y.1 x.1)
  end.

Definition doc_le (o : OrderBy) : relation (string * Doc) :=
  fun x y => Is_true (doc_leb o x y).

#[global] Instance doc_le_dec o x y : Decision (doc_le o x y).
Proof. unfold doc_le. apply _. Defined.

Definition selects (q : Query) (x : string * Doc) : bool :=
  forallb (fun f => matches f x.2) (q_where q) && has_order_field (q_order q) x.2.

Definition run_query (q : Query) (db : Db) : list (string * Doc) :=
  let found := List.filter (selects q) (map_to_list (coll (q_coll q) db)) in
  let sorted := merge_sort (doc_le (q_order q)) found in
  match q_limit q with
  | Some n => take n sorted
  | None => sorted
  end.

(** [limit(n)] rejects a number that is not positive. *)
Definition limit (n : Z) : Exc nat :=
  if n <=? 0 then inl (InvalidArgument "limit") else inr (Z.to_nat n).

(** ** The database calls *)

(** [doc(db, collection, id)] rejects an empty or missing id. Ids are single
    path segments. *)
Definition doc (c : Coll) (id : option string) : Exc DocRef :=
  match id with
  | Some s => if String.eqb s "" then inl (InvalidArgument "doc") else inr (c, s)
  | None => inl (InvalidArgument "doc")
  end.

Definition getDoc (env : Env) (r : DocRef) : M (option Doc) :=
  call env CGetDoc (fun db => (db, inr (coll r.1 db !! r.2))).

Definition getDocs (env : Env) (q : Query) : M (list (string * Doc)) :=
  call env CGetDocs (fun db => (db, inr (run_query q db))).

(** An object literal: a property whose value is [undefined] is [None]. *)
Definition JsObject : Type := list (string * option Value).

(** The document written for an object: an [undefined] property is an error
    unless the database was set up to leave such properties out. *)
Fixpoint to_doc (env : Env) (o : JsObject) : Exc Doc :=
  match o with
  | [] => inr ∅
  | (k, Some v) :: rest => exc_bind (to_doc env rest) (fun d => inr (<[k := v]> d))
  | (k, None) :: rest =>
      if ignoreUndefinedProperties env then to_doc env rest
      else inl (InvalidArgument k)
  end.

(** The id of [doc(collection(db, c))] and of [addDoc]: one that no document
    of the collection has. *)
Definition auto_id (c : Coll) : M string :=
  fun db => (db, inr (fresh (dom (coll c db)))).

Definition addDoc (env : Env) (c : Coll) (o : JsObject) : M string :=
  d <- lift (to_doc env o) ;;
  id <- auto_id c ;;
  call env CAddDoc
    (fun db => (set_coll c (<[id := d]> (coll c db)) db, inr id)).

Definition updateDoc (env : Env) (r : DocRef) (data : UpdateData) : M unit :=
  call env CUpdateDoc
    (fun db =>
       match apply_write (WUpdate r data) db with
       | Some db' => (db', inr tt)
       | None => (db, inl (NotFound r))
       end).

(** [runTransaction(db, callback)]: the callback queues writes, or throws;
    the writes are committed together, or not at all. *)
Definition runTransaction (env : Env) (callback : Exc (list Write)) : M unit :=
  call env CRunTransaction
    (fun db =>
       match callback with
       | inl e => (db, inl e)
       | inr ws =>
           match commit ws db with
           | Some db' => (db', inr tt)
           | None => (db, inl (Rejected_call CRunTransaction))
           end
       end).

(** [writeBatch(db)], [batch.update] for each write, [batch.commit()]. *)
Definition batch_commit (env : Env) (ws : list Write) : M unit :=
  call env CBatchCommit
    (fun db =>
       match commit ws db with
       | Some db' => (db', inr tt)
       | None => (db, inl (Rejected_call CBatchCommit))
       end).

Definition revalidatePath (env : Env) (path : string) : M unit :=
  call env CRevalidatePath (ret tt).

(** ** Module scopes

    The names each module imports from [firebase/firestore]. The token
    module does not import [increment]; the referral module does. *)

Definition unifiedTokenActions_imports : list string :=
  ["collection"; "doc"; "getDoc"; "getDocs"; "addDoc"; "updateDoc";
   "deleteDoc"; "query"; "where"; "orderBy"; "limit"; "Timestamp";
   "runTransaction"; "writeBatch"].

Definition referralActions_imports : list string :=
  ["collection"; "doc"; "getDoc"; "getDocs"; "query"; "where"; "orderBy";
   "limit"; "updateDoc"; "increment"; "writeBatch"; "Timestamp";
   "runTransaction"].

Definition in_scope (scope : list string) (name : string) : bool :=
  existsb (String.eqb name) scope.

(** The expression [increment(n)] evaluated in a module: a name that is not
    bound throws. *)
Definition increment (scope : list string) (n : float) : Exc FieldValue :=
  if in_scope scope "increment" then inr (Increment n)
  else inl (ReferenceError "increment").

(** ** Results of the actions *)

Record TokenStats : Type := mkTokenStats {
  st_total : nat;
  st_pending : nat;
  st_approved : nat;
  st_rejected : nat;
  st_expired : nat;
  st_byType : list (string * nat);
  st_amount_pending : float;
  st_amount_approved : float;
  st_amount_rejected : float
}.

Record Analysis : Type := mkAnalysis {
  recentReferrals : nat;
  totalCommissionTokens : nat;
  totalCommissionAmount : float;
  approvedCommissions : nat;
  approvalRate : float;
  averageCommissionAmount : float
}.

Inductive Payload : Type :=
| PUnit
| PTokenId (tokenId : string)
| PToken (token : string * Doc)
| PTokens (tokens : list (string * Doc))
| PDeleted (deletedCount : nat)
| PStats (stats : TokenStats)
| PCommissionAmount (commissionAmount : float)
| PReferredUsers (referredUsers : list JsObject)
| PCommissions (commissions : list JsObject)
| PAnalysis (analysis : Analysis).

(** What an action returns: [{success: true, ...}],
    [{success: false, error}], [null], or a referral statistics object. *)
Inductive Result : Type :=
| Success (p : Payload)
| Failure (error : string)
| Null
| StatsOf (referralStats : Value).

(** ** The token actions ([unifiedTokenActions.ts]) *)

Definition day_ms : Z := 24 * 60 * 60 * 1000.

(** The float of a whole number, rounded to the nearest. *)
Definition float_of_Z (z : Z) : float :=
  FloatOps.SF2Prim
    (SpecFloat.binary_normalize FloatOps.prec FloatOps.emax z 0 false).

(** The time value of [new Date(x)]: the whole number of milliseconds
    towards zero, when [x] is a number of at most 8.64e15 in size; an invalid
    date otherwise. *)
Definition time_value (x : float) : option Z :=
  match FloatOps.Prim2SF x with
  | SpecFloat.S754_zero _ => Some 0
  | SpecFloat.S754_finite s m e =>
      let a := match e with
               | Z0 => Z.pos m
               | Zpos p => Z.pos m * 2 ^ Z.pos p
               | Zneg p => Z.pos m / 2 ^ Z.pos p
               end in
      if a <=? 8640000000000000 then Some (if s then - a else a) else None
  | SpecFloat.S754_infinity _ | SpecFloat.S754_nan => None
  end.

(** The times that a timestamp of the database holds: the years 1 to 9999. *)
Definition timestamp_range (t : Z) : bool :=
  (-62135596800000 <=? t) && (t <? 253402300800000).

(** [Timestamp.fromDate(new Date(Date.now() + days * 24 * 60 * 60 * 1000))]:
    the sum and the products are those of floats, and the time value of the
    date is cut to a whole number of milliseconds. A date outside the range
    of a timestamp throws; so does an invalid date, at the latest when the
    object that holds it is written, which the model does not tell apart. *)
Definition date_after (t : Z) (days : float) : Exc Z :=
  match time_value (float_of_Z t + days * 24 * 60 * 60 * 1000)%float with
  | Some ms =>
      if timestamp_range ms then inr ms else inl (InvalidArgument "Timestamp")
  | None => inl (InvalidArgument "Timestamp")
  end.

(** [expiresInDays ? Timestamp.fromDate(...) : undefined] *)
Definition expiry (env : Env) (expiresInDays : option float) : Exc (option Value) :=
  if number_truthy expiresInDays
  then exc_bind (date_after (now env) (default PrimFloat.nan expiresInDays))
         (fun ms => inr (Some (VTime ms)))
  else inr None.

(** The object [tokenData] of [createUnifiedTokenAction]. *)
Definition new_tokenData (env : Env) (userId : string) (type : TokenType)
    (amount : float) (metadata : option Doc) (expiresAt : option Value)
    : JsObject :=
  [("userId", Some (VStr userId));
   ("type", Some (VStr (type_name type)));
   ("amount", Some (VNum amount));
   ("status", Some (VStr "pending"));
   ("metadata", Some (VMap (default ∅ metadata)));
   ("createdAt", Some (VTime (now env)));
   ("expiresAt", expiresAt)].

(** The [try] block of [createUnifiedTokenAction]. *)
Definition createUnifiedTokenAction_try (env : Env) (userId : string)
    (type : TokenType) (amount : float) (metadata : option Doc)
    (expiresInDays : option float)
    : M Result :=
  expiresAt <- lift (expiry env expiresInDays) ;;
  let tokenData := new_tokenData env userId type amount metadata expiresAt in
  tokenId <- addDoc env UnifiedTokens tokenData ;;
  revalidatePath env "/admin/tokens" ;;;
  revalidatePath env "/dashboard" ;;;
  ret (Success (PTokenId tokenId)).

Definition createUnifiedTokenAction (env : Env) (userId : string)
    (type : TokenType) (amount : float) (metadata : option Doc)
    (expiresInDays : option float)
    : M Result :=
  try_catch
    (createUnifiedTokenAction_try env userId type amount metadata
       expiresInDays)
    (fun _ => ret (Failure "Token oluşturulamadı")).

(** [{...updates, updatedAt: Timestamp.now()}] *)
Definition updateData (env : Env) (updates : list (string * Value)) : UpdateData :=
  (map (fun kv => ([kv.1], Lit kv.2)) updates
   ++ [(["updatedAt"], Lit (VTime (now env)))])%list.

(** The [try] block of [updateUnifiedTokenAction]. *)
Definition updateUnifiedTokenAction_try (env : Env) (tokenId : string)
    (updates : list (string * Value))
    : M Result :=
  tokenRef <- lift (doc UnifiedTokens (Some tokenId)) ;;
  let updateData := updateData env updates in
  updateDoc env tokenRef updateData ;;;
  revalidatePath env "/admin/tokens" ;;;
  revalidatePath env "/dashboard" ;;;
  ret (Success PUnit).

Definition updateUnifiedTokenAction (env : Env) (tokenId : string)
    (updates : list (string * Value))
    : M Result :=
  try_catch (updateUnifiedTokenAction_try env tokenId updates)
    (fun _ => ret (Failure "Token güncellenemedi")).

(** The [try] block of [getUnifiedTokenAction]. *)
Definition getUnifiedTokenAction_try (env : Env) (tokenId : string) : M Result :=
  tokenRef <- lift (doc UnifiedTokens (Some tokenId)) ;;
  tokenDoc <- getDoc env tokenRef ;;
  match tokenDoc with
  | None => ret (Failure "Token bulunamadı")
  | Some data => ret (Success (PToken (tokenId, data)))
  end.

Definition getUnifiedTokenAction (env : Env) (tokenId : string) : M Result :=
  try_catch (getUnifiedTokenAction_try env tokenId)
    (fun _ => ret (Failure "Token alınamadı")).

(** The [try] block of [getUserUnifiedTokensAction]. *)
Definition getUserUnifiedTokensAction_try (env : Env) (userId : string)
    (tokenType : option TokenType) (status : option TokenStatus)
    (limitCount : Z)
    : M Result :=
  n <- lift (limit limitCount) ;;
  let q0 :=
    mkQuery UnifiedTokens [WhereEq "userId" userId]
      (ByTimeDesc "createdAt") (Some n) in
  let q1 :=
    match tokenType with
    | Some ty =>
        mkQuery UnifiedTokens
          [WhereEq "userId" userId; WhereEq "type" (type_name ty)]
          (ByTimeDesc "createdAt") (Some n)
    | None => q0
    end in
  let q2 :=
    match status with
    | Some s =>
        mkQuery UnifiedTokens
          [WhereEq "userId" userId; WhereEq "status" (status_name s)]
          (ByTimeDesc "createdAt") (Some n)
    | None => q1
    end in
  tokens <- getDocs env q2 ;;
  ret (Success (PTokens tokens)).

Definition getUserUnifiedTokensAction (env : Env) (userId : string)
    (tokenType : option TokenType) (status : option TokenStatus)
    (limitCount : Z)
    : M Result :=
  try_catch (getUserUnifiedTokensAction_try env userId tokenType status limitCount)
    (fun _ => ret (Failure "Tokenlar alınamadı")).

Definition approve_data (env : Env) (adminUserId : string)
    (notes : option string) : UpdateData :=
  [(["status"], Lit (VStr "approved"));
   (["approvedAt"], Lit (VTime (now env)));
   (["approvedBy"], Lit (VStr adminUserId));
   (["adminNotes"], Lit (VStr (default "" notes)))].

(** The callback that [approveTokenAction] gives to [runTransaction], in a
    module whose imports are [scope]. *)
Definition approveToken_callback (scope : list string) (env : Env)
    (tokenRef : DocRef) (adminUserId : string) (notes : option string)
    (tokenData : Doc) : Exc (list Write) :=
  let approve := WUpdate tokenRef (approve_data env adminUserId notes) in
  exc_bind (doc Users (str_field "userId" tokenData)) (fun userRef =>
  let amount := js_number (tokenData !! "amount") in
  let type := default "" (str_field "type" tokenData) in
  match type_of_string type with
  | Some Deposit | Some Bonus | Some ReferralCommission | Some Cashback =>
      exc_bind (increment scope amount) (fun balance =>
      exc_bind (increment scope amount) (fun total =>
      inr [approve;
           WUpdate userRef
             [(["balance"], balance); ([type ++ "Total"], total)]]))
  | Some Withdrawal =>
      exc_bind (increment scope (- amount)%float) (fun balance =>
      exc_bind (increment scope amount) (fun total =>
      inr [approve;
           WUpdate userRef
             [(["balance"], balance); (["withdrawalTotal"], total)]]))
  | Some RaffleEntry | None => inr [approve]
  end).

(** The [try] block of [approveTokenAction]. *)
Definition approveTokenAction_try (scope : list string) (env : Env)
    (tokenId : string) (adminUserId : string) (notes : option string)
    : M Result :=
  tokenRef <- lift (doc UnifiedTokens (Some tokenId)) ;;
  tokenDoc <- getDoc env tokenRef ;;
  match tokenDoc with
  | None => ret (Failure "Token bulunamadı")
  | Some tokenData =>
      if negb (status_is Pending tokenData)
      then ret (Failure "Token zaten işlenmiş")
      else
        runTransaction env
          (approveToken_callback scope env tokenRef adminUserId notes
             tokenData) ;;;
        revalidatePath env "/admin/tokens" ;;;
        revalidatePath env "/dashboard" ;;;
        ret (Success PUnit)
  end.

Definition approveTokenAction_in (scope : list string) (env : Env)
    (tokenId : string) (adminUserId : string) (notes : option string)
    : M Result :=
  try_catch (approveTokenAction_try scope env tokenId adminUserId notes)
    (fun _ => ret (Failure "Token onaylanamadı")).

(** [approveTokenAction] as it stands in its module. *)
Definition approveTokenAction : Env -> string -> string -> option string -> M Result :=
  approveTokenAction_in unifiedTokenActions_imports.

Definition reject_data (env : Env) (adminUserId : string) (reason : string)
    : UpdateData :=
  [(["status"], Lit (VStr "rejected"));
   (["rejectedAt"], Lit (VTime (now env)));
   (["rejectedBy"], Lit (VStr adminUserId));
   (["rejectionReason"], Lit (VStr reason))].

(** The [try] block of [rejectTokenAction]. *)
Definition rejectTokenAction_try (env : Env) (tokenId : string)
    (adminUserId : string) (reason : string)
    : M Result :=
  tokenRef <- lift (doc UnifiedTokens (Some tokenId)) ;;
  updateDoc env tokenRef (reject_data env adminUserId reason) ;;;
  revalidatePath env "/admin/tokens" ;;;
  revalidatePath env "/dashboard" ;;;
  ret (Success PUnit).

Definition rejectTokenAction (env : Env) (tokenId : string)
    (adminUserId : string) (reason : string)
    : M Result :=
  try_catch (rejectTokenAction_try env tokenId adminUserId reason)
    (fun _ => ret (Failure "Token reddedilemedi")).

Definition expiredQuery (env : Env) : Query :=
  mkQuery UnifiedTokens
    [WhereLe "expiresAt" (now env); WhereEq "status" "pending"]
    (ByTimeAsc "expiresAt") (Some 100%nat).

Definition expire_data (env : Env) : UpdateData :=
  [(["status"], Lit (VStr "expired")); (["expiredAt"], Lit (VTime (now env)))].

Definition expire_write (env : Env) (x : string * Doc) : Write :=
  WUpdate (UnifiedTokens, x.1) (expire_data env).

(** The [try] block of [cleanupExpiredTokensAction]. *)
Definition cleanupExpiredTokensAction_try (env : Env) : M Result :=
  docs <- getDocs env (expiredQuery env) ;;
  match docs with
  | [] => ret (Success (PDeleted 0))
  | _ :: _ =>
      batch_commit env (map (expire_write env) docs) ;;;
      revalidatePath env "/admin/tokens" ;;;
      ret (Success (PDeleted (length docs)))
  end.

Definition cleanupExpiredTokensAction (env : Env) : M Result :=
  try_catch (cleanupExpiredTokensAction_try env)
    (fun _ => ret (Failure "Süresi dolmuş tokenlar temizlenemedi")).

(** [t.amount || 0], for an amount that is a number or is missing. *)
Definition amount_or_zero (d : Doc) : float :=
  if number_truthy (num_field "amount" d) then js_number (d !! "amount")
  else 0%float.

Definition count_where (f : string) (s : string) (l : list Doc) : nat :=
  length (List.filter (fun d => matches (WhereEq f s) d) l).

Definition sum_amounts (l : list Doc) : float :=
  fold_left (fun sum t => (sum + amount_or_zero t)%float) l 0%float.

Definition amount_with_status (s : string) (l : list Doc) : float :=
  sum_amounts (List.filter (fun d => matches (WhereEq "status" s) d) l).

(** The [try] block of [getTokenStatisticsAction]. *)
Definition getTokenStatisticsAction_try (env : Env) : M Result :=
  snapshot <- getDocs env (mkQuery UnifiedTokens [] ByName None) ;;
  let allTokens := map snd snapshot in
  ret (Success (PStats
    (mkTokenStats
       (length allTokens)
       (count_where "status" "pending" allTokens)
       (count_where "status" "approved" allTokens)
       (count_where "status" "rejected" allTokens)
       (count_where "status" "expired" allTokens)
       (map (fun t => (type_name t, count_where "type" (type_name t) allTokens))
          all_types)
       (amount_with_status "pending" allTokens)
       (amount_with_status "approved" allTokens)
       (amount_with_status "rejected" allTokens)))).

Definition getTokenStatisticsAction (env : Env) : M Result :=
  try_catch (getTokenStatisticsAction_try env)
    (fun _ => ret (Failure "İstatistikler alınamadı")).

(** The object [tokenData] of [migrateTransactionToTokenAction]. *)
Definition migrated_tokenData (env : Env) (transactionId adminUserId : string)
    (transactionData : Doc) : JsObject :=
  [("userId", transactionData !! "userId");
   ("type", transactionData !! "type");
   ("amount", transactionData !! "amount");
   ("status", transactionData !! "status");
   ("metadata", Some (VMap
      (<["migratedFrom" := VStr "transaction"]>
      (<["originalTransactionId" := VStr transactionId]>
      (<["migratedBy" := VStr adminUserId]>
      (<["originalData" := VMap transactionData]> ∅))))));
   ("createdAt",
     if truthy (transactionData !! "createdAt")
     then transactionData !! "createdAt"
     else Some (VTime (now env)));
   ("approvedAt", transactionData !! "approvedAt");
   ("approvedBy", transactionData !! "approvedBy")].

Definition migrated_data (env : Env) (tokenId adminUserId : string) : UpdateData :=
  [(["migratedToToken"], Lit (VStr tokenId));
   (["migratedAt"], Lit (VTime (now env)));
   (["migratedBy"], Lit (VStr adminUserId))].

(** The [try] block of [migrateTransactionToTokenAction]. *)
Definition migrateTransactionToTokenAction_try (env : Env)
    (transactionId : string) (adminUserId : string)
    : M Result :=
  transactionRef <- lift (doc Transactions (Some transactionId)) ;;
  transactionDoc <- getDoc env transactionRef ;;
  match transactionDoc with
  | None => ret (Failure "Transaction bulunamadı")
  | Some transactionData =>
      let tokenData :=
        migrated_tokenData env transactionId adminUserId transactionData in
      tokenId <- addDoc env UnifiedTokens tokenData ;;
      updateDoc env transactionRef (migrated_data env tokenId adminUserId) ;;;
      revalidatePath env "/admin/tokens" ;;;
      revalidatePath env "/admin/transactions" ;;;
      ret (Success (PTokenId tokenId))
  end.

Definition migrateTransactionToTokenAction (env : Env)
    (transactionId : string) (adminUserId : string)
    : M Result :=
  try_catch (migrateTransactionToTokenAction_try env transactionId adminUserId)
    (fun _ => ret (Failure "Migration başarısız")).

(** ** The referral actions *)

(** [const commissionRate = 0.05]: the float nearest to 0.05. *)
#[warnings="-inexact-float"]
Definition commissionRate : float := 0.05%float.

Definition referrerQuery (referralCode : string) : Query :=
  mkQuery Users [WhereEq "referralCode" referralCode] ByName (Some 1%nat).

(** The callback that [processDepositReferralAction] gives to
    [runTransaction]; [tokenId] is the id of [doc(collection(db,
    'unifiedTokens'))]. *)
Definition commission_tokenData (env : Env) (userId : string)
    (depositAmount : float) (referrerId : string) : Doc :=
  let commissionAmount := (depositAmount * commissionRate)%float in
  <["userId" := VStr referrerId]>
  (<["type" := VStr "referral_commission"]>
  (<["amount" := VNum commissionAmount]>
  (<["status" := VStr "pending"]>
  (<["metadata" := VMap
       (<["referredUserId" := VStr userId]>
       (<["originalDepositAmount" := VNum depositAmount]>
       (<["commissionRate" := VNum commissionRate]>
       (<["source" := VStr "deposit_referral"]> ∅))))]>
  (<["createdAt" := VTime (now env)]>
  (<["expiresAt" := VTime (now env + 30 * day_ms)]> ∅)))))).

Definition referred_data (env : Env) (referrerId : string) : UpdateData :=
  [(["referredBy"], Lit (VStr referrerId));
   (["referralProcessedAt"], Lit (VTime (now env)))].

Definition processDepositReferral_callback (scope : list string) (env : Env)
    (tokenId : string) (userId : string) (depositAmount : float)
    (referrerId : string) : Exc (list Write) :=
  let commissionAmount := (depositAmount * commissionRate)%float in
  let tokenData := commission_tokenData env userId depositAmount referrerId in
  exc_bind (doc Users (Some referrerId)) (fun referrerRef =>
  exc_bind (increment scope commissionAmount) (fun total =>
  exc_bind (increment scope commissionAmount) (fun pending =>
  exc_bind (increment scope 1%float) (fun referrals =>
  exc_bind (doc Users (Some userId)) (fun userRef =>
  inr [WSet (UnifiedTokens, tokenId) tokenData;
       WUpdate referrerRef
         [(["referralStats"; "totalCommissions"], total);
          (["referralStats"; "pendingCommissions"], pending);
          (["referralStats"; "totalReferrals"], referrals);
          (["referralStats"; "lastReferralDate"], Lit (VTime (now env)))];
       WUpdate userRef (referred_data env referrerId)]))))).

(** The [try] block of [processDepositReferralAction]. *)
Definition processDepositReferralAction_try (env : Env) (userId : string)
    (depositAmount : float) (referralCode : option string)
    : M Result :=
  if negb (truthy (VStr <$> referralCode)) then ret (Success PUnit)
  else
    referrerSnapshot <- getDocs env (referrerQuery (default "" referralCode)) ;;
    match referrerSnapshot with
    | [] => ret (Failure "Geçersiz referral kodu")
    | (referrerId, referrerData) :: _ =>
        let commissionAmount := (depositAmount * commissionRate)%float in
        tokenId <- auto_id UnifiedTokens ;;
        runTransaction env
          (processDepositReferral_callback referralActions_imports env
             tokenId userId depositAmount referrerId) ;;;
        revalidatePath env "/dashboard/referrals" ;;;
        ret (Success (PCommissionAmount commissionAmount))
    end.

Definition processDepositReferralAction (env : Env) (userId : string)
    (depositAmount : float) (referralCode : option string)
    : M Result :=
  try_catch (processDepositReferralAction_try env userId depositAmount referralCode)
    (fun _ => ret (Failure "Referral işlemi başarısız")).

Definition default_referralStats : Value :=
  VMap (<["totalReferrals" := VNum 0]>
       (<["totalCommissions" := VNum 0]>
       (<["pendingCommissions" := VNum 0]>
       (<["approvedCommissions" := VNum 0]>
       (<["lastReferralDate" := VNull]> ∅))))).

(** The [try] block of [getUserReferralStatsAction]. *)
Definition getUserReferralStatsAction_try (env : Env) (userId : string) : M Result :=
  userRef <- lift (doc Users (Some userId)) ;;
  userDoc <- getDoc env userRef ;;
  match userDoc with
  | None => ret Null
  | Some userData =>
      ret (StatsOf
        (if truthy (userData !! "referralStats")
         then default VNull (userData !! "referralStats")
         else default_referralStats))
  end.

Definition getUserReferralStatsAction (env : Env) (userId : string) : M Result :=
  try_catch (getUserReferralStatsAction_try env userId)
    (fun _ => ret Null).

(** The [try] block of [getUserReferralCommissionTokensAction]. *)
Definition getUserReferralCommissionTokensAction_try (env : Env) (userId : string) : M Result :=
  tokens <- getDocs env
    (mkQuery UnifiedTokens
       [WhereEq "userId" userId; WhereEq "type" "referral_commission"]
       (ByTimeDesc "createdAt") (Some 50%nat)) ;;
  ret (Success (PTokens tokens)).

Definition getUserReferralCommissionTokensAction (env : Env) (userId : string) : M Result :=
  try_catch (getUserReferralCommissionTokensAction_try env userId)
    (fun _ => ret (Failure "Komisyon tokenları alınamadı")).

Definition approve_commission_data (env : Env) (adminUserId : string)
    : UpdateData :=
  [(["status"], Lit (VStr "approved"));
   (["approvedAt"], Lit (VTime (now env)));
   (["approvedBy"], Lit (VStr adminUserId))].

Definition approveReferralCommission_callback (scope : list string)
    (env : Env) (tokenRef : DocRef) (adminUserId : string) (tokenData : Doc)
    : Exc (list Write) :=
  let approve := WUpdate tokenRef (approve_commission_data env adminUserId) in
  let amount := js_number (tokenData !! "amount") in
  exc_bind (doc Users (str_field "userId" tokenData)) (fun userRef =>
  exc_bind (increment scope amount) (fun balance =>
  exc_bind (increment scope amount) (fun approved =>
  exc_bind (increment scope (- amount)%float) (fun pending =>
  inr [approve;
       WUpdate userRef
         [(["balance"], balance);
          (["referralStats"; "approvedCommissions"], approved);
          (["referralStats"; "pendingCommissions"], pending)]])))).

(** The [try] block of [approveReferralCommissionAction]. *)
Definition approveReferralCommissionAction_try (env : Env) (tokenId : string)
    (adminUserId : string)
    : M Result :=
  tokenRef <- lift (doc UnifiedTokens (Some tokenId)) ;;
  tokenDoc <- getDoc env tokenRef ;;
  match tokenDoc with
  | None => ret (Failure "Token bulunamadı")
  | Some tokenData =>
      if negb (status_is Pending tokenData)
      then ret (Failure "Token zaten işlenmiş")
      else
        runTransaction env
          (approveReferralCommission_callback referralActions_imports env
             tokenRef adminUserId tokenData) ;;;
        revalidatePath env "/admin/referrals" ;;;
        revalidatePath env "/dashboard/referrals" ;;;
        ret (Success PUnit)
  end.

Definition approveReferralCommissionAction (env : Env) (tokenId : string)
    (adminUserId : string)
    : M Result :=
  try_catch (approveReferralCommissionAction_try env tokenId adminUserId)
    (fun _ => ret (Failure "Komisyon onaylanamadı")).

(** [x || 0] *)
Definition or_zero (o : option Value) : option Value :=
  if truthy o then o else Some (VNum 0).

(** The [try] block of [getUserReferralChainAction]. *)
Definition getUserReferralChainAction_try (env : Env) (userId : string) : M Result :=
  referred <- getDocs env
    (mkQuery Users [WhereEq "referredBy" userId]
       (ByTimeDesc "referralProcessedAt") (Some 100%nat)) ;;
  let referredUsers : list JsObject :=
    map (fun x : string * Doc =>
           [("id", Some (VStr x.1));
            ("email", x.2 !! "email");
            ("displayName", x.2 !! "displayName");
            ("referralProcessedAt", x.2 !! "referralProcessedAt");
            ("totalDeposits", or_zero (x.2 !! "totalDeposits"))])
        referred in
  ret (Success (PReferredUsers referredUsers)).

Definition getUserReferralChainAction (env : Env) (userId : string) : M Result :=
  try_catch (getUserReferralChainAction_try env userId)
    (fun _ => ret (Failure "Referral zinciri alınamadı")).

(** The loop variable of [for (const doc of pendingSnapshot.docs)] hides the
    imported function [doc]: the call [doc(db, 'users', ...)] in the first
    iteration applies a document snapshot, and throws. *)
Definition getPendingReferralCommissionsAction_try (env : Env) : M Result :=
  pending <- getDocs env
    (mkQuery UnifiedTokens
       [WhereEq "type" "referral_commission"; WhereEq "status" "pending"]
       (ByTimeDesc "createdAt") (Some 100%nat)) ;;
  match pending with
  | [] => ret (Success (PCommissions []))
  | _ :: _ => throw (TypeError "doc is not a function")
  end.

Definition getPendingReferralCommissionsAction (env : Env) : M Result :=
  try_catch (getPendingReferralCommissionsAction_try env)
    (fun _ => ret (Failure "Bekleyen komisyonlar alınamadı")).

(** The [try] block of [analyzeReferralPerformanceAction]. *)
Definition analyzeReferralPerformanceAction_try (env : Env) (userId : string) : M Result :=
  let thirtyDaysAgo := now env - 30 * day_ms in
  recent <- getDocs env
    (mkQuery Users
       [WhereEq "referredBy" userId; WhereGe "referralProcessedAt" thirtyDaysAgo]
       (ByTimeAsc "referralProcessedAt") None) ;;
  commissions <- getDocs env
    (mkQuery UnifiedTokens
       [WhereEq "userId" userId; WhereEq "type" "referral_commission"]
       ByName None) ;;
  let tokens := map snd commissions in
  let total := length tokens in
  let amount := sum_amounts tokens in
  let approved := count_where "status" "approved" tokens in
  ret (Success (PAnalysis
    (mkAnalysis (length recent) total amount approved
       (if (0 <? total)%nat
        then (float_of_Z (Z.of_nat approved) / float_of_Z (Z.of_nat total)
              * 100)%float
        else 0%float)
       (if (0 <? total)%nat
        then (amount / float_of_Z (Z.of_nat total))%float
        else 0%float)))).

Definition analyzeReferralPerformanceAction (env : Env) (userId : string) : M Result :=
  try_catch (analyzeReferralPerformanceAction_try env userId)
    (fun _ => ret (Failure "Analiz yapılamadı")).

(** ** The exported operations *)

Inductive Op : Type :=
| CreateUnifiedToken (userId : string) (type : TokenType) (amount : float)
    (metadata : option Doc) (expiresInDays : option float)
| UpdateUnifiedToken (tokenId : string) (updates : list (string * Value))
| GetUnifiedToken (tokenId : string)
| GetUserUnifiedTokens (userId : string) (tokenType : option TokenType)
    (status : option TokenStatus) (limitCount : Z)
| ApproveToken (tokenId adminUserId : string) (notes : option string)
| RejectToken (tokenId adminUserId reason : string)
| CleanupExpiredTokens
| GetTokenStatistics
| MigrateTransactionToToken (transactionId adminUserId : string)
| ProcessDepositReferral (userId : string) (depositAmount : float)
    (referralCode : option string)
| GetUserReferralStats (userId : string)
| GetUserReferralCommissionTokens (userId : string)
| ApproveReferralCommission (tokenId adminUserId : string)
| GetUserReferralChain (userId : string)
| GetPendingReferralCommissions
| AnalyzeReferralPerformance (userId : string).

(** The operations, in a token module whose imports are [scope]. *)
Definition run_in (scope : list string) (env : Env) (op : Op) : M Result :=
  match op with
  | CreateUnifiedToken u t a m e => createUnifiedTokenAction env u t a m e
  | UpdateUnifiedToken t u => updateUnifiedTokenAction env t u
  | GetUnifiedToken t => getUnifiedTokenAction env t
  | GetUserUnifiedTokens u t s l => getUserUnifiedTokensAction env u t s l
  | ApproveToken t a n => approveTokenAction_in scope env t a n
  | RejectToken t a r => rejectTokenAction env t a r
  | CleanupExpiredTokens => cleanupExpiredTokensAction env
  | GetTokenStatistics => getTokenStatisticsAction env
  | MigrateTransactionToToken t a => migrateTransactionToTokenAction env t a
  | ProcessDepositReferral u d r => processDepositReferralAction env u d r
  | GetUserReferralStats u => getUserReferralStatsAction env u
  | GetUserReferralCommissionTokens u => getUserReferralCommissionTokensAction env u
  | ApproveReferralCommission t a => approveReferralCommissionAction env t a
  | GetUserReferralChain u => getUserReferralChainAction env u
  | GetPendingReferralCommissions => getPendingReferralCommissionsAction env
  | AnalyzeReferralPerformance u => analyzeReferralPerformanceAction env u
  end.

(** The operations as exported: [ApproveToken] is [approveTokenAction]. *)
Definition run (env : Env) (op : Op) : M Result :=
  run_in unifiedTokenActions_imports env op.

(** The [try] block of each operation, as exported. *)
Definition try_block (env : Env) (op : Op) : M Result :=
  match op with
  | CreateUnifiedToken u t a m e => createUnifiedTokenAction_try env u t a m e
  | UpdateUnifiedToken t u => updateUnifiedTokenAction_try env t u
  | GetUnifiedToken t => getUnifiedTokenAction_try env t
  | GetUserUnifiedTokens u t s l => getUserUnifiedTokensAction_try env u t s l
  | ApproveToken t a n =>
      approveTokenAction_try unifiedTokenActions_imports env t a n
  | RejectToken t a r => rejectTokenAction_try env t a r
  | CleanupExpiredTokens => cleanupExpiredTokensAction_try env
  | GetTokenStatistics => getTokenStatisticsAction_try env
  | MigrateTransactionToToken t a => migrateTransactionToTokenAction_try env t a
  | ProcessDepositReferral u d r => processDepositReferralAction_try env u d r
  | GetUserReferralStats u => getUserReferralStatsAction_try env u
  | GetUserReferralCommissionTokens u =>
      getUserReferralCommissionTokensAction_try env u
  | ApproveReferralCommission t a => approveReferralCommissionAction_try env t a
  | GetUserReferralChain u => getUserReferralChainAction_try env u
  | GetPendingReferralCommissions => getPendingReferralCommissionsAction_try env
  | AnalyzeReferralPerformance u => analyzeReferralPerformanceAction_try env u
  end.

(** * What the claims speak about *)

(** ** Token status *)

(** The [status] field of a token. *)
Definition status_of (d : Doc) : option Value := d !! "status".

(** [tokenData.status === 'pending'] *)
Definition pending_doc (d : Doc) : Prop := status_is Pending d = true.

(** Whether a key holds a dot, which [updateDoc] reads as a field path. *)
Fixpoint has_dot (s : string) : bool :=
  match s with
  | EmptyString => false
  | String a s' => String.eqb (String a EmptyString) "." || has_dot s'
  end.

(** The keys of an object of [Partial<UnifiedToken>]: each once, and plain
    field names. *)
Definition field_names (updates : list (string * Value)) : Prop :=
  NoDup updates.*1 /\ Forall (fun kv => has_dot kv.1 = false) updates.

(** What an operation may do to the existing token [id], which is [d]
    before it and [d'] after it. The two approvals leave it as it was or
    approve it, when it is the token they are given and was pending; the
    sweep leaves it as it was or marks it expired, when it was pending;
    [rejectTokenAction] leaves it as it was unless it is the token it is
    given, which it rejects when it was pending;
    [updateUnifiedTokenAction] leaves it as it was unless it is the token
    it is given, to which it writes the fields it is given, when these are
    plain field names; every other operation leaves it as it was. *)
Definition status_step (env : Env) (op : Op) (id : string) (d d' : Doc) : Prop :=
  match op with
  | UpdateUnifiedToken tokenId updates =>
      d' = d \/
      (id = tokenId /\
       (field_names updates -> d' = apply_update (updateData env updates) d))
  | RejectToken tokenId _ _ =>
      d' = d \/
      (id = tokenId /\ (pending_doc d -> status_of d' = Some (VStr "rejected")))
  | ApproveToken tokenId _ _ | ApproveReferralCommission tokenId _ =>
      d' = d \/
      (id = tokenId /\ pending_doc d /\ status_of d' = Some (VStr "approved"))
  | CleanupExpiredTokens =>
      d' = d \/ (pending_doc d /\ status_of d' = Some (VStr "expired"))
  | _ => d' = d
  end.

(** A token that exists and is no longer pending. *)
Definition processed (db : Db) (tokenId : string) : Prop :=
  exists d, unifiedTokens db !! tokenId = Some d /\ status_is Pending d = false.

(** Both approval actions refuse the token and leave the database as it is. *)
Definition refused (env : Env) (tokenId adminUserId : string)
    (notes : option string) (db : Db) : Prop :=
  (exists e, approveTokenAction env tokenId adminUserId notes db
             = (db, inr (Failure e))) /\
  (exists e, approveReferralCommissionAction env tokenId adminUserId db
             = (db, inr (Failure e))).

(** A pending token whose [expiresAt] is at or before [t]. *)
Definition due (t : Z) (d : Doc) : bool :=
  status_is Pending d
  && match time_field "expiresAt" d with Some e => e <=? t | None => false end.

(** The token after [batch.update(doc.ref, {status: 'expired', expiredAt: now})]. *)
Definition mark_expired (t : Z) (d : Doc) : Doc :=
  <["expiredAt" := VTime t]> (<["status" := VStr "expired"]> d).

(** The query that [getUserUnifiedTokensAction] runs when a status is given. *)
Definition status_query (userId : string) (s : TokenStatus) (n : nat) : Query :=
  mkQuery UnifiedTokens
    [WhereEq "userId" userId; WhereEq "status" (status_name s)]
    (ByTimeDesc "createdAt") (Some n).

(** ** Balances *)

(** The [balance] field of a user. *)
Definition balance_of (d : Doc) : option Value := d !! "balance".

(** The balance of the user [uid], if the user and the field exist. *)
Definition balance_at (db : Db) (uid : string) : option Value :=
  users db !! uid ≫= balance_of.

Definition same_balance : relation Doc := fun d d' => balance_of d' = balance_of d.

(** The operation approves a token of the user [uid]: the token was pending
    before and is approved after. *)
Definition approved_for (op : Op) (db db' : Db) (uid : string) : Prop :=
  match op with
  | ApproveToken tokenId _ _ | ApproveReferralCommission tokenId _ =>
      exists d d',
        unifiedTokens db !! tokenId = Some d /\ pending_doc d /\
        str_field "userId" d = Some uid /\
        unifiedTokens db' !! tokenId = Some d' /\
        status_of d' = Some (VStr "approved")
  | _ => False
  end.

(** The balance change that the [switch] of [approveTokenAction] asks for. *)
Definition balance_effect (type : TokenType) (amount : float) : option float :=
  match type with
  | Deposit | Bonus | ReferralCommission | Cashback => Some amount
  | Withdrawal => Some (- amount)%float
  | RaffleEntry => None
  end.

(** The running total that the [switch] of [approveTokenAction] increases. *)
Definition total_field (type : TokenType) : option string :=
  match type with
  | RaffleEntry => None
  | Withdrawal => Some "withdrawalTotal"
  | _ => Some (type_name type ++ "Total")
  end.

(** The field [k] after [increment(n)]. *)
Definition incremented (k : string) (n : float) (d : Doc) : option Value :=
  Some (apply_field (Increment n) (d !! k)).

(** ** Referral statistics *)



Definition same_stats : relation Doc :=
  fun d d' => d' !! "referralStats" = d !! "referralStats".

(** The update of the referrer in [processDepositReferralAction]. *)
Definition referrer_data (env : Env) (commissionAmount : float) : UpdateData :=
  [(["referralStats"; "totalCommissions"], Increment commissionAmount);
   (["referralStats"; "pendingCommissions"], Increment commissionAmount);
   (["referralStats"; "totalReferrals"], Increment 1%float);
   (["referralStats"; "lastReferralDate"], Lit (VTime (now env)))].

(** The update of the owner in [approveReferralCommissionAction]. *)
Definition commission_data (amount : float) : UpdateData :=
  [(["balance"], Increment amount);
   (["referralStats"; "approvedCommissions"], Increment amount);
   (["referralStats"; "pendingCommissions"], Increment (- amount)%float)].


(** [d'] has the referral statistics that the update [D] gives to [d]. *)
Definition stats_updated (D : UpdateData) : relation Doc :=
  fun d d' => d' !! "referralStats" = apply_update D d !! "referralStats".



(** ** Results *)

(** The value of the [catch] block of each operation. *)
Definition caught (op : Op) : Result :=
  match op with
  | CreateUnifiedToken _ _ _ _ _ => Failure "Token oluşturulamadı"
  | UpdateUnifiedToken _ _ => Failure "Token güncellenemedi"
  | GetUnifiedToken _ => Failure "Token alınamadı"
  | GetUserUnifiedTokens _ _ _ _ => Failure "Tokenlar alınamadı"
  | ApproveToken _ _ _ => Failure "Token onaylanamadı"
  | RejectToken _ _ _ => Failure "Token reddedilemedi"
  | CleanupExpiredTokens => Failure "Süresi dolmuş tokenlar temizlenemedi"
  | GetTokenStatistics => Failure "İstatistikler alınamadı"
  | MigrateTransactionToToken _ _ => Failure "Migration başarısız"
  | ProcessDepositReferral _ _ _ => Failure "Referral işlemi başarısız"
  | GetUserReferralStats _ => Null
  | GetUserReferralCommissionTokens _ => Failure "Komisyon tokenları alınamadı"
  | ApproveReferralCommission _ _ => Failure "Komisyon onaylanamadı"
  | GetUserReferralChain _ => Failure "Referral zinciri alınamadı"
  | GetPendingReferralCommissions => Failure "Bekleyen komisyonlar alınamadı"
  | AnalyzeReferralPerformance _ => Failure "Analiz yapılamadı"
  end.

(** The shapes of a returned value: [{success: true, ...}] or
    [{success: false, error}]; for [getUserReferralStatsAction], a statistics
    object or [null]. *)
Definition well_shaped (op : Op) (r : Result) : Prop :=
  match op with
  | GetUserReferralStats _ => r = Null \/ exists v, r = StatsOf v
  | _ => (exists p, r = Success p) \/ (exists e, r = Failure e)
  end.

(** The first call on the database that an operation makes, if it makes
    any: [processDepositReferralAction] without a referral code makes
    none. *)
Definition first_call (op : Op) : option Call :=
  match op with
  | CreateUnifiedToken _ _ _ _ _ => Some CAddDoc
  | UpdateUnifiedToken _ _ | RejectToken _ _ _ => Some CUpdateDoc
  | GetUnifiedToken _ | ApproveToken _ _ _ | MigrateTransactionToToken _ _
  | GetUserReferralStats _ | ApproveReferralCommission _ _ => Some CGetDoc
  | ProcessDepositReferral _ _ code =>
      if truthy (VStr <$> code) then Some CGetDocs else None
  | GetUserUnifiedTokens _ _ _ _ | CleanupExpiredTokens | GetTokenStatistics
  | GetUserReferralCommissionTokens _ | GetUserReferralChain _
  | GetPendingReferralCommissions | AnalyzeReferralPerformance _ => Some CGetDocs
  end.

(** ** Writes *)

(** The document a write is on. *)
Definition write_ref (w : Write) : DocRef :=
  match w with
  | WUpdate r _ => r
  | WSet r _ => r
  end.

(** A write respects [R] at a document when it is an update whose data,
    applied to any document, gives an [R]-related one, or when it sets
    another document. *)
Definition write_respects (c : Coll) (id : string) (R : relation Doc)
    (w : Write) : Prop :=
  match w with
  | WUpdate r data => r = (c, id) -> forall x, R x (apply_update data x)
  | WSet r _ => r <> (c, id)
  end.

(** An update of a user that leaves the field [k] as it is. *)
Definition keeps (k : string) (w : Write) : Prop :=
  match w with
  | WUpdate r data => r.1 = Users /\ forall d : Doc, apply_update data d !! k = d !! k
  | WSet r _ => False
  end.

(** ** A small ledger *)

Definition example_user (balance : float) (referralCode : string) : Doc :=
  <["balance" := VNum balance]> (<["referralCode" := VStr referralCode]> ∅).

Definition example_token (type status owner : string) (amount : float)
    (createdAt expiresAt : Z) : Doc :=
  <["userId" := VStr owner]>
  (<["type" := VStr type]>
  (<["amount" := VNum amount]>
  (<["status" := VStr status]>
  (<["createdAt" := VTime createdAt]>
  (<["expiresAt" := VTime expiresAt]> ∅))))).

(** Two users and three tokens of the first: a pending deposit, a pending
    raffle entry and an approved withdrawal. *)
Definition example_db : Db :=
  mkDb
    (<["alice" := example_user 10 "ABC"]> (<["bob" := example_user 3 "XYZ"]> ∅))
    (<["t1" := example_token "deposit" "pending" "alice" 5 1 50]>
     (<["t2" := example_token "raffle_entry" "pending" "alice" 5 2 500]>
     (<["t3" := example_token "withdrawal" "approved" "alice" 2 3 60]> ∅)))
    ∅.


(** ** The steps of the operations *)

(** The writes an operation commits when it commits any. *)
Inductive step (scope : list string) (env : Env) (db : Db) : Op -> list Write -> Prop :=
| step_create u t a m e d :
    status_of d = Some (VStr "pending") ->
    step scope env db (CreateUnifiedToken u t a m e)
      [WSet (UnifiedTokens, fresh (dom (unifiedTokens db))) d]
| step_update tokenId updates :
    step scope env db (UpdateUnifiedToken tokenId updates)
      [WUpdate (UnifiedTokens, tokenId) (updateData env updates)]
| step_approve tokenId adminUserId notes d ws :
    unifiedTokens db !! tokenId = Some d ->
    pending_doc d ->
    approveToken_callback scope env (UnifiedTokens, tokenId) adminUserId notes d
      = inr ws ->
    step scope env db (ApproveToken tokenId adminUserId notes) ws
| step_reject tokenId adminUserId reason :
    step scope env db (RejectToken tokenId adminUserId reason)
      [WUpdate (UnifiedTokens, tokenId) (reject_data env adminUserId reason)]
| step_cleanup :
    step scope env db CleanupExpiredTokens
      (map (expire_write env) (run_query (expiredQuery env) db))
| step_migrate transactionId adminUserId d rest :
    rest = [] \/
    rest = [WUpdate (Transactions, transactionId)
              (migrated_data env (fresh (dom (unifiedTokens db))) adminUserId)] ->
    step scope env db (MigrateTransactionToToken transactionId adminUserId)
      (WSet (UnifiedTokens, fresh (dom (unifiedTokens db))) d :: rest)
| step_deposit userId depositAmount code referrerId referrerData rest ws :
    truthy (VStr <$> code) = true ->
    run_query (referrerQuery (default "" code)) db
      = (referrerId, referrerData) :: rest ->
    processDepositReferral_callback referralActions_imports env
      (fresh (dom (unifiedTokens db))) userId depositAmount referrerId = inr ws ->
    step scope env db (ProcessDepositReferral userId depositAmount code) ws
| step_approve_referral tokenId adminUserId d ws :
    unifiedTokens db !! tokenId = Some d ->
    pending_doc d ->
    approveReferralCommission_callback referralActions_imports env
      (UnifiedTokens, tokenId) adminUserId d = inr ws ->
    step scope env db (ApproveReferralCommission tokenId adminUserId) ws.

(** * Further notions

    The notions of the further properties of the actions, which are proved
    in the last part. *)

(** An operation that only reads. *)
Definition read_only (op : Op) : Prop :=
  match op with
  | GetUnifiedToken _ | GetUserUnifiedTokens _ _ _ _ | GetTokenStatistics
  | GetUserReferralStats _ | GetUserReferralCommissionTokens _
  | GetUserReferralChain _ | GetPendingReferralCommissions
  | AnalyzeReferralPerformance _ => True
  | _ => False
  end.

(** A write that creates no document of the collection [c]. *)
Definition creates_none (c : Coll) (w : Write) : Prop :=
  match w with
  | WUpdate _ _ => True
  | WSet r _ => r.1 <> c
  end.

(** The token that [createUnifiedTokenAction] makes at the time [t], with
    the expiry [expiresAt]. *)
Definition created_token (t : Z) (userId : string) (type : TokenType)
    (amount : float) (metadata : option Doc) (expiresAt : Z) : Doc :=
  <["userId" := VStr userId]>
  (<["type" := VStr (type_name type)]>
  (<["amount" := VNum amount]>
  (<["status" := VStr "pending"]>
  (<["metadata" := VMap (default ∅ metadata)]>
  (<["createdAt" := VTime t]>
  (<["expiresAt" := VTime expiresAt]> ∅)))))).

(** The fields a migration copies from the legacy transaction. *)
Definition copied_fields : list string :=
  ["userId"; "type"; "amount"; "status"; "approvedAt"; "approvedBy"].

(** A legacy transaction that was approved before the tokens came. *)
Definition example_transaction : Doc :=
  <["userId" := VStr "bob"]> (<["type" := VStr "deposit"]>
  (<["amount" := VNum 8]> (<["status" := VStr "approved"]> ∅))).

(** The small ledger with that legacy transaction. *)
Definition example_legacy_db : Db :=
  mkDb (users example_db) (unifiedTokens example_db)
    (<["tx1" := example_transaction]> ∅).

(** An environment in which every [updateDoc] is rejected. *)
Definition no_updates (t : Z) : Env :=
  mkEnv t (fun c => match c with CUpdateDoc => true | _ => false end) true.

(** The four statuses, as the strings of the [status] field. *)
Definition status_names : list string :=
  map status_name [Pending; Approved; Rejected; Expired].

(** The query of [getPendingReferralCommissionsAction]. *)
Definition pendingQuery : Query :=
  mkQuery UnifiedTokens
    [WhereEq "type" "referral_commission"; WhereEq "status" "pending"]
    (ByTimeDesc "createdAt") (Some 100%nat).


(** The [amount] of a token is a number, as [UnifiedToken] declares it, or
    is missing. *)
Definition amount_typed (d : Doc) : bool :=
  match d !! "amount" with
  | Some (VNum _) | None => true
  | Some _ => false
  end.

(** The amounts of all the tokens are. *)
Definition amounts_typed (db : Db) : Prop :=
  map_Forall (fun _ d => amount_typed d = true) (unifiedTokens db).

(** A token is a pending referral commission. *)
Definition pending_commission (d : Doc) : Prop :=
  str_field "type" d = Some "referral_commission" /\
  str_field "status" d = Some "pending".

(** The small ledger with a pending referral commission of the first user. *)
Definition example_commission_db : Db :=
  mkDb (users example_db)
    (<["t4" := example_token "referral_commission" "pending" "alice" 0.5 4 1000]>
       (unifiedTokens example_db))
    ∅.

(** The type of a token as [switch (tokenData.type)] sees it. *)
Definition switch_type (d : Doc) : option TokenType :=
  type_of_string (default "" (str_field "type" d)).

(** The query of [getUserReferralChainAction]. *)
Definition chainQuery (userId : string) : Query :=
  mkQuery Users [WhereEq "referredBy" userId]
    (ByTimeDesc "referralProcessedAt") (Some 100%nat).

(** The fields of a token that say whose it is, what it is and how much. *)
Definition core_fields : list string := ["userId"; "type"; "amount"; "createdAt"].

(** The fields of a user that the actions write. *)
Definition ledger_fields : list string :=
  ["balance"; "referralStats"; "referredBy"; "referralProcessedAt"].

(** [d'] has the fields [ks] as [d] has them. *)
Definition same_on (ks : list string) : relation Doc :=
  fun d d' => forall k, k ∈ ks -> d' !! k = d !! k.

(** [d'] differs from [d] at most in the fields [ks]. *)
Definition same_but (ks : list string) : relation Doc :=
  fun d d' => forall k, k ∉ ks -> d' !! k = d !! k.

(** The [createdAt] of a token is a timestamp, as [UnifiedToken] declares
    it, or is missing. *)
Definition created_typed (d : Doc) : bool :=
  match d !! "createdAt" with
  | Some (VTime _) | None => true
  | Some _ => false
  end.

(** The creation times of all the tokens are. *)
Definition creation_times_typed (db : Db) : Prop :=
  map_Forall (fun _ d => created_typed d = true) (unifiedTokens db).

(** The query that [getUserUnifiedTokensAction] runs when no status is
    given. *)
Definition type_query (userId : string) (tokenType : option TokenType) (n : nat)
    : Query :=
  mkQuery UnifiedTokens
    (WhereEq "userId" userId
     :: match tokenType with
        | Some ty => [WhereEq "type" (type_name ty)]
        | None => []
        end)
    (ByTimeDesc "createdAt") (Some n).

(** * Proofs *)

(** ** The store *)

Lemma coll_set_coll c m db : coll c (set_coll c m db) = m.
Proof. by destruct c. Qed.

Lemma coll_set_coll_ne c c' m db : c <> c' -> coll c (set_coll c' m db) = coll c db.
Proof. by destruct c, c'. Qed.

Lemma set_coll_id c db : set_coll c (coll c db) db = db.
Proof. by destruct c, db. Qed.

Lemma bind_fst_unchanged {A B} (c : M A) (k : A -> M B) db :
  (c db).1 = db -> (forall a, (k a db).1 = db) -> (bind c k db).1 = db.
Proof.
  unfold bind. destruct (c db) as [db' [e|a]]; simpl; intros ->; auto.
Qed.

Ltac run_calls :=
  cbv beta iota zeta delta
    [try_catch bind lift call ret throw getDoc getDocs addDoc updateDoc
     runTransaction batch_commit revalidatePath auto_id exc_bind doc fst snd
     createUnifiedTokenAction_try updateUnifiedTokenAction_try
     getUnifiedTokenAction_try getUserUnifiedTokensAction_try
     approveTokenAction_try rejectTokenAction_try
     cleanupExpiredTokensAction_try getTokenStatisticsAction_try
     migrateTransactionToTokenAction_try processDepositReferralAction_try
     getUserReferralStatsAction_try getUserReferralCommissionTokensAction_try
     approveReferralCommissionAction_try getUserReferralChainAction_try
     getPendingReferralCommissionsAction_try
     analyzeReferralPerformanceAction_try]
    in *.

Ltac cases :=
  repeat (case_match; simplify_eq); simplify_eq; cbn [fst snd] in *.

(** Every path of a list of updates starts with a field other than the one
    looked up. *)
Ltac other_fields :=
  repeat (apply Forall_cons_2; [cbn; discriminate|]); apply Forall_nil_2.

Lemma apply_write_coll_ne w db db' c :
  (write_ref w).1 <> c -> apply_write w db = Some db' -> coll c db' = coll c db.
Proof.
  destruct w as [[c' id] data|[c' id] d]; cbn [apply_write write_ref fst snd];
    intros Hne H; cases; by rewrite coll_set_coll_ne.
Qed.

Lemma apply_write_lookup_ne w db db' c id :
  write_ref w <> (c, id) -> apply_write w db = Some db' ->
  coll c db' !! id = coll c db !! id.
Proof.
  intros Hne H. destruct (decide ((write_ref w).1 = c)) as [<-|Hc].
  - destruct w as [[c' id'] data|[c' id'] d];
      cbn [apply_write write_ref fst snd] in *; cases;
      rewrite coll_set_coll, lookup_insert_ne; congruence.
  - by rewrite (apply_write_coll_ne _ _ _ _ Hc H).
Qed.

Lemma apply_write_update c id data db db' :
  apply_write (WUpdate (c, id) data) db = Some db' ->
  exists d, coll c db !! id = Some d /\
            db' = set_coll c (<[id := apply_update data d]> (coll c db)) db.
Proof. cbn [apply_write fst snd]. intros H. cases. eauto. Qed.

Lemma commit_single w db : commit [w] db = apply_write w db.
Proof. cbn [commit]. by destruct (apply_write w db). Qed.

Lemma commit_cons w ws db db1 :
  apply_write w db = Some db1 -> commit (w :: ws) db = commit ws db1.
Proof. cbn [commit]. by intros ->. Qed.

Lemma commit_cons_inv w ws db db' :
  commit (w :: ws) db = Some db' ->
  exists db1, apply_write w db = Some db1 /\ commit ws db1 = Some db'.
Proof. cbn [commit]. destruct (apply_write w db); [eauto | done]. Qed.

Lemma commit_coll_ne c ws : forall db db',
  Forall (fun w => (write_ref w).1 <> c) ws ->
  commit ws db = Some db' -> coll c db' = coll c db.
Proof.
  induction ws as [|w ws IH]; intros db db' Hall H.
  - cbn in H. by simplify_eq.
  - apply commit_cons_inv in H as (db1 & H1 & H2).
    inversion Hall; subst.
    rewrite (IH _ _ ltac:(done) H2). by eapply apply_write_coll_ne.
Qed.

Lemma commit_respects c id (R : relation Doc) `{!Reflexive R, !Transitive R} ws :
  forall db db' d,
    Forall (write_respects c id R) ws ->
    commit ws db = Some db' ->
    coll c db !! id = Some d ->
    exists d', coll c db' !! id = Some d' /\ R d d'.
Proof.
  induction ws as [|w ws IH]; intros db db' d Hall H Hd.
  - cbn in H. simplify_eq. eauto.
  - apply commit_cons_inv in H as (db1 & H1 & H2).
    inversion Hall as [|? ? Hw Hws]; subst.
    assert (exists d1, coll c db1 !! id = Some d1 /\ R d d1) as (d1 & Hd1 & HR).
    { destruct (decide (write_ref w = (c, id))) as [Heq|Hne].
      - destruct w as [r data|r x]; cbn in Heq, Hw; subst; [|done].
        apply apply_write_update in H1 as (d0 & Hd0 & ->).
        rewrite coll_set_coll, lookup_insert_eq. simplify_eq. eauto.
      - rewrite (apply_write_lookup_ne _ _ _ _ _ Hne H1). eauto. }
    destruct (IH _ _ _ Hws H2 Hd1) as (d' & Hd' & HR').
    exists d'. split; [done | by etrans].
Qed.

(** ** Updates of documents *)

Lemma update_path_lookup_ne k path fv (d : Doc) :
  head path <> Some k -> update_path path fv d !! k = d !! k.
Proof.
  destruct path as [|k0 [|k1 rest]]; cbn [update_path head]; intros Hne;
    [done | |]; rewrite lookup_insert_ne; congruence.
Qed.

Lemma apply_update_lookup_ne k data : forall d : Doc,
  Forall (fun pf => head pf.1 <> Some k) data ->
  apply_update data d !! k = d !! k.
Proof.
  unfold apply_update.
  induction data as [|pf data IH]; intros d Hall; [done|].
  inversion Hall; subst. cbn [fold_left].
  rewrite IH by done. by apply update_path_lookup_ne.
Qed.

Lemma apply_update_cons pf data (d : Doc) :
  apply_update (pf :: data) d = apply_update data (update_path pf.1 pf.2 d).
Proof. done. Qed.

Lemma apply_update_nil (d : Doc) : apply_update [] d = d.
Proof. done. Qed.

Lemma update_path_field k fv (d : Doc) :
  update_path [k] fv d = <[k := apply_field fv (d !! k)]> d.
Proof. done. Qed.

Lemma update_path_nested k1 k2 fv (d : Doc) :
  update_path [k1; k2] fv d
  = <[k1 := VMap (<[k2 := apply_field fv (sub_doc (d !! k1) !! k2)]>
                    (sub_doc (d !! k1)))]> d.
Proof. done. Qed.

(** ** Queries and batches *)

Lemma List_filter_sublist {A} (f : A -> bool) (l : list A) : List.filter f l `sublist_of` l.
Proof.
  induction l as [|x l IH]; cbn; [constructor|].
  destruct (f x); by constructor.
Qed.

Lemma run_query_submseteq q db :
  run_query q db ⊆+ List.filter (selects q) (map_to_list (coll (q_coll q) db)).
Proof.
  unfold run_query.
  destruct (q_limit q) as [n|].
  - etrans; [apply submseteq_take|]. apply Permutation_submseteq, merge_sort_Permutation.
  - apply Permutation_submseteq, merge_sort_Permutation.
Qed.

Lemma run_query_elem q db x :
  x ∈ run_query q db ->
  coll (q_coll q) db !! x.1 = Some x.2 /\ selects q x = true.
Proof.
  intros Hx. eapply elem_of_submseteq in Hx; [|apply run_query_submseteq].
  apply list_elem_of_In, filter_In in Hx as [Hin Hsel].
  split; [|done]. apply list_elem_of_In in Hin. destruct x. by apply elem_of_map_to_list.
Qed.

Lemma run_query_NoDup q db : NoDup (run_query q db).*1.
Proof.
  destruct (proj1 (submseteq_sublist_l _ _) (run_query_submseteq q db)) as (l2 & Hsub & Hperm).
  eapply sublist_NoDup; [|apply fmap_sublist, Hsub].
  rewrite Hperm.
  eapply sublist_NoDup; [|apply fmap_sublist, List_filter_sublist].
  apply NoDup_fst_map_to_list.
Qed.

Lemma run_query_length_limit q db n :
  q_limit q = Some n ->
  length (run_query q db)
  = min n (length (List.filter (selects q) (map_to_list (coll (q_coll q) db)))).
Proof.
  unfold run_query. intros ->. rewrite length_take.
  by rewrite (Permutation_length (merge_sort_Permutation _ _)).
Qed.

Lemma run_query_all q db x :
  (length (List.filter (selects q) (map_to_list (coll (q_coll q) db)))
     <= default (length (map_to_list (coll (q_coll q) db))) (q_limit q))%nat ->
  coll (q_coll q) db !! x.1 = Some x.2 -> selects q x = true ->
  x ∈ run_query q db.
Proof.
  intros Hlen Hx Hsel. unfold run_query.
  assert (x ∈ merge_sort (doc_le (q_order q))
            (List.filter (selects q) (map_to_list (coll (q_coll q) db)))) as Hin.
  { rewrite merge_sort_Permutation. apply list_elem_of_In, filter_In.
    split; [|done]. apply list_elem_of_In. destruct x. by apply elem_of_map_to_list. }
  destruct (q_limit q) as [n|]; [|done].
  rewrite take_ge; [done|].
  by rewrite (Permutation_length (merge_sort_Permutation _ _)).
Qed.

Lemma commit_updates c data ids :
  NoDup ids -> forall db,
  (forall id, id ∈ ids -> is_Some (coll c db !! id)) ->
  exists db', commit (map (fun id => WUpdate (c, id) data) ids) db = Some db' /\
    (forall c', c' <> c -> coll c' db' = coll c' db) /\
    forall id, coll c db' !! id
               = if decide (id ∈ ids) then apply_update data <$> coll c db !! id
                 else coll c db !! id.
Proof.
  induction 1 as [|i ids Hni Hnd IH]; intros db Hall.
  - exists db. split; [done|]. split; [done|]. intros id. rewrite decide_False; [done|]. apply not_elem_of_nil.
  - destruct (Hall i) as [d Hd]; [left|].
    set (db1 := set_coll c (<[i := apply_update data d]> (coll c db)) db).
    destruct (IH db1) as (db' & Hc & Hother & Hlook).
    { intros id Hid. unfold db1. rewrite coll_set_coll.
      destruct (decide (i = id)) as [->|Hne]; [by rewrite lookup_insert_eq|].
      rewrite lookup_insert_ne by done. apply Hall. by right. }
    exists db'. split; [|split].
    + cbn [map]. erewrite commit_cons; [exact Hc|].
      cbn [apply_write fst snd]. by rewrite Hd.
    + intros c' Hc'. rewrite Hother by done. unfold db1. by rewrite coll_set_coll_ne.
    + intros id. rewrite Hlook. unfold db1. rewrite coll_set_coll.
      destruct (decide (id = i)) as [->|Hne].
      * rewrite decide_False by done. rewrite decide_True by constructor.
        by rewrite lookup_insert_eq, Hd.
      * rewrite lookup_insert_ne by done.
        destruct (decide (id ∈ ids)); [rewrite decide_True by (by right)|rewrite decide_False]; try done.
        rewrite elem_of_cons. intros [?|?]; done.
Qed.

(** ** The shape of the transactions *)

Lemma to_doc_status env u t a m e d :
  to_doc env (new_tokenData env u t a m e) = inr d -> status_of d = Some (VStr "pending").
Proof.
  unfold new_tokenData. cbv [to_doc exc_bind]. 
  intros H. repeat case_match; simplify_eq; reflexivity.
Qed.

Lemma doc_nonempty c id : id <> "" -> doc c (Some id) = inr (c, id).
Proof. intros Hid. unfold doc. by destruct (String.eqb_spec id ""). Qed.

Lemma type_of_string_name s t : type_of_string s = Some t -> s = type_name t.
Proof.
  unfold type_of_string. intros H. apply find_some in H as [_ H].
  apply String.eqb_eq in H. done.
Qed.

Lemma approveToken_callback_shape scope env tokenRef adminUserId notes d ws :
  approveToken_callback scope env tokenRef adminUserId notes d = inr ws ->
  exists rest, ws = WUpdate tokenRef (approve_data env adminUserId notes) :: rest /\
    Forall (keeps "referralStats") rest.
Proof.
  unfold approveToken_callback, increment, doc. cbv [exc_bind].
  intros H. cases.
  all: eexists; split; [reflexivity|].
  all: repeat constructor.
  all: intros d0; apply apply_update_lookup_ne.
  all: try match goal with H : type_of_string _ = Some _ |- _ => apply type_of_string_name in H; rewrite H end.
  all: other_fields.
Qed.

(** ** Every operation is a commit of its writes, or changes nothing *)

Lemma run_step scope env op db :
  (run_in scope env op db).1 = db \/
  exists ws, step scope env db op ws /\
             commit ws db = Some (run_in scope env op db).1.
Proof.
  destruct op; cbn [run_in].
  - unfold createUnifiedTokenAction. run_calls. cases; auto.
    all: right; eexists; split; [eapply step_create; eauto using to_doc_status|reflexivity].
  - unfold updateUnifiedTokenAction. run_calls. cases; auto.
    all: right; eexists; split; [eapply step_update|by rewrite commit_single].
  - unfold getUnifiedTokenAction. run_calls. cases; auto.
  - unfold getUserUnifiedTokensAction. run_calls. cases; auto.
  - unfold approveTokenAction_in. run_calls. cases; auto.
    all: right; eexists; split; [eapply step_approve; eauto|]; eauto.
    all: try (unfold pending_doc; by destruct (status_is Pending _)).
  - unfold rejectTokenAction. run_calls. cases; auto.
    all: right; eexists; split; [eapply step_reject|by rewrite commit_single].
  - unfold cleanupExpiredTokensAction. run_calls. cases; auto.
    all: right; eexists; split; [eapply step_cleanup|congruence].
  - unfold getTokenStatisticsAction. run_calls. cases; auto.
  - unfold migrateTransactionToTokenAction. run_calls. cases; auto.
    all: right.
    all: first
      [ eexists; split;
        [eapply (step_migrate _ _ _ _ _ _ []); by left | reflexivity]
      | eexists; split;
        [eapply step_migrate; right; reflexivity
        | erewrite commit_cons by reflexivity; rewrite commit_single; cbn [fst snd set_coll coll]; eassumption] ].
  - unfold processDepositReferralAction. run_calls. cases; auto.
    all: right; eexists; split; [eapply step_deposit; eauto|]; eauto.
    all: by destruct (truthy (VStr <$> referralCode)).
  - unfold getUserReferralStatsAction. run_calls. cases; auto.
  - unfold getUserReferralCommissionTokensAction. run_calls. cases; auto.
  - unfold approveReferralCommissionAction. run_calls. cases; auto.
    all: right; eexists; split; [eapply step_approve_referral; eauto|]; eauto.
    all: try (unfold pending_doc; by destruct (status_is Pending _)).
  - unfold getUserReferralChainAction. run_calls. cases; auto.
  - unfold getPendingReferralCommissionsAction. run_calls. cases; auto.
  - unfold analyzeReferralPerformanceAction. run_calls. cases; auto.
Qed.

(** ** Frames of a commit *)

Lemma commit_respects_opt c id (R : relation Doc) `{!Reflexive R, !Transitive R} ws :
  forall db db',
    Forall (write_respects c id R) ws ->
    commit ws db = Some db' ->
    option_Forall2 R (coll c db !! id) (coll c db' !! id).
Proof.
  intros db db' Hall H.
  destruct (coll c db !! id) as [d|] eqn:Hd.
  - destruct (commit_respects c id R ws db db' d Hall H Hd) as (d' & -> & HR).
    by constructor.
  - revert db db' Hall H Hd.
    induction ws as [|w ws IH]; intros db db' Hall H Hd.
    + cbn in H. simplify_eq. rewrite Hd. constructor.
    + apply commit_cons_inv in H as (db1 & H1 & H2).
      inversion Hall as [|? ? Hw Hws]; subst.
      apply (IH db1); [done..|].
      destruct (decide (write_ref w = (c, id))) as [Heq|Hne].
      * destruct w as [r data|r x]; cbn in Heq, Hw; subst; [|done].
        apply apply_write_update in H1 as (d0 & Hd0 & _). congruence.
      * by rewrite (apply_write_lookup_ne _ _ _ _ _ Hne H1).
Qed.

Lemma other_refs_respect c id (R : relation Doc) ws :
  Forall (fun w => write_ref w <> (c, id)) ws -> Forall (write_respects c id R) ws.
Proof.
  intros H. eapply Forall_impl; [exact H|].
  intros [r data|r x]; cbn; [|done]. intros Hne Heq. done.
Qed.

Lemma apply_write_update_lookup c id data db db' id' :
  apply_write (WUpdate (c, id) data) db = Some db' ->
  coll c db' !! id'
  = if decide (id' = id) then apply_update data <$> coll c db !! id'
    else coll c db !! id'.
Proof.
  intros H. apply apply_write_update in H as (d & Hd & ->).
  rewrite coll_set_coll. case_decide as Heq.
  - subst. by rewrite lookup_insert_eq, Hd.
  - by rewrite lookup_insert_ne.
Qed.

Lemma commit_approve tokenId data rest db db' d :
  unifiedTokens db !! tokenId = Some d ->
  commit (WUpdate (UnifiedTokens, tokenId) data :: rest) db = Some db' ->
  Forall (fun w => (write_ref w).1 <> UnifiedTokens) rest ->
  unifiedTokens db' = <[tokenId := apply_update data d]> (unifiedTokens db).
Proof.
  intros Hd H Hrest. apply commit_cons_inv in H as (db1 & H1 & H2).
  apply apply_write_update in H1 as (d0 & Hd0 & ->).
  change (unifiedTokens db') with (coll UnifiedTokens db').
  rewrite (commit_coll_ne _ _ _ _ Hrest H2), coll_set_coll.
  cbn [coll] in *. congruence.
Qed.

Lemma keeps_not_tokens k rest :
  Forall (keeps k) rest -> Forall (fun w => (write_ref w).1 <> UnifiedTokens) rest.
Proof.
  intros H. eapply Forall_impl; [exact H|].
  intros [r data|r x]; cbn; [|done]. intros [-> _]. done.
Qed.

Lemma commit_token_and_user tokenId D owner D2 db d u :
  unifiedTokens db !! tokenId = Some d -> users db !! owner = Some u ->
  exists db',
    commit [WUpdate (UnifiedTokens, tokenId) D; WUpdate (Users, owner) D2] db
      = Some db' /\
    users db' = <[owner := apply_update D2 u]> (users db) /\
    unifiedTokens db' = <[tokenId := apply_update D d]> (unifiedTokens db).
Proof.
  intros Hd Hu.
  exists (mkDb (<[owner := apply_update D2 u]> (users db))
               (<[tokenId := apply_update D d]> (unifiedTokens db))
               (transactions db)).
  split; [|split; reflexivity].
  cbn [commit apply_write fst snd coll set_coll users unifiedTokens transactions].
  rewrite Hd.
  cbn [commit apply_write fst snd coll set_coll users unifiedTokens transactions].
  by rewrite Hu.
Qed.

Lemma commit_token_and_user_inv tokenId D owner D2 db db' :
  commit [WUpdate (UnifiedTokens, tokenId) D; WUpdate (Users, owner) D2] db
    = Some db' ->
  exists d u,
    unifiedTokens db !! tokenId = Some d /\ users db !! owner = Some u /\
    users db' = <[owner := apply_update D2 u]> (users db) /\
    unifiedTokens db' = <[tokenId := apply_update D d]> (unifiedTokens db).
Proof.
  intros H. apply commit_cons_inv in H as (db1 & H1 & H2).
  rewrite commit_single in H2.
  apply apply_write_update in H1 as (d & Hd & ->).
  apply apply_write_update in H2 as (u & Hu & ->).
  exists d, u. done.
Qed.

Lemma commit_two_users x tokenId u1 D1 u2 D2 db d1 d2 :
  users db !! u1 = Some d1 -> users db !! u2 = Some d2 ->
  exists db',
    commit [WSet (UnifiedTokens, tokenId) x; WUpdate (Users, u1) D1;
            WUpdate (Users, u2) D2] db = Some db' /\
    unifiedTokens db' = <[tokenId := x]> (unifiedTokens db) /\
    users db' !! u1
    = Some (if decide (u1 = u2) then apply_update D2 (apply_update D1 d1)
            else apply_update D1 d1).
Proof.
  intros H1 H2.
  assert (exists d, <[u1 := apply_update D1 d1]> (users db) !! u2 = Some d /\
                    (u1 = u2 -> d = apply_update D1 d1)) as (d & Hd & Heq).
  { destruct (decide (u1 = u2)) as [->|Hne].
    - rewrite lookup_insert_eq. eauto.
    - rewrite lookup_insert_ne by done. eexists. split; [exact H2|done]. }
  exists (mkDb (<[u2 := apply_update D2 d]> (<[u1 := apply_update D1 d1]> (users db)))
               (<[tokenId := x]> (unifiedTokens db)) (transactions db)).
  split; [|split].
  - cbn [commit apply_write fst snd coll set_coll users unifiedTokens transactions].
    rewrite H1.
    cbn [commit apply_write fst snd coll set_coll users unifiedTokens transactions].
    rewrite Hd. reflexivity.
  - reflexivity.
  - cbn [users]. case_decide as Hu.
    + subst. by rewrite lookup_insert_eq, Heq.
    + by rewrite lookup_insert_ne, lookup_insert_eq.
Qed.

Lemma fresh_token_ne db id d :
  unifiedTokens db !! id = Some d -> fresh (dom (unifiedTokens db)) <> id.
Proof.
  intros Hd Heq. apply (is_fresh (dom (unifiedTokens db))).
  rewrite Heq. apply elem_of_dom. eauto.
Qed.

(** ** More on the shape of the transactions *)

Lemma approveReferralCommission_callback_shape scope env tokenRef adminUserId d ws :
  approveReferralCommission_callback scope env tokenRef adminUserId d = inr ws ->
  exists uid a,
    (str_field "userId" d = Some uid /\ a = js_number (d !! "amount")) /\
    ws = [WUpdate tokenRef (approve_commission_data env adminUserId);
          WUpdate (Users, uid)
            [(["balance"], Increment a);
             (["referralStats"; "approvedCommissions"], Increment a);
             (["referralStats"; "pendingCommissions"], Increment (- a)%float)]].
Proof.
  unfold approveReferralCommission_callback, increment, doc. cbv [exc_bind].
  intros H. cases. eauto.
Qed.

Lemma processDepositReferral_callback_shape scope env tokenId userId amount referrerId ws :
  processDepositReferral_callback scope env tokenId userId amount referrerId = inr ws ->
  ws = [WSet (UnifiedTokens, tokenId) (commission_tokenData env userId amount referrerId);
        WUpdate (Users, referrerId)
          [(["referralStats"; "totalCommissions"],
            Increment (amount * commissionRate)%float);
           (["referralStats"; "pendingCommissions"],
            Increment (amount * commissionRate)%float);
           (["referralStats"; "totalReferrals"], Increment 1%float);
           (["referralStats"; "lastReferralDate"], Lit (VTime (now env)))];
        WUpdate (Users, userId) (referred_data env referrerId)].
Proof.
  unfold processDepositReferral_callback, increment, doc. cbv [exc_bind].
  intros H. cases. done.
Qed.

Lemma processDepositReferral_callback_ok env tokenId userId amount referrerId :
  referrerId <> "" -> userId <> "" ->
  processDepositReferral_callback referralActions_imports env tokenId userId
    amount referrerId
  = inr [WSet (UnifiedTokens, tokenId)
           (commission_tokenData env userId amount referrerId);
         WUpdate (Users, referrerId)
           (referrer_data env (amount * commissionRate)%float);
         WUpdate (Users, userId) (referred_data env referrerId)].
Proof.
  intros Hr Hu. apply String.eqb_neq in Hr, Hu.
  unfold processDepositReferral_callback, increment, doc.
  change (in_scope referralActions_imports "increment") with true.
  cbv beta iota zeta delta [exc_bind]. by rewrite Hr, Hu.
Qed.

Lemma approveToken_callback_owner scope env tokenRef adminUserId notes d ws :
  approveToken_callback scope env tokenRef adminUserId notes d = inr ws ->
  exists owner,
    str_field "userId" d = Some owner /\
    Forall (fun w => write_ref w = tokenRef \/ write_ref w = (Users, owner)) ws.
Proof.
  unfold approveToken_callback, increment, doc. cbv [exc_bind].
  intros H. cases; eexists; (split; [reflexivity|]).
  all: repeat (apply Forall_cons_2; [cbn; auto|]); apply Forall_nil_2.
Qed.

Lemma approveReferralCommission_callback_owner scope env tokenRef adminUserId d ws :
  approveReferralCommission_callback scope env tokenRef adminUserId d = inr ws ->
  exists owner,
    str_field "userId" d = Some owner /\
    Forall (fun w => write_ref w = tokenRef \/ write_ref w = (Users, owner)) ws.
Proof.
  unfold approveReferralCommission_callback, increment, doc. cbv [exc_bind].
  intros H. cases; eexists; (split; [reflexivity|]).
  all: repeat (apply Forall_cons_2; [cbn; auto|]); apply Forall_nil_2.
Qed.

Lemma commission_data_balance a (u : Doc) :
  balance_of (apply_update (commission_data a) u) = incremented "balance" a u.
Proof.
  unfold balance_of, commission_data, incremented.
  rewrite !apply_update_cons, apply_update_nil. cbn [fst snd].
  rewrite !update_path_nested, update_path_field.
  rewrite !lookup_insert_ne by discriminate. by rewrite lookup_insert_eq.
Qed.

Lemma type_of_string_type_name type : type_of_string (type_name type) = Some type.
Proof. by destruct type. Qed.

Lemma approve_data_status env a n (d : Doc) :
  status_of (apply_update (approve_data env a n) d) = Some (VStr "approved").
Proof.
  unfold approve_data, status_of. rewrite apply_update_cons, apply_update_lookup_ne.
  - cbn [fst snd]. rewrite update_path_field. apply lookup_insert_eq.
  - other_fields.
Qed.

Lemma approve_commission_data_status env a (d : Doc) :
  status_of (apply_update (approve_commission_data env a) d) = Some (VStr "approved").
Proof.
  unfold approve_commission_data, status_of.
  rewrite apply_update_cons, apply_update_lookup_ne.
  - cbn [fst snd]. rewrite update_path_field. apply lookup_insert_eq.
  - other_fields.
Qed.

Lemma reject_data_status env a r (d : Doc) :
  status_of (apply_update (reject_data env a r) d) = Some (VStr "rejected").
Proof.
  unfold reject_data, status_of.
  rewrite apply_update_cons, apply_update_lookup_ne.
  - cbn [fst snd]. rewrite update_path_field. apply lookup_insert_eq.
  - other_fields.
Qed.

Lemma expire_data_status env (d : Doc) :
  status_of (apply_update (expire_data env) d) = Some (VStr "expired").
Proof.
  unfold expire_data, status_of.
  rewrite apply_update_cons, apply_update_lookup_ne.
  - cbn [fst snd]. rewrite update_path_field. apply lookup_insert_eq.
  - other_fields.
Qed.

(** ** Balances *)

#[local] Instance same_balance_refl : Reflexive same_balance.
Proof. by intros d. Qed.

#[local] Instance same_balance_trans : Transitive same_balance.
Proof. unfold same_balance. intros d1 d2 d3 H1 H2. congruence. Qed.

Lemma step_balance scope env db op ws db' uid :
  step scope env db op ws -> commit ws db = Some db' ->
  balance_at db' uid = balance_at db uid \/ approved_for op db db' uid.
Proof.
  intros Hstep Hc.
  assert (Forall (write_respects Users uid same_balance) ws ->
          balance_at db' uid = balance_at db uid) as Hrel.
  { intros HF. unfold balance_at.
    pose proof (commit_respects_opt Users uid same_balance _ _ _ HF Hc) as Hopt.
    cbn [coll] in Hopt. destruct Hopt; cbn; done. }
  assert (Forall (fun w => (write_ref w).1 <> Users) ws ->
          balance_at db' uid = balance_at db uid) as Hframe.
  { intros Hall. apply Hrel, other_refs_respect.
    eapply Forall_impl; [exact Hall|]. intros w Hw Heq. apply Hw. by rewrite Heq. }
  assert (forall tokenRef owner,
            tokenRef.1 = UnifiedTokens -> uid <> owner ->
            Forall (fun w => write_ref w = tokenRef \/ write_ref w = (Users, owner)) ws ->
            balance_at db' uid = balance_at db uid) as Hother.
  { intros tokenRef owner Ht Hne Hall. apply Hrel, other_refs_respect.
    eapply Forall_impl; [exact Hall|].
    intros w [Hw|Hw] Heq; rewrite Hw in Heq; [|congruence].
    rewrite Heq in Ht. discriminate. }
  destruct Hstep.
  - left. apply Hframe. by repeat constructor.
  - left. apply Hframe. by repeat constructor.
  - destruct (approveToken_callback_owner _ _ _ _ _ _ _ H1) as (owner & Ho & Hall).
    destruct (decide (uid = owner)) as [->|Hne];
      [right|left; by apply (Hother (UnifiedTokens, tokenId) owner)].
    destruct (approveToken_callback_shape _ _ _ _ _ _ _ H1) as (rest & -> & Hrest).
    exists d, (apply_update (approve_data env adminUserId notes) d).
    split; [done|]. split; [done|]. split; [done|].
    split; [|apply approve_data_status].
    rewrite (commit_approve _ _ _ _ _ _ H Hc (keeps_not_tokens _ _ Hrest)).
    apply lookup_insert_eq.
  - left. apply Hframe. by repeat constructor.
  - left. apply Hframe. apply Forall_fmap, Forall_forall. by intros x _.
  - left. apply Hframe. destruct H as [->| ->]; by repeat constructor.
  - left. apply processDepositReferral_callback_shape in H1 as ->.
    apply Hrel.
    repeat (apply Forall_cons_2; [|]); [| | |apply Forall_nil_2].
    + cbn. discriminate.
    + intros _ x. apply apply_update_lookup_ne.
      other_fields.
    + intros _ x. apply apply_update_lookup_ne.
      other_fields.
  - destruct (approveReferralCommission_callback_owner _ _ _ _ _ _ H1)
      as (owner & Ho & Hall).
    destruct (decide (uid = owner)) as [->|Hne];
      [right|left; by apply (Hother (UnifiedTokens, tokenId) owner)].
    destruct (approveReferralCommission_callback_shape _ _ _ _ _ _ H1)
      as (uid & a & Ha & ->).
    exists d, (apply_update (approve_commission_data env adminUserId) d).
    split; [done|]. split; [done|]. split; [done|].
    split; [|apply approve_commission_data_status].
    rewrite (commit_approve _ _ _ _ _ _ H Hc ltac:(by repeat constructor)).
    apply lookup_insert_eq.
Qed.

(** C2. Whenever an operation leaves the [balance] field of a user different
    from what it was, the operation is [approveTokenAction] or
    [approveReferralCommissionAction] on a token of that user, and the same
    commit moved that token from pending to approved. No other operation, and
    in particular not [processDepositReferralAction], changes a balance. *)
Theorem balance_changes_only_on_approval env op db uid :
  balance_at (run env op db).1 uid <> balance_at db uid ->
  approved_for op db (run env op db).1 uid.
Proof.
  intros Hne. unfold run in *.
  destruct (run_step unifiedTokenActions_imports env op db) as [Heq|(ws & Hstep & Hc)].
  - by rewrite Heq in Hne.
  - by destruct (step_balance _ _ _ _ _ _ uid Hstep Hc) as [Hb|H].
Qed.

Lemma balance_changes_only_on_approval_witness :
  approved_for (ApproveReferralCommission "t1" "admin") example_db
    (run (reliable 100 false) (ApproveReferralCommission "t1" "admin") example_db).1
    "alice".
Proof.
  apply (balance_changes_only_on_approval (reliable 100 false)
           (ApproveReferralCommission "t1" "admin") example_db "alice").
  vm_compute. discriminate.
Defined.

(** ** Token status *)

Lemma status_step_refl env op id d : status_step env op id d d.
Proof. destruct op; cbn; auto. Qed.

Lemma selects_expired env x :
  selects (expiredQuery env) x = true ->
  pending_doc x.2 /\ exists t, time_field "expiresAt" x.2 = Some t /\ t <= now env.
Proof.
  unfold selects, expiredQuery, pending_doc, status_is, matches, str_field.
  cbn [q_where q_order forallb has_order_field status_name].
  intros H. repeat (apply andb_prop in H as [H ?]).
  cases; try done. rewrite andb_true_r in *.
  split; [done|]. eexists; split; [done|]. lia.
Qed.

Lemma expire_writes env docs :
  map (expire_write env) docs
  = map (fun id => WUpdate (UnifiedTokens, id) (expire_data env)) docs.*1.
Proof. unfold expire_write. by rewrite <- list_fmap_compose. Qed.

Lemma step_status scope env db op ws db' id d :
  step scope env db op ws -> commit ws db = Some db' ->
  unifiedTokens db !! id = Some d ->
  exists d', unifiedTokens db' !! id = Some d' /\ status_step env op id d d'.
Proof.
  intros Hstep Hc Hd.
  pose proof (fresh_token_ne _ _ _ Hd) as Hfresh.
  assert (Forall (write_respects UnifiedTokens id eq) ws ->
          exists d', unifiedTokens db' !! id = Some d' /\ d' = d) as Hframe.
  { intros HF.
    destruct (commit_respects UnifiedTokens id eq _ db db' d HF Hc Hd) as (d' & ? & ?).
    eauto. }
  assert (forall tid data rest d0,
    ws = WUpdate (UnifiedTokens, tid) data :: rest ->
    Forall (fun w => (write_ref w).1 <> UnifiedTokens) rest ->
    unifiedTokens db !! tid = Some d0 ->
    exists d', unifiedTokens db' !! id = Some d' /\
      (d' = d \/ (id = tid /\ d0 = d /\ d' = apply_update data d))) as Hupd.
  { intros tid data rest d0 -> Hrest Hd0.
    rewrite (commit_approve _ _ _ _ _ _ Hd0 Hc Hrest).
    destruct (decide (id = tid)) as [->|Hne].
    - rewrite lookup_insert_eq. simplify_eq. eauto 10.
    - rewrite lookup_insert_ne by done. eauto. }
  destruct Hstep.
  - destruct Hframe as (d' & Hd' & ->).
    { apply Forall_cons_2; [cbn|apply Forall_nil_2]. congruence. }
    exists d. split; [done|reflexivity].
  - destruct (apply_write_update _ _ _ _ _ (eq_trans (eq_sym (commit_single _ _)) Hc))
      as (d0 & Hd0 & _).
    destruct (Hupd _ _ _ _ eq_refl (Forall_nil_2 _) Hd0)
      as (d' & Hd' & Hcase); exists d'; (split; [done|]); cbn;
      destruct Hcase as [->|(-> & -> & ->)]; auto.
  - destruct (approveToken_callback_shape _ _ _ _ _ _ _ H1) as (rest & -> & Hrest).
    destruct (Hupd _ _ _ _ eq_refl (keeps_not_tokens _ _ Hrest) H)
      as (d' & Hd' & Hcase); exists d'; (split; [done|]);
      destruct Hcase as [->|(-> & -> & ->)].
    + by left.
    + right. split; [done|]. split; [done|]. apply approve_data_status.
  - destruct (apply_write_update _ _ _ _ _ (eq_trans (eq_sym (commit_single _ _)) Hc))
      as (d0 & Hd0 & _).
    destruct (Hupd _ _ _ _ eq_refl (Forall_nil_2 _) Hd0)
      as (d' & Hd' & Hcase); exists d'; (split; [done|]); cbn;
      destruct Hcase as [->|(-> & -> & ->)].
    + by left.
    + right. split; [done|]. intros _. apply reject_data_status.
  - rewrite expire_writes in Hc.
    destruct (commit_updates UnifiedTokens (expire_data env)
                (run_query (expiredQuery env) db).*1 (run_query_NoDup _ _) db)
      as (db'' & Hc' & _ & Hlook).
    { intros i Hi. apply list_elem_of_fmap in Hi as (x & -> & Hx).
      apply run_query_elem in Hx as [Hx _]. cbn in Hx. eauto. }
    rewrite Hc' in Hc. simplify_eq. cbn [coll] in Hlook.
    rewrite Hlook, Hd. case_decide as Hin; cbn; eexists; (split; [done|]).
    + right. apply list_elem_of_fmap in Hin as (x & -> & Hx).
      pose proof (run_query_elem _ _ _ Hx) as [Hx1 Hx2]. cbn in Hx1.
      apply selects_expired in Hx2 as [Hp _].
      split; [congruence|]. apply expire_data_status.
    + by left.
  - destruct Hframe as (d' & Hd' & ->).
    { apply Forall_cons_2; [cbn; congruence|].
      destruct H as [->| ->]; [apply Forall_nil_2|].
      apply Forall_cons_2; [intros [=]|apply Forall_nil_2]. }
    exists d. split; [done|reflexivity].
  - apply processDepositReferral_callback_shape in H1 as ->.
    destruct Hframe as (d' & Hd' & ->).
    { apply Forall_cons_2; [cbn; congruence|].
      apply Forall_cons_2; [intros [=]|].
      apply Forall_cons_2; [intros [=]|apply Forall_nil_2]. }
    exists d. split; [done|reflexivity].
  - destruct (approveReferralCommission_callback_shape _ _ _ _ _ _ H1)
      as (owner & a & Ha & ->).
    destruct (Hupd _ _ _ _ eq_refl ltac:(by repeat constructor) H)
      as (d' & Hd' & Hcase); exists d'; (split; [done|]);
      destruct Hcase as [->|(-> & -> & ->)].
    + by left.
    + right. split; [done|]. split; [done|]. apply approve_commission_data_status.
Qed.

Lemma create_starts_pending env u t a m e db id :
  (createUnifiedTokenAction env u t a m e db).2 = inr (Success (PTokenId id)) ->
  unifiedTokens db !! id = None /\
  exists d, unifiedTokens (createUnifiedTokenAction env u t a m e db).1 !! id = Some d /\
            status_of d = Some (VStr "pending").
Proof.
  unfold createUnifiedTokenAction. run_calls. intros H. cases.
  split.
  - apply not_elem_of_dom, is_fresh.
  - eexists. cbn [unifiedTokens]. rewrite lookup_insert_eq.
    split; [done|]. by eapply to_doc_status.
Qed.

(** C1, as amended. No operation removes a token, and each operation does
    to an existing token only what [status_step] allows it:
    [approveTokenAction] and [approveReferralCommissionAction] leave every
    token as it was, or approve the token they are given when it was
    pending; [cleanupExpiredTokensAction] leaves a token as it was or marks
    it expired when it was pending; [rejectTokenAction] leaves every token
    but the one it is given as it was, and a pending token that it is given
    as it was or rejected; [updateUnifiedTokenAction] leaves every token
    but the one it is given as it was, and writes the given fields, when
    they are plain field names, to the one it is given; the other eleven
    operations leave every token as it was. A token created by
    [createUnifiedTokenAction] is new and pending. *)
Theorem token_status_transitions :
  (forall env op db id d,
     unifiedTokens db !! id = Some d ->
     exists d', unifiedTokens (run env op db).1 !! id = Some d' /\
                status_step env op id d d') /\
  (forall env userId type amount metadata expiresInDays db id,
     (createUnifiedTokenAction env userId type amount metadata expiresInDays db).2
       = inr (Success (PTokenId id)) ->
     unifiedTokens db !! id = None /\
     exists d,
       unifiedTokens
         (createUnifiedTokenAction env userId type amount metadata expiresInDays db).1
         !! id = Some d /\
       status_of d = Some (VStr "pending")).
Proof.
  split.
  - intros env op db id d Hd. unfold run.
    destruct (run_step unifiedTokenActions_imports env op db)
      as [Heq|(ws & Hstep & Hc)].
    + rewrite Heq. exists d. split; [done|apply status_step_refl].
    + by eapply step_status.
  - intros. by apply create_starts_pending.
Qed.

Lemma token_status_transitions_witness :
  (exists d',
     unifiedTokens (run (reliable 100 false) CleanupExpiredTokens example_db).1 !! "t1"
       = Some d' /\
     status_step (reliable 100 false) CleanupExpiredTokens "t1"
       (example_token "deposit" "pending" "alice" 5 1 50) d') /\
  (unifiedTokens example_db !! "0" = None /\
   exists d,
     unifiedTokens
       (createUnifiedTokenAction (reliable 100 false) "bob" Bonus 7 None (Some 3%float)
          example_db).1 !! "0" = Some d /\
     status_of d = Some (VStr "pending")).
Proof.
  split.
  - apply (proj1 token_status_transitions). reflexivity.
  - apply (proj2 token_status_transitions). vm_compute. reflexivity.
Defined.

(** C1 as stated fails: [updateUnifiedTokenAction] moves an approved token
    back to pending. *)
Lemma status_can_leave_approved :
  status_of <$> unifiedTokens example_db !! "t3" = Some (Some (VStr "approved")) /\
  status_of <$>
    unifiedTokens
      (run (reliable 100 false)
         (UpdateUnifiedToken "t3" [("status", VStr "pending")]) example_db).1 !! "t3"
  = Some (Some (VStr "pending")).
Proof. split; vm_compute; reflexivity. Qed.

(** [rejectTokenAction] has no check of the status, unlike the approvals:
    it rejects a token that was approved. *)
Lemma rejectTokenAction_overrides_approved :
  status_of <$>
    unifiedTokens
      (run (reliable 100 false) (RejectToken "t3" "admin" "late") example_db).1 !! "t3"
  = Some (Some (VStr "rejected")).
Proof. vm_compute; reflexivity. Qed.

(** ** Referral commissions *)

Lemma List_filter_nil {A} (f : A -> bool) (l : list A) :
  (forall x, x ∈ l -> f x = false) -> List.filter f l = [].
Proof.
  induction l as [|x l IH]; intros H; [done|]. cbn.
  rewrite (H x) by left. apply IH. intros y Hy. apply H. by right.
Qed.

Lemma run_query_nil q db :
  (forall id d, coll (q_coll q) db !! id = Some d -> selects q (id, d) = false) ->
  run_query q db = [].
Proof.
  intros H. unfold run_query. rewrite List_filter_nil.
  - by destruct (q_limit q) as [[|n]|].
  - intros [id d] Hx. apply H. by apply elem_of_map_to_list.
Qed.

Lemma selects_referrer code x :
  selects (referrerQuery code) x = true <-> str_field "referralCode" x.2 = Some code.
Proof.
  unfold selects, referrerQuery, matches.
  cbn [q_where q_order forallb has_order_field].
  rewrite !andb_true_r. destruct (str_field "referralCode" x.2) as [s|]; [|done].
  rewrite String.eqb_eq. split; congruence.
Qed.

Lemma NoDup_fst_same {A B} (l : list (A * B)) (a : A) (x : A * B) :
  NoDup l.*1 -> (forall y, y ∈ l -> y.1 = a) -> x ∈ l -> l = [x].
Proof.
  intros Hnd Hall Hx. destruct l as [|y [|z l]].
  - by apply elem_of_nil in Hx.
  - apply list_elem_of_singleton in Hx. by subst.
  - exfalso. cbn in Hnd. apply NoDup_cons in Hnd as [Hni _].
    apply Hni. rewrite (Hall y), <- (Hall z); [left|by right; left|by left].
Qed.

Lemma run_query_unique code db referrerId referrerData :
  users db !! referrerId = Some referrerData ->
  (forall id d, users db !! id = Some d ->
     str_field "referralCode" d = Some code <-> id = referrerId) ->
  run_query (referrerQuery code) db = [(referrerId, referrerData)].
Proof.
  intros Hr Huniq. unfold run_query. cbn [referrerQuery q_coll q_limit q_order coll].
  rewrite (NoDup_fst_same
             (List.filter (selects (referrerQuery code)) (map_to_list (users db)))
             referrerId (referrerId, referrerData)).
  - reflexivity.
  - eapply sublist_NoDup; [|apply fmap_sublist, List_filter_sublist].
    apply NoDup_fst_map_to_list.
  - intros [id d] Hy. apply list_elem_of_In, filter_In in Hy as [Hin Hsel].
    apply list_elem_of_In, elem_of_map_to_list in Hin.
    apply selects_referrer in Hsel. by apply (Huniq id d Hin).
  - apply list_elem_of_In, filter_In. split.
    + apply list_elem_of_In. by apply elem_of_map_to_list.
    + apply selects_referrer. cbn. by apply (Huniq referrerId referrerData Hr).
Qed.

Lemma processDepositReferral_commits t ig userId depositAmount code db
    referrerId referrerData rest userData :
  code <> "" ->
  users db !! "" = None ->
  run_query (referrerQuery code) db = (referrerId, referrerData) :: rest ->
  users db !! referrerId = Some referrerData ->
  users db !! userId = Some userData ->
  exists db',
    processDepositReferralAction (reliable t ig) userId depositAmount (Some code) db
    = (db', inr (Success (PCommissionAmount (depositAmount * commissionRate)))) /\
    unifiedTokens db'
    = <[fresh (dom (unifiedTokens db)) :=
          commission_tokenData (reliable t ig) userId depositAmount referrerId]>
        (unifiedTokens db) /\
    exists referrerData',
      users db' !! referrerId = Some referrerData' /\
      stats_updated (referrer_data (reliable t ig) (depositAmount * commissionRate))
        referrerData referrerData'.
Proof.
  intros Hcode Hempty Hq Hr Hu.
  assert (referrerId <> "") as Hrid by (intros ->; congruence).
  assert (userId <> "") as Huid by (intros ->; congruence).
  apply String.eqb_neq in Hcode.
  destruct (commit_two_users
              (commission_tokenData (reliable t ig) userId depositAmount referrerId)
              (fresh (dom (unifiedTokens db))) referrerId
              (referrer_data (reliable t ig) (depositAmount * commissionRate))
              userId (referred_data (reliable t ig) referrerId) db _ _ Hr Hu)
    as (db' & Hc & Htok & Hrefd).
  exists db'. split; [|split; [done|]].
  - unfold processDepositReferralAction. run_calls.
    cbn [fmap option_fmap option_map truthy reliable fails default negb].
    rewrite Hcode. cbn [negb]. unfold id. rewrite Hq.
    cbn [coll]. rewrite processDepositReferral_callback_ok by done.
    by rewrite Hc.
  - eexists. split; [exact Hrefd|]. unfold stats_updated.
    case_decide; [|done]. apply apply_update_lookup_ne. other_fields.
Qed.

(** C3, as amended. On a database that accepts the calls, for every deposit
    amount and every non-empty referral code that matches exactly one user,
    when the depositing user has a document,
    [processDepositReferralAction] adds one new token: pending, of type
    [referral_commission], owned by the referrer, whose amount is the deposit
    times 0.05; and it returns success with that amount. *)
#[warnings="-inexact-float"] Theorem processDepositReferral_creates_commission t ig userId depositAmount code db
    referrerId referrerData userData :
  code <> "" ->
  users db !! "" = None ->
  users db !! referrerId = Some referrerData ->
  (forall id d, users db !! id = Some d ->
     str_field "referralCode" d = Some code <-> id = referrerId) ->
  users db !! userId = Some userData ->
  let tokenId := fresh (dom (unifiedTokens db)) in
  let commissionAmount := (depositAmount * 0.05)%float in
  exists db' token,
    processDepositReferralAction (reliable t ig) userId depositAmount (Some code) db
    = (db', inr (Success (PCommissionAmount commissionAmount))) /\
    unifiedTokens db !! tokenId = None /\
    unifiedTokens db' = <[tokenId := token]> (unifiedTokens db) /\
    str_field "userId" token = Some referrerId /\
    str_field "type" token = Some "referral_commission" /\
    status_of token = Some (VStr "pending") /\
    num_field "amount" token = Some commissionAmount.
Proof.
  intros Hcode Hempty Hr Huniq Hu tokenId commissionAmount.
  pose proof (run_query_unique _ _ _ _ Hr Huniq) as Hq.
  destruct (processDepositReferral_commits t ig userId depositAmount code db
              _ _ _ _ Hcode Hempty Hq Hr Hu) as (db' & Hrun & Htok & _).
  exists db', (commission_tokenData (reliable t ig) userId depositAmount referrerId).
  split; [exact Hrun|]. split; [apply not_elem_of_dom, is_fresh|].
  split; [exact Htok|]. repeat split; reflexivity.
Qed.

#[warnings="-inexact-float"] Lemma processDepositReferral_creates_commission_witness :
  exists db' token,
    processDepositReferralAction (reliable 100 false) "bob" 200 (Some "ABC") example_db
    = (db', inr (Success (PCommissionAmount (200 * 0.05)%float))) /\
    unifiedTokens example_db !! fresh (dom (unifiedTokens example_db)) = None /\
    unifiedTokens db'
    = <[fresh (dom (unifiedTokens example_db)) := token]> (unifiedTokens example_db) /\
    str_field "userId" token = Some "alice" /\
    str_field "type" token = Some "referral_commission" /\
    status_of token = Some (VStr "pending") /\
    num_field "amount" token = Some (200 * 0.05)%float.
Proof.
  apply (processDepositReferral_creates_commission 100 false "bob" 200 "ABC"
           example_db "alice" (example_user 10 "ABC") (example_user 3 "XYZ")).
  - discriminate.
  - reflexivity.
  - reflexivity.
  - apply (bool_decide_unpack
             (map_Forall (fun id d => str_field "referralCode" d = Some "ABC"
                                      <-> id = "alice") (users example_db))).
    vm_compute. exact I.
  - reflexivity.
Defined.

(** C3 as stated fails: the code matches exactly one user, but the depositing
    user has no document, so the transaction is not committed. *)
Lemma processDepositReferral_needs_depositor :
  (List.filter (selects (referrerQuery "ABC")) (map_to_list (users example_db))).*1
    = ["alice"] /\
  processDepositReferralAction (reliable 100 false) "carol" 200 (Some "ABC") example_db
    = (example_db, inr (Failure "Referral işlemi başarısız")).
Proof. split; vm_compute; reflexivity. Qed.

(** C10. Without a referral code (none, or the empty string)
    [processDepositReferralAction] returns success and leaves the database as
    it is, whatever the environment: it makes no call. With a code that no
    user has, on a database that accepts the calls, it returns the failure
    ['Geçersiz referral kodu'] and leaves the database as it is. *)
Theorem processDepositReferral_without_referrer env t ig userId depositAmount code db :
  code <> "" ->
  (forall id d, users db !! id = Some d -> str_field "referralCode" d <> Some code) ->
  processDepositReferralAction env userId depositAmount None db
    = (db, inr (Success PUnit)) /\
  processDepositReferralAction env userId depositAmount (Some "") db
    = (db, inr (Success PUnit)) /\
  processDepositReferralAction (reliable t ig) userId depositAmount (Some code) db
    = (db, inr (Failure "Geçersiz referral kodu")).
Proof.
  intros Hcode Hnone. split; [done|]. split; [done|].
  apply String.eqb_neq in Hcode.
  unfold processDepositReferralAction. run_calls.
  cbn [fmap option_fmap option_map truthy reliable fails default negb].
  rewrite Hcode. cbn [negb]. unfold id. rewrite run_query_nil; [done|].
  intros id d Hd. apply not_true_is_false. intros Hsel.
  apply selects_referrer in Hsel. by apply (Hnone id d Hd).
Qed.

Lemma processDepositReferral_without_referrer_witness :
  processDepositReferralAction (mkEnv 100 (fun _ => true) false) "bob" 200 None example_db
    = (example_db, inr (Success PUnit)) /\
  processDepositReferralAction (mkEnv 100 (fun _ => true) false) "bob" 200 (Some "") example_db
    = (example_db, inr (Success PUnit)) /\
  processDepositReferralAction (reliable 100 false) "bob" 200 (Some "NOPE") example_db
    = (example_db, inr (Failure "Geçersiz referral kodu")).
Proof.
  apply (processDepositReferral_without_referrer
           (mkEnv 100 (fun _ => true) false) 100 false "bob" 200 "NOPE" example_db).
  - discriminate.
  - apply (bool_decide_unpack
             (map_Forall (fun id d => str_field "referralCode" d <> Some "NOPE")
                (users example_db))).
    vm_compute. exact I.
Defined.

(** ** Failures *)

Ltac unfold_actions :=
  unfold run, run_in, createUnifiedTokenAction, updateUnifiedTokenAction,
    getUnifiedTokenAction, getUserUnifiedTokensAction, approveTokenAction_in,
    rejectTokenAction, cleanupExpiredTokensAction, getTokenStatisticsAction,
    migrateTransactionToTokenAction, processDepositReferralAction,
    getUserReferralStatsAction, getUserReferralCommissionTokensAction,
    approveReferralCommissionAction, getUserReferralChainAction,
    getPendingReferralCommissionsAction, analyzeReferralPerformanceAction.

Lemma run_returns env op db :
  exists r, (run env op db).2 = inr r /\ well_shaped op r.
Proof.
  destruct op; cbn [well_shaped]; unfold_actions; run_calls; cases; eauto.
Qed.

(** Every operation is its [try] block with its [catch] block. *)
Lemma run_try_catch env op :
  run env op = try_catch (try_block env op) (fun _ => ret (caught op)).
Proof. by destruct op. Qed.

Lemma try_block_outage env op db c :
  first_call op = Some c -> fails env c = true ->
  exists e, try_block env op db = (db, inl e).
Proof.
  intros Hcall Hc.
  destruct op; cbn [try_block first_call] in *; run_calls; cases; eauto;
    congruence.
Qed.

(** C4, as amended. No operation throws to its caller. Every operation other
    than [getUserReferralStatsAction] returns [{success: true, ...}] or
    [{success: false, error}]; [getUserReferralStatsAction] returns a
    statistics object or [null]. Whenever the [try] block of an operation
    throws, whatever it has written until then stays written and the
    operation returns the value of its [catch] block: the failure with the
    message of the operation, or [null] for [getUserReferralStatsAction].
    When the [try] block returns a value, the operation returns it. The
    [try] block throws, before anything is written, when the database
    rejects the first call that the operation makes. *)
Theorem operations_catch_failures env op db :
  (exists r, (run env op db).2 = inr r /\ well_shaped op r) /\
  (forall db' e,
     try_block env op db = (db', inl e) ->
     run env op db = (db', inr (caught op))) /\
  (forall db' r,
     try_block env op db = (db', inr r) -> run env op db = (db', inr r)) /\
  (forall c,
     first_call op = Some c -> fails env c = true ->
     exists e, try_block env op db = (db, inl e)).
Proof.
  split; [apply run_returns|].
  split; [|split].
  - intros db' e H. rewrite run_try_catch. unfold try_catch. by rewrite H.
  - intros db' r H. rewrite run_try_catch. unfold try_catch. by rewrite H.
  - apply try_block_outage.
Qed.

Lemma operations_catch_failures_witness :
  (exists db',
     db' <> example_legacy_db /\
     run (no_updates 100) (MigrateTransactionToToken "tx1" "admin") example_legacy_db
     = (db', inr (Failure "Migration başarısız"))) /\
  run (mkEnv 100 (fun _ => true) false) (ApproveToken "t1" "admin" None) example_db
  = (example_db, inr (Failure "Token onaylanamadı")).
Proof.
  split.
  - eexists. split; [|apply (proj1 (proj2 (operations_catch_failures (no_updates 100)
                         (MigrateTransactionToToken "tx1" "admin") example_legacy_db))
                         _ (Rejected_call CUpdateDoc)); vm_compute; reflexivity].
    vm_compute. discriminate.
  - destruct (proj2 (proj2 (proj2 (operations_catch_failures
                (mkEnv 100 (fun _ => true) false) (ApproveToken "t1" "admin" None)
                example_db))) CGetDoc eq_refl eq_refl) as (e & He).
    apply (proj1 (proj2 (operations_catch_failures
                (mkEnv 100 (fun _ => true) false) (ApproveToken "t1" "admin" None)
                example_db)) _ e He).
Defined.

(** C4 as stated fails: on a failure [getUserReferralStatsAction] returns
    [null]. *)
Lemma getUserReferralStats_returns_null :
  run (mkEnv 100 (fun _ => true) false) (GetUserReferralStats "alice") example_db
  = (example_db, inr Null).
Proof. vm_compute. reflexivity. Qed.

(** ** Approval is refused for a processed token *)

Lemma processed_refused env tokenId adminUserId notes db :
  processed db tokenId -> refused env tokenId adminUserId notes db.
Proof.
  intros (d & Hd & Hs). split.
  - unfold approveTokenAction, approveTokenAction_in. run_calls.
    cases; eauto; cbn [coll] in *; simplify_eq;
      match goal with H : negb _ = false |- _ => by rewrite Hs in H end.
  - unfold approveReferralCommissionAction. run_calls.
    cases; eauto; cbn [coll] in *; simplify_eq;
      match goal with H : negb _ = false |- _ => by rewrite Hs in H end.
Qed.

Lemma approved_not_pending (d : Doc) :
  status_of d = Some (VStr "approved") -> status_is Pending d = false.
Proof. unfold status_of, status_is. by intros ->. Qed.

Lemma approveToken_success_processed scope env tokenId adminUserId notes db db' p :
  approveTokenAction_in scope env tokenId adminUserId notes db
    = (db', inr (Success p)) ->
  processed db' tokenId.
Proof.
  unfold approveTokenAction_in. run_calls. intros H. cases. cbn [coll] in *.
  match goal with H : approveToken_callback _ _ _ _ _ _ = inr _ |- _ =>
    destruct (approveToken_callback_shape _ _ _ _ _ _ _ H) as (rest & -> & Hrest) end.
  match goal with Hd : unifiedTokens _ !! _ = Some _, Hc : commit _ _ = Some _ |- _ =>
    pose proof (commit_approve _ _ _ _ _ _ Hd Hc (keeps_not_tokens _ _ Hrest)) as Ht end.
  eexists. rewrite Ht, lookup_insert_eq. split; [done|].
  apply approved_not_pending, approve_data_status.
Qed.

Lemma approveReferralCommission_success_processed env tokenId adminUserId db db' p :
  approveReferralCommissionAction env tokenId adminUserId db
    = (db', inr (Success p)) ->
  processed db' tokenId.
Proof.
  unfold approveReferralCommissionAction. run_calls. intros H. cases. cbn [coll] in *.
  match goal with H : approveReferralCommission_callback _ _ _ _ _ = inr _ |- _ =>
    destruct (approveReferralCommission_callback_shape _ _ _ _ _ _ H)
      as (owner & a & Ha & ->) end.
  match goal with Hd : unifiedTokens _ !! _ = Some _, Hc : commit _ _ = Some _ |- _ =>
    pose proof (commit_approve _ _ _ _ _ _ Hd Hc ltac:(by repeat constructor)) as Ht end.
  eexists. rewrite Ht, lookup_insert_eq. split; [done|].
  apply approved_not_pending, approve_commission_data_status.
Qed.

(** A raffle entry, or a token of no known type, is approved without a
    write to a user, whatever the module imports. *)
Lemma approveToken_raffle_users scope env tokenId adminUserId notes db db1 p d :
  unifiedTokens db !! tokenId = Some d ->
  switch_type d = Some RaffleEntry \/ switch_type d = None ->
  approveTokenAction_in scope env tokenId adminUserId notes db
    = (db1, inr (Success p)) ->
  users db1 = users db.
Proof.
  intros Hd Hty. unfold approveTokenAction_in. run_calls. intros H.
  destruct (String.eqb tokenId ""); [done|].
  destruct (fails env CGetDoc); [done|].
  cbn [coll] in H. rewrite Hd in H.
  destruct (negb (status_is Pending d)); [done|].
  destruct (fails env CRunTransaction); [done|].
  unfold approveToken_callback in H. fold (switch_type d) in H.
  destruct (doc Users (str_field "userId" d)) as [e|userRef]; [done|].
  cbv beta iota zeta delta [exc_bind] in H.
  destruct Hty as [Hty|Hty]; rewrite Hty in H;
    rewrite commit_single in H; unfold apply_write in H;
    cbn [fst snd coll] in H; rewrite Hd in H; by cases.
Qed.

(** What a successful [approveReferralCommissionAction] has done. *)
Lemma approveReferralCommission_success env tokenId adminUserId db db1 p :
  approveReferralCommissionAction env tokenId adminUserId db
    = (db1, inr (Success p)) ->
  exists d owner u,
    unifiedTokens db !! tokenId = Some d /\ pending_doc d /\
    str_field "userId" d = Some owner /\ users db !! owner = Some u /\
    users db1
    = <[owner := apply_update (commission_data (js_number (d !! "amount"))) u]>
        (users db) /\
    unifiedTokens db1
    = <[tokenId := apply_update (approve_commission_data env adminUserId) d]>
        (unifiedTokens db).
Proof.
  unfold approveReferralCommissionAction. run_calls. intros H. cases.
  cbn [coll] in *.
  match goal with H : approveReferralCommission_callback _ _ _ _ _ = inr _ |- _ =>
    destruct (approveReferralCommission_callback_shape _ _ _ _ _ _ H)
      as (owner & a & [Ho ->] & ->) end.
  match goal with Hc : commit _ _ = Some _ |- _ =>
    apply commit_token_and_user_inv in Hc as (d & u & Hd & Hu & Hus & Hts) end.
  simplify_eq. eexists _, owner, u.
  split; [done|]. split; [|done].
  unfold pending_doc. by destruct (status_is Pending _).
Qed.

(** When the database accepts the calls, [approveReferralCommissionAction] on
    a pending token whose owner exists succeeds, and the owner is the owner
    after the update of the action: [balance] and
    [referralStats.approvedCommissions] incremented by the amount,
    [referralStats.pendingCommissions] by its negation. *)
Lemma approveReferralCommission_run t ig tokenId adminUserId db d owner u :
  tokenId <> "" -> owner <> "" ->
  unifiedTokens db !! tokenId = Some d -> pending_doc d ->
  str_field "userId" d = Some owner ->
  users db !! owner = Some u ->
  exists db',
    approveReferralCommissionAction (reliable t ig) tokenId adminUserId db
      = (db', inr (Success PUnit)) /\
    users db' = <[owner := apply_update (commission_data (js_number (d !! "amount"))) u]>
                  (users db) /\
    unifiedTokens db'
    = <[tokenId := apply_update (approve_commission_data (reliable t ig) adminUserId) d]>
        (unifiedTokens db).
Proof.
  intros Htid Hown Hd Hp Ho Hu.
  apply String.eqb_neq in Htid, Hown.
  unfold approveReferralCommissionAction. run_calls. cbn [reliable fails coll].
  rewrite Htid. cbn [coll]. rewrite Hd. unfold pending_doc in Hp. rewrite Hp. cbn [negb].
  unfold approveReferralCommission_callback, increment, doc.
  change (in_scope referralActions_imports "increment") with true.
  rewrite Ho, Hown. cbv beta iota zeta delta [exc_bind].
  cbn [fmap option_fmap option_map].
  match goal with |- context [commit [_; WUpdate _ ?D2] _] =>
    destruct (commit_token_and_user tokenId
                (approve_commission_data (reliable t ig) adminUserId) owner D2 db d u Hd Hu)
      as (db' & -> & Husers & Htokens);
    exists db'
  end.
  split; [reflexivity|]. split; [exact Husers|exact Htokens].
Qed.

Lemma approveReferralCommission_applies t ig tokenId adminUserId db d owner u :
  users db !! "" = None -> unifiedTokens db !! "" = None ->
  unifiedTokens db !! tokenId = Some d -> pending_doc d ->
  str_field "userId" d = Some owner ->
  users db !! owner = Some u ->
  exists db',
    approveReferralCommissionAction (reliable t ig) tokenId adminUserId db
      = (db', inr (Success PUnit)) /\
    users db' = <[owner := apply_update (commission_data (js_number (d !! "amount"))) u]>
                  (users db) /\
    unifiedTokens db'
    = <[tokenId := apply_update (approve_commission_data (reliable t ig) adminUserId) d]>
        (unifiedTokens db).
Proof.
  intros Hu0 Ht0 Hd Hp Ho Hu.
  apply approveReferralCommission_run; try done; intros ->; congruence.
Qed.

(** A pending raffle entry is approved by [approveTokenAction], whatever the
    module imports: only the token is written. *)
Lemma approveToken_raffle_run scope t ig tokenId adminUserId notes db d owner :
  tokenId <> "" -> unifiedTokens db !! tokenId = Some d -> pending_doc d ->
  switch_type d = Some RaffleEntry ->
  str_field "userId" d = Some owner -> owner <> "" ->
  approveTokenAction_in scope (reliable t ig) tokenId adminUserId notes db
  = (set_coll UnifiedTokens
       (<[tokenId := apply_update (approve_data (reliable t ig) adminUserId notes) d]>
          (unifiedTokens db)) db,
     inr (Success PUnit)).
Proof.
  intros Hid Hd Hp Hty Ho Hown.
  unfold approveTokenAction_in, approveTokenAction_try.
  rewrite doc_nonempty by done. run_calls. cbn [reliable fails coll].
  rewrite Hd. unfold pending_doc in Hp. rewrite Hp. cbn [negb].
  unfold approveToken_callback. fold (switch_type d).
  rewrite Ho, Hty, doc_nonempty by done.
  cbv beta iota zeta delta [exc_bind].
  rewrite commit_single. unfold apply_write.
  cbn [fst snd coll]. by rewrite Hd.
Qed.

(** C5, as amended. On an existing token that is not pending,
    [approveTokenAction] and [approveReferralCommissionAction] return a
    failure and leave the whole database as it is. After either of them has
    returned success for a token, any further approval of that token is
    refused in this way, so the changes of an approval are applied once. In
    a ledger whose amounts are numbers, a successful
    [approveReferralCommissionAction] has incremented the balance of the
    owner by the amount of the token, and has changed no other user; a
    successful [approveTokenAction] on a raffle entry, or on a token of no
    known type, has changed no user. When the database accepts the calls,
    [approveReferralCommissionAction] succeeds on a pending token whose
    owner exists, and [approveTokenAction] on a pending raffle entry. *)
Theorem approval_is_idempotent env env' tokenId adminUserId adminUserId' notes notes' db :
  (processed db tokenId -> refused env tokenId adminUserId notes db) /\
  (forall scope db1 p,
     approveTokenAction_in scope env tokenId adminUserId notes db
       = (db1, inr (Success p)) ->
     refused env' tokenId adminUserId' notes' db1 /\
     (forall d, unifiedTokens db !! tokenId = Some d ->
        switch_type d = Some RaffleEntry \/ switch_type d = None ->
        users db1 = users db)) /\
  (forall db1 p,
     amounts_typed db ->
     approveReferralCommissionAction env tokenId adminUserId db
       = (db1, inr (Success p)) ->
     refused env' tokenId adminUserId' notes' db1 /\
     exists d owner u,
       unifiedTokens db !! tokenId = Some d /\ pending_doc d /\
       str_field "userId" d = Some owner /\ users db !! owner = Some u /\
       users db1
       = <[owner := apply_update (commission_data (js_number (d !! "amount"))) u]>
           (users db) /\
       balance_at db1 owner = incremented "balance" (js_number (d !! "amount")) u) /\
  (forall t ig d owner,
     tokenId <> "" -> unifiedTokens db !! tokenId = Some d -> pending_doc d ->
     str_field "userId" d = Some owner -> owner <> "" ->
     (switch_type d = Some RaffleEntry ->
      exists db1,
        approveTokenAction (reliable t ig) tokenId adminUserId notes db
        = (db1, inr (Success PUnit))) /\
     (is_Some (users db !! owner) ->
      exists db1,
        approveReferralCommissionAction (reliable t ig) tokenId adminUserId db
        = (db1, inr (Success PUnit)))).
Proof.
  split; [apply processed_refused|]. split; [|split].
  - intros scope db1 p H. split.
    + by eapply processed_refused, approveToken_success_processed.
    + intros d Hd Hty. by eapply approveToken_raffle_users.
  - intros db1 p _ H. split.
    + by eapply processed_refused, approveReferralCommission_success_processed.
    + destruct (approveReferralCommission_success _ _ _ _ _ _ H)
        as (d & owner & u & Hd & Hp & Ho & Hu & Hus & _).
      exists d, owner, u. repeat (split; [done|]).
      unfold balance_at. rewrite Hus, lookup_insert_eq. cbn [mbind option_bind].
      apply commission_data_balance.
  - intros t ig d owner Hid Hd Hp Ho Hown. split.
    + intros Hty. eexists. unfold approveTokenAction.
      by apply (approveToken_raffle_run _ t ig tokenId adminUserId notes db d owner).
    + intros [u Hu].
      destruct (approveReferralCommission_run t ig tokenId adminUserId db d owner u)
        as (db1 & Hrun & _); eauto.
Qed.

Lemma approval_is_idempotent_witness :
  refused (reliable 200 false) "t1" "root" (Some "again")
    (approveReferralCommissionAction (reliable 100 false) "t1" "admin" example_db).1 /\
  balance_at example_db "alice" = Some (VNum 10) /\
  balance_at
    (approveReferralCommissionAction (reliable 100 false) "t1" "admin" example_db).1
    "alice" = Some (VNum 15).
Proof.
  destruct (proj1 (proj2 (proj2 (approval_is_idempotent (reliable 100 false)
                                   (reliable 200 false) "t1" "admin" "root" None
                                   (Some "again") example_db)))
              (approveReferralCommissionAction (reliable 100 false) "t1" "admin"
                 example_db).1 PUnit) as [Href (d & owner & u & Hd & _ & Ho & Hu & _ & Hb)].
  { apply (bool_decide_unpack _). vm_compute. exact I. }
  { vm_compute. reflexivity. }
  split; [exact Href|]. split; [reflexivity|].
  assert (d = example_token "deposit" "pending" "alice" 5 1 50) as ->
    by (apply (inj Some); rewrite <- Hd; reflexivity).
  assert (owner = "alice") as -> by (apply (inj Some); rewrite <- Ho; reflexivity).
  assert (u = example_user 10 "ABC") as ->
    by (apply (inj Some); rewrite <- Hu; reflexivity).
  rewrite Hb. reflexivity.
Defined.

(** C5 as stated fails: [approveTokenAction] approves the pending raffle
    entry of the small ledger, refuses to approve it again, and the balance
    of the owner has not changed once: it is what it was. *)
Lemma approving_twice_without_payment :
  exists db1,
    approveTokenAction (reliable 100 false) "t2" "admin" None example_db
    = (db1, inr (Success PUnit)) /\
    approveTokenAction (reliable 200 false) "t2" "admin" None db1
    = (db1, inr (Failure "Token zaten işlenmiş")) /\
    str_field "userId" <$> unifiedTokens example_db !! "t2" = Some (Some "alice") /\
    balance_at db1 "alice" = balance_at example_db "alice".
Proof.
  eexists. split; [vm_compute; reflexivity|].
  split; [vm_compute; reflexivity|]. split; reflexivity.
Qed.

(** ** Referral statistics *)

#[local] Instance same_stats_refl : Reflexive same_stats.
Proof. by intros d. Qed.

#[local] Instance same_stats_trans : Transitive same_stats.
Proof. unfold same_stats. intros d1 d2 d3 H1 H2. congruence. Qed.







(** ** The expiry sweep *)

Lemma selects_due env x : selects (expiredQuery env) x = due (now env) x.2.
Proof.
  unfold selects, expiredQuery, due, status_is, matches, str_field.
  cbn [q_where q_order forallb has_order_field status_name].
  destruct (time_field "expiresAt" x.2) as [e|];
    destruct (x.2 !! "status") as [[]|]; cbn;
    rewrite ?andb_true_r, ?andb_false_r; try done.
  apply andb_comm.
Qed.

Lemma cleanup_run t ig db db' :
  commit (map (expire_write (reliable t ig))
            (run_query (expiredQuery (reliable t ig)) db)) db = Some db' ->
  cleanupExpiredTokensAction (reliable t ig) db
  = (db', inr (Success
       (PDeleted (length (run_query (expiredQuery (reliable t ig)) db))))).
Proof.
  unfold cleanupExpiredTokensAction. run_calls. cbn [reliable fails].
  destruct (run_query _ db) as [|x l].
  - cbn. by intros [= ->].
  - by intros ->.
Qed.

(** C6. On a database that accepts the calls, [cleanupExpiredTokensAction]
    returns success with the number of tokens it marked, which is the number
    of due tokens (pending, [expiresAt] at or before now) or 100 if there are
    more. It removes no token and touches nothing but tokens; a marked token
    was due and gets [status: 'expired'] and [expiredAt]; every other token is
    as it was; when at most 100 tokens are due, all of them are marked. *)
Theorem cleanup_marks_expired t ig db :
  let env := reliable t ig in
  let marked := (run_query (expiredQuery env) db).*1 in
  let all_due := List.filter (fun x => due t x.2) (map_to_list (unifiedTokens db)) in
  exists db',
    cleanupExpiredTokensAction env db
      = (db', inr (Success (PDeleted (length marked)))) /\
    users db' = users db /\
    transactions db' = transactions db /\
    dom (unifiedTokens db') = dom (unifiedTokens db) /\
    length marked = Nat.min 100 (length all_due) /\
    forall id d,
      unifiedTokens db !! id = Some d ->
      (id ∈ marked -> due t d = true) /\
      ((length all_due <= 100)%nat -> due t d = true -> id ∈ marked) /\
      unifiedTokens db' !! id
        = Some (if decide (id ∈ marked) then mark_expired t d else d).
Proof.
  intros env marked all_due.
  assert (List.filter (selects (expiredQuery env)) (map_to_list (unifiedTokens db))
          = all_due) as Hfilter.
  { apply List.filter_ext. intros x. apply selects_due. }
  destruct (commit_updates UnifiedTokens (expire_data env) marked
              (run_query_NoDup _ _) db) as (db' & Hc & Hother & Hlook).
  { intros i Hi. apply list_elem_of_fmap in Hi as (x & -> & Hx).
    apply run_query_elem in Hx as [Hx _]. cbn in Hx. eauto. }
  cbn [coll] in Hlook.
  exists db'. split.
  { unfold marked. rewrite length_fmap. apply cleanup_run. by rewrite expire_writes. }
  split; [apply (Hother Users); discriminate|].
  split; [apply (Hother Transactions); discriminate|].
  split.
  { apply set_eq. intros i. rewrite !elem_of_dom, Hlook.
    case_decide; [|done]. by rewrite fmap_is_Some. }
  split.
  { unfold marked. rewrite length_fmap.
    rewrite (run_query_length_limit _ _ 100%nat) by done.
    cbn [q_coll expiredQuery coll]. by rewrite Hfilter. }
  intros id d Hd. split.
  { intros Hin. apply list_elem_of_fmap in Hin as ([i x] & -> & Hx).
    apply run_query_elem in Hx as [Hx1 Hx2].
    rewrite selects_due in Hx2. cbn [fst snd coll q_coll expiredQuery] in *.
    assert (x = d) as -> by congruence. exact Hx2. }
  split.
  { intros Hlen Hdue. apply list_elem_of_fmap. exists (id, d). split; [done|].
    apply run_query_all; [|done|by rewrite selects_due].
    cbn [q_coll q_limit expiredQuery coll default]. by rewrite Hfilter. }
  rewrite Hlook, Hd. by case_decide.
Qed.

Lemma cleanup_marks_expired_witness :
  exists db',
    cleanupExpiredTokensAction (reliable 100 false) example_db
      = (db', inr (Success (PDeleted 1))) /\
    dom (unifiedTokens db') = dom (unifiedTokens example_db) /\
    unifiedTokens db' !! "t1"
      = Some (mark_expired 100 (example_token "deposit" "pending" "alice" 5 1 50)) /\
    unifiedTokens db' !! "t2" = unifiedTokens example_db !! "t2" /\
    unifiedTokens db' !! "t3" = unifiedTokens example_db !! "t3".
Proof.
  destruct (cleanup_marks_expired 100 false example_db)
    as (db' & Hrun & _ & _ & Hdom & _ & Htok).
  exists db'. split; [exact Hrun|]. split; [exact Hdom|].
  split; [|split].
  - exact (proj2 (proj2 (Htok "t1" _ eq_refl))).
  - exact (proj2 (proj2 (Htok "t2" _ eq_refl))).
  - exact (proj2 (proj2 (Htok "t3" _ eq_refl))).
Defined.

(** ** The tokens of a user *)

#[global] Instance doc_le_total o : Total (doc_le o).
Proof.
  intros x y. unfold doc_le, doc_leb.
  destruct (String.leb_total x.1 y.1) as [H|H]; destruct o as [|f|f]; rewrite ?H.
  1,4: by auto.
  all: destruct (Z.ltb_spec (order_key f x.2) (order_key f y.2));
    destruct (Z.ltb_spec (order_key f y.2) (order_key f x.2));
    destruct (Z.eqb_spec (order_key f x.2) (order_key f y.2));
    destruct (Z.eqb_spec (order_key f y.2) (order_key f x.2));
    cbn; auto; lia.
Qed.

Lemma run_query_sorted q db : Sorted (doc_le (q_order q)) (run_query q db).
Proof.
  unfold run_query.
  assert (forall n (l : list (string * Doc)),
            Sorted (doc_le (q_order q)) l -> Sorted (doc_le (q_order q)) (take n l)) as Htake.
  { intros n l Hl. revert n. induction Hl as [|x l Hl IH Hhd]; intros [|n]; cbn;
      try constructor; auto.
    destruct Hhd; destruct n; cbn; by constructor. }
  destruct (q_limit q); [apply Htake|]; apply Sorted_merge_sort; apply _.
Qed.

Lemma selects_status_query userId s n x :
  selects (status_query userId s n) x = true <->
  str_field "userId" x.2 = Some userId /\
  str_field "status" x.2 = Some (status_name s) /\
  is_Some (time_field "createdAt" x.2).
Proof.
  unfold selects, status_query, matches.
  cbn [q_where q_order forallb has_order_field].
  rewrite !andb_true_iff.
  destruct (str_field "userId" x.2) as [u|], (str_field "status" x.2) as [st|],
    (time_field "createdAt" x.2) as [c|]; rewrite ?String.eqb_eq;
    split; intros H; destruct_and?; try done; repeat split; eauto; try congruence.
  all: by match goal with H : is_Some None |- _ => destruct H end.
Qed.

(** C8. With both a type and a status, [getUserUnifiedTokensAction] does what
    it does with the status alone. On a database that accepts the calls and
    for a positive limit, it returns the tokens of the user with that status,
    of whatever type: at most [limitCount] of them, newest first, and all of
    them when no more than [limitCount] match. *)
Theorem getUserUnifiedTokens_status_replaces_type env userId tokenType status
    limitCount db :
  getUserUnifiedTokensAction env userId (Some tokenType) (Some status) limitCount db
  = getUserUnifiedTokensAction env userId None (Some status) limitCount db /\
  (0 < limitCount -> (forall c, fails env c = false) ->
   let tokens := run_query (status_query userId status (Z.to_nat limitCount)) db in
   getUserUnifiedTokensAction env userId (Some tokenType) (Some status) limitCount db
   = (db, inr (Success (PTokens tokens))) /\
   (length tokens <= Z.to_nat limitCount)%nat /\
   Sorted (doc_le (ByTimeDesc "createdAt")) tokens /\
   (forall x, x ∈ tokens ->
      unifiedTokens db !! x.1 = Some x.2 /\
      str_field "userId" x.2 = Some userId /\
      str_field "status" x.2 = Some (status_name status)) /\
   (forall id d,
      (length (List.filter (selects (status_query userId status (Z.to_nat limitCount)))
                 (map_to_list (unifiedTokens db))) <= Z.to_nat limitCount)%nat ->
      unifiedTokens db !! id = Some d ->
      str_field "userId" d = Some userId ->
      str_field "status" d = Some (status_name status) ->
      is_Some (time_field "createdAt" d) ->
      (id, d) ∈ tokens)).
Proof.
  split; [reflexivity|].
  intros Hpos Hok tokens.
  split.
  { unfold getUserUnifiedTokensAction, getUserUnifiedTokensAction_try, limit.
    run_calls. rewrite Hok.
    destruct (Z.leb_spec limitCount 0); [lia|]. reflexivity. }
  split.
  { unfold tokens. rewrite (run_query_length_limit _ _ (Z.to_nat limitCount)) by done.
    lia. }
  split; [apply (run_query_sorted (status_query _ _ _))|].
  split.
  { intros x Hx. apply run_query_elem in Hx as [Hx Hsel].
    apply selects_status_query in Hsel as (? & ? & ?). done. }
  intros id d Hlen Hd Hu Hs Hc.
  apply run_query_all; [done|done|].
  apply selects_status_query. done.
Qed.

Lemma getUserUnifiedTokens_status_replaces_type_witness :
  getUserUnifiedTokensAction (reliable 100 false) "alice" (Some Withdrawal)
    (Some Pending) 50 example_db
  = (example_db,
     inr (Success (PTokens
       [("t2", example_token "raffle_entry" "pending" "alice" 5 2 500);
        ("t1", example_token "deposit" "pending" "alice" 5 1 50)]))).
Proof.
  destruct (proj2 (getUserUnifiedTokens_status_replaces_type (reliable 100 false)
                     "alice" Withdrawal Pending 50 example_db)
              ltac:(reflexivity) ltac:(reflexivity)) as [Hrun _].
  rewrite Hrun. vm_compute. reflexivity.
Defined.

(** ** Approval and the balance *)

(** As the token module stands, [approveTokenAction] never approves a token
    of a type other than [raffle_entry]. *)
Lemma approveToken_unbound_increment env tokenId adminUserId notes db d type :
  unifiedTokens db !! tokenId = Some d ->
  str_field "type" d = Some (type_name type) ->
  type <> RaffleEntry ->
  exists e, approveTokenAction env tokenId adminUserId notes db
            = (db, inr (Failure e)).
Proof.
  intros Hd Hty Hne.
  unfold approveTokenAction, approveTokenAction_in. run_calls.
  destruct (String.eqb tokenId ""); [eauto|].
  destruct (fails env CGetDoc); [eauto|].
  cbn [coll]. rewrite Hd.
  destruct (negb (status_is Pending d)); [eauto|].
  destruct (fails env CRunTransaction); [eauto|].
  unfold approveToken_callback, increment.
  change (in_scope unifiedTokenActions_imports "increment") with false.
  rewrite Hty. unfold default. cbn [from_option]. unfold id.
  rewrite type_of_string_type_name.
  destruct type; try done; cbv beta iota zeta delta [exc_bind]; cases; eauto.
Qed.

(** C7 on the code: [approveTokenAction] on a pending deposit token whose
    owner exists. The token module does not bind [increment]: the callback
    throws, nothing is committed, and the action returns its failure. *)
Lemma approveTokenAction_deposit_not_applied :
  status_of <$> unifiedTokens example_db !! "t1" = Some (Some (VStr "pending")) /\
  str_field "type" <$> unifiedTokens example_db !! "t1" = Some (Some "deposit") /\
  approveTokenAction (reliable 100 false) "t1" "admin" None example_db
  = (example_db, inr (Failure "Token onaylanamadı")).
Proof. repeat split; vm_compute; reflexivity. Qed.

Lemma js_number_field (d : Doc) amount :
  num_field "amount" d = Some amount -> js_number (d !! "amount") = amount.
Proof. unfold num_field, js_number. intros H. cases. done. Qed.

Lemma two_increments k1 k2 a b (u : Doc) :
  k1 <> k2 ->
  apply_update [([k1], Increment a); ([k2], Increment b)] u !! k1 = incremented k1 a u /\
  apply_update [([k1], Increment a); ([k2], Increment b)] u !! k2 = incremented k2 b u.
Proof.
  intros Hne. rewrite !apply_update_cons, apply_update_nil. cbn [fst snd].
  rewrite !update_path_field. unfold incremented. split.
  - by rewrite lookup_insert_ne, lookup_insert_eq.
  - by rewrite lookup_insert_eq, lookup_insert_ne.
Qed.

(** What C7 describes holds in a module that imports [increment]: the
    balance of the owner is incremented by the amount, with the sign of the
    type, and the running total of the type is incremented by the amount. *)
Lemma approveToken_with_increment scope t ig tokenId adminUserId notes db d type
    amount owner u :
  in_scope scope "increment" = true ->
  users db !! "" = None -> unifiedTokens db !! "" = None ->
  unifiedTokens db !! tokenId = Some d -> pending_doc d ->
  str_field "type" d = Some (type_name type) ->
  num_field "amount" d = Some amount ->
  str_field "userId" d = Some owner ->
  users db !! owner = Some u ->
  exists db' u',
    approveTokenAction_in scope (reliable t ig) tokenId adminUserId notes db
      = (db', inr (Success PUnit)) /\
    users db' !! owner = Some u' /\
    match balance_effect type amount, total_field type with
    | Some n, Some k =>
        balance_of u' = incremented "balance" n u /\
        u' !! k = incremented k amount u
    | _, _ => u' = u
    end.
Proof.
  intros Hscope Hu0 Ht0 Hd Hp Hty Ha Ho Hu.
  assert (String.eqb tokenId "" = false) as Htid.
  { apply String.eqb_neq. intros ->. congruence. }
  assert (String.eqb owner "" = false) as Hown.
  { apply String.eqb_neq. intros ->. congruence. }
  unfold approveTokenAction_in. run_calls. cbn [reliable fails coll].
  rewrite Htid. cbn [coll]. rewrite Hd. unfold pending_doc in Hp. rewrite Hp. cbn [negb].
  unfold approveToken_callback, increment, doc.
  rewrite Hscope, Hty, (js_number_field _ _ Ha), Ho, Hown.
  unfold default. cbn [from_option]. unfold id.
  rewrite type_of_string_type_name.
  cbv beta iota zeta delta [exc_bind]. unfold balance_of.
  destruct type; cbn [fmap option_fmap option_map balance_effect total_field type_name].
  1-5: match goal with |- context [commit [_; WUpdate _ ?D2] _] =>
         destruct (commit_token_and_user tokenId
                     (approve_data (reliable t ig) adminUserId notes) owner D2 db d u Hd Hu)
           as (db' & -> & Husers & _);
         exists db', (apply_update D2 u);
         (split; [reflexivity|]); (split; [by rewrite Husers, lookup_insert_eq|]);
         apply two_increments; discriminate
       end.
  rewrite commit_single. cbn [apply_write fst snd coll]. rewrite Hd.
  eexists _, u. split; [reflexivity|]. split; [exact Hu|]. done.
Qed.

(** The same call in a module that imports [increment]. *)
Lemma approveTokenAction_in_scope_example :
  balance_at
    (approveTokenAction_in referralActions_imports (reliable 100 false)
       "t1" "admin" None example_db).1 "alice"
  = Some (VNum 15).
Proof. vm_compute. reflexivity. Qed.

(** * Further properties of the actions *)

(** ** What no operation does *)

Lemma apply_write_dom c w db db' :
  creates_none c w -> apply_write w db = Some db' ->
  dom (coll c db') = dom (coll c db).
Proof.
  intros Hw H. destruct (decide ((write_ref w).1 = c)) as [Hc|Hc].
  - destruct w as [[c' id] data|[c' id] x]; cbn in Hc, Hw; subst; [|done].
    apply apply_write_update in H as (d & Hd & ->).
    rewrite coll_set_coll, dom_insert_L.
    apply subseteq_union_1_L, singleton_subseteq_l, elem_of_dom. eauto.
  - by rewrite (apply_write_coll_ne _ _ _ _ Hc H).
Qed.

Lemma commit_dom c ws : forall db db',
  Forall (creates_none c) ws -> commit ws db = Some db' ->
  dom (coll c db') = dom (coll c db).
Proof.
  induction ws as [|w ws IH]; intros db db' Hall H.
  - cbn in H. by simplify_eq.
  - apply commit_cons_inv in H as (db1 & H1 & H2).
    inversion Hall; subst.
    rewrite (IH _ _ ltac:(done) H2). by eapply apply_write_dom.
Qed.

Lemma apply_write_dom_grows c w db db' :
  apply_write w db = Some db' -> dom (coll c db) ⊆ dom (coll c db').
Proof.
  intros H. destruct (decide ((write_ref w).1 = c)) as [Hc|Hc].
  - destruct w as [[c' id] data|[c' id] x]; cbn in Hc; subst.
    + apply apply_write_update in H as (d & Hd & ->).
      rewrite coll_set_coll, dom_insert_L. set_solver.
    + cbn in H. simplify_eq. rewrite coll_set_coll, dom_insert_L. set_solver.
  - by rewrite (apply_write_coll_ne _ _ _ _ Hc H).
Qed.

Lemma commit_dom_grows c ws : forall db db',
  commit ws db = Some db' -> dom (coll c db) ⊆ dom (coll c db').
Proof.
  induction ws as [|w ws IH]; intros db db' H.
  - cbn in H. by simplify_eq.
  - apply commit_cons_inv in H as (db1 & H1 & H2).
    etrans; [by eapply apply_write_dom_grows|by apply IH].
Qed.

Lemma step_creates_only_tokens scope env db op ws c :
  step scope env db op ws -> c <> UnifiedTokens -> Forall (creates_none c) ws.
Proof.
  intros Hstep Hc. destruct Hstep.
  - repeat constructor. by cbn.
  - by repeat constructor.
  - destruct (approveToken_callback_shape _ _ _ _ _ _ _ H1) as (rest & -> & Hrest).
    constructor; [done|]. eapply Forall_impl; [exact Hrest|].
    by intros [r data|r x]; cbn.
  - by repeat constructor.
  - apply Forall_fmap, Forall_forall. by intros x _.
  - destruct H as [->| ->]; repeat constructor; by cbn.
  - apply processDepositReferral_callback_shape in H1 as ->.
    repeat constructor; by cbn.
  - destruct (approveReferralCommission_callback_shape _ _ _ _ _ _ H1)
      as (owner & a & Ha & ->).
    by repeat constructor.
Qed.

Lemma step_transactions_only_migrate scope env db op ws :
  step scope env db op ws ->
  (forall t a, op <> MigrateTransactionToToken t a) ->
  Forall (fun w => (write_ref w).1 <> Transactions) ws.
Proof.
  intros Hstep Hop. destruct Hstep.
  - by repeat constructor.
  - by repeat constructor.
  - destruct (approveToken_callback_shape _ _ _ _ _ _ _ H1) as (rest & -> & Hrest).
    constructor; [done|]. eapply Forall_impl; [exact Hrest|].
    intros [r data|r x]; cbn; [|done]. by intros [-> _].
  - by repeat constructor.
  - apply Forall_fmap, Forall_forall. by intros x _.
  - by destruct (Hop transactionId adminUserId).
  - apply processDepositReferral_callback_shape in H1 as ->.
    by repeat constructor.
  - destruct (approveReferralCommission_callback_shape _ _ _ _ _ _ H1)
      as (owner & a & Ha & ->).
    by repeat constructor.
Qed.

Lemma run_creates_only_tokens scope env op db c :
  c <> UnifiedTokens ->
  dom (coll c (run_in scope env op db).1) = dom (coll c db).
Proof.
  intros Hc. destruct (run_step scope env op db) as [Heq|(ws & Hstep & Hcommit)].
  - by rewrite Heq.
  - apply (commit_dom c _ _ _
             (step_creates_only_tokens _ _ _ _ _ c Hstep Hc) Hcommit).
Qed.

(** X1. No operation creates or deletes a user or a legacy transaction, no
    operation deletes a token, and only the migration writes to the legacy
    transactions. *)
Theorem documents_are_never_deleted env op db :
  dom (users (run env op db).1) = dom (users db) /\
  dom (transactions (run env op db).1) = dom (transactions db) /\
  dom (unifiedTokens db) ⊆ dom (unifiedTokens (run env op db).1) /\
  ((forall t a, op <> MigrateTransactionToToken t a) ->
   transactions (run env op db).1 = transactions db).
Proof.
  split; [|split; [|split]].
  - by apply (run_creates_only_tokens _ env op db Users).
  - by apply (run_creates_only_tokens _ env op db Transactions).
  - unfold run.
    destruct (run_step unifiedTokenActions_imports env op db)
      as [Heq|(ws & Hstep & Hc)]; [by rewrite Heq|].
    apply (commit_dom_grows UnifiedTokens _ _ _ Hc).
  - intros Hop. unfold run.
    destruct (run_step unifiedTokenActions_imports env op db)
      as [Heq|(ws & Hstep & Hc)]; [by rewrite Heq|].
    apply (commit_coll_ne Transactions _ _ _
             (step_transactions_only_migrate _ _ _ _ _ Hstep Hop) Hc).
Qed.

(** X2. An operation that only reads leaves the database as it is, whichever
    of its calls are rejected. *)
Theorem queries_never_write env op db :
  read_only op -> (run env op db).1 = db.
Proof.
  intros Hop.
  destruct op; try done; unfold_actions; run_calls; cases; done.
Qed.

Lemma queries_never_write_witness :
  (run (reliable 100 false) GetPendingReferralCommissions example_db).1 = example_db.
Proof. apply queries_never_write. exact I. Defined.

(** ** The ids of new documents *)

Lemma pretty_N_go_nonempty (x : N) : forall s, s <> "" -> pretty_N_go x s <> "".
Proof.
  induction (N.lt_wf_0 x) as [x _ IH]. intros s Hs.
  destruct (decide (x = 0%N)) as [->|Hx].
  - by rewrite pretty_N_go_0.
  - rewrite pretty_N_go_step by lia. apply IH; [|done].
    apply N.div_lt; lia.
Qed.

Lemma pretty_nat_nonempty (n : nat) : pretty n <> "".
Proof.
  unfold pretty, pretty_nat, pretty, pretty_N.
  destruct (decide _) as [|Hn]; [done|].
  rewrite pretty_N_go_step by lia. by apply pretty_N_go_nonempty.
Qed.

Lemma fresh_string_pretty (xs : list string) : exists n : nat, fresh xs = pretty n.
Proof.
  unfold fresh, infinite_fresh, string_infinite, search_infinite.
  assert (forall (n : nat) acc, exists m : nat,
            Fix_F (fun _ => string) (search_infinite_go pretty xs) (x:=n) acc
            = pretty m) as H; [|apply H].
  fix FIX 2. intros n [acc]; simpl; unfold search_infinite_go at 1; simpl.
  destruct (decide _); [apply FIX|by exists n].
Qed.

(** An id made by the database is not empty. *)
Lemma fresh_id_nonempty (X : gset string) : fresh X <> "".
Proof.
  destruct (fresh_string_pretty (elements X)) as (n & Hn).
  change (fresh (elements X) <> ""). rewrite Hn.
  apply pretty_nat_nonempty.
Qed.

(** ** Updating and rejecting a token *)

(** The fields of an update that sets whole fields. *)
Lemma apply_update_lits (updates : list (string * Value)) : forall (d : Doc) k v,
  NoDup updates.*1 -> (k, v) ∈ updates ->
  apply_update (map (fun kv => ([kv.1], Lit kv.2)) updates) d !! k = Some v.
Proof.
  induction updates as [|[k0 v0] us IH]; intros d k v Hnd Hin.
  - by apply elem_of_nil in Hin.
  - cbn [map]. rewrite apply_update_cons. cbn [fst snd].
    apply NoDup_cons in Hnd as [Hk0 Hnd].
    apply elem_of_cons in Hin as [Heq|Hin].
    + simplify_eq. rewrite apply_update_lookup_ne.
      * by rewrite update_path_field, lookup_insert_eq.
      * apply Forall_fmap, Forall_forall. intros [k1 v1] Hin1. cbn.
        intros [= ->]. apply Hk0.
        apply list_elem_of_fmap. by exists (k0, v1).
    + by apply IH.
Qed.

Lemma apply_update_app (data1 data2 : UpdateData) (d : Doc) :
  apply_update (data1 ++ data2)%list d = apply_update data2 (apply_update data1 d).
Proof. unfold apply_update. by rewrite fold_left_app. Qed.

Lemma updateDoc_run t ig c id data db d :
  id <> "" -> coll c db !! id = Some d ->
  doc c (Some id) = inr (c, id) /\
  updateDoc (reliable t ig) (c, id) data db
  = (set_coll c (<[id := apply_update data d]> (coll c db)) db, inr tt).
Proof.
  intros Hid Hd. split.
  - unfold doc. destruct (String.eqb_spec id ""); [done|done].
  - unfold updateDoc, call, reliable. cbn. by rewrite Hd.
Qed.

(** X3. [rejectTokenAction] does not look at the status: an existing token,
    pending or not, becomes rejected. *)
Theorem rejectToken_any_status t ig tokenId adminUserId reason db d :
  tokenId <> "" -> unifiedTokens db !! tokenId = Some d ->
  exists d',
    rejectTokenAction (reliable t ig) tokenId adminUserId reason db
    = (set_coll UnifiedTokens (<[tokenId := d']> (unifiedTokens db)) db,
       inr (Success PUnit)) /\
    status_of d' = Some (VStr "rejected") /\
    d' !! "rejectedAt" = Some (VTime t) /\
    d' !! "rejectedBy" = Some (VStr adminUserId) /\
    d' !! "rejectionReason" = Some (VStr reason) /\
    forall k, k ∉ ["status"; "rejectedAt"; "rejectedBy"; "rejectionReason"] ->
              d' !! k = d !! k.
Proof.
  intros Hid Hd.
  destruct (updateDoc_run t ig UnifiedTokens tokenId
              (reject_data (reliable t ig) adminUserId reason) db d Hid Hd)
    as [Hdoc Hrun].
  exists (apply_update (reject_data (reliable t ig) adminUserId reason) d).
  split.
  - unfold rejectTokenAction, rejectTokenAction_try, try_catch, bind, lift.
    rewrite Hdoc, Hrun.
    reflexivity.
  - unfold reject_data, status_of.
    cbn [apply_update fold_left update_path apply_field fst snd now reliable].
    repeat split.
    + by repeat (rewrite lookup_insert_ne by done); rewrite lookup_insert_eq.
    + by repeat (rewrite lookup_insert_ne by done); rewrite lookup_insert_eq.
    + by repeat (rewrite lookup_insert_ne by done); rewrite lookup_insert_eq.
    + by rewrite lookup_insert_eq.
    + intros k Hk. repeat (rewrite not_elem_of_cons in Hk).
      destruct Hk as (? & ? & ? & ? & _).
      by repeat (rewrite lookup_insert_ne by done).
Qed.

Lemma rejectToken_any_status_witness :
  exists d',
    rejectTokenAction (reliable 100 false) "t3" "admin" "late" example_db
    = (set_coll UnifiedTokens (<["t3" := d']> (unifiedTokens example_db)) example_db,
       inr (Success PUnit)) /\
    status_of d' = Some (VStr "rejected") /\
    d' !! "rejectedAt" = Some (VTime 100) /\
    d' !! "rejectedBy" = Some (VStr "admin") /\
    d' !! "rejectionReason" = Some (VStr "late") /\
    forall k, k ∉ ["status"; "rejectedAt"; "rejectedBy"; "rejectionReason"] ->
              d' !! k = example_token "withdrawal" "approved" "alice" 2 3 60 !! k.
Proof.
  apply (rejectToken_any_status 100 false "t3" "admin" "late" example_db).
  - discriminate.
  - reflexivity.
Defined.

(** X4. [updateUnifiedTokenAction] sets the given fields and stamps
    [updatedAt] with the time of the call, also when the updates carry an
    [updatedAt] of their own; it leaves the other fields alone. *)
Theorem updateUnifiedToken_stamps t ig tokenId updates db d :
  tokenId <> "" -> unifiedTokens db !! tokenId = Some d ->
  field_names updates ->
  exists d',
    updateUnifiedTokenAction (reliable t ig) tokenId updates db
    = (set_coll UnifiedTokens (<[tokenId := d']> (unifiedTokens db)) db,
       inr (Success PUnit)) /\
    d' !! "updatedAt" = Some (VTime t) /\
    (forall k v, k <> "updatedAt" -> (k, v) ∈ updates -> d' !! k = Some v) /\
    (forall k, k <> "updatedAt" -> k ∉ updates.*1 -> d' !! k = d !! k).
Proof.
  intros Hid Hd [Hnd _].
  destruct (updateDoc_run t ig UnifiedTokens tokenId
              (updateData (reliable t ig) updates) db d Hid Hd)
    as [Hdoc Hrun].
  exists (apply_update (updateData (reliable t ig) updates) d).
  split; [|split; [|split]].
  - unfold updateUnifiedTokenAction, updateUnifiedTokenAction_try, try_catch, bind, lift.
    rewrite Hdoc, Hrun.
    reflexivity.
  - unfold updateData. rewrite apply_update_app.
    unfold apply_update at 1. cbn [fold_left fst snd].
    by rewrite update_path_field, lookup_insert_eq.
  - intros k v Hk Hin. unfold updateData. rewrite apply_update_app.
    unfold apply_update at 1. cbn [fold_left fst snd].
    rewrite update_path_field, lookup_insert_ne by done.
    by apply apply_update_lits.
  - intros k Hk Hin. unfold updateData. rewrite apply_update_app.
    unfold apply_update at 1. cbn [fold_left fst snd].
    rewrite update_path_field, lookup_insert_ne by done.
    apply apply_update_lookup_ne.
    apply Forall_fmap, Forall_forall. intros [k1 v1] Hin1. cbn.
    intros [= ->]. apply Hin.
    apply list_elem_of_fmap. by exists (k, v1).
Qed.

Lemma updateUnifiedToken_stamps_witness :
  exists d',
    updateUnifiedTokenAction (reliable 100 false) "t1"
      [("amount", VNum 7); ("updatedAt", VTime 1)] example_db
    = (set_coll UnifiedTokens (<["t1" := d']> (unifiedTokens example_db)) example_db,
       inr (Success PUnit)) /\
    d' !! "updatedAt" = Some (VTime 100) /\
    (forall k v, k <> "updatedAt" ->
       (k, v) ∈ [("amount", VNum 7); ("updatedAt", VTime 1)] -> d' !! k = Some v) /\
    (forall k, k <> "updatedAt" ->
       k ∉ [("amount", VNum 7); ("updatedAt", VTime 1)].*1 ->
       d' !! k = example_token "deposit" "pending" "alice" 5 1 50 !! k).
Proof.
  apply (updateUnifiedToken_stamps 100 false "t1"
           [("amount", VNum 7); ("updatedAt", VTime 1)] example_db).
  - discriminate.
  - reflexivity.
  - split.
    + apply (bool_decide_unpack _). vm_compute. exact I.
    + repeat constructor.
Defined.

(** X5. Updating or rejecting a token that does not exist fails with the
    message of the action and changes nothing, whatever the environment. *)
Theorem update_and_reject_need_the_token env tokenId db :
  unifiedTokens db !! tokenId = None ->
  (forall updates,
     updateUnifiedTokenAction env tokenId updates db
     = (db, inr (Failure "Token güncellenemedi"))) /\
  (forall adminUserId reason,
     rejectTokenAction env tokenId adminUserId reason db
     = (db, inr (Failure "Token reddedilemedi"))).
Proof.
  intros Hd. split; intros.
  - unfold updateUnifiedTokenAction. run_calls. unfold apply_write.
    cbn [fst snd]. cases; cbn [coll] in *; congruence.
  - unfold rejectTokenAction. run_calls. unfold apply_write.
    cbn [fst snd]. cases; cbn [coll] in *; congruence.
Qed.

Lemma update_and_reject_need_the_token_witness :
  (forall updates,
     updateUnifiedTokenAction (reliable 100 false) "t9" updates example_db
     = (example_db, inr (Failure "Token güncellenemedi"))) /\
  (forall adminUserId reason,
     rejectTokenAction (reliable 100 false) "t9" adminUserId reason example_db
     = (example_db, inr (Failure "Token reddedilemedi"))).
Proof.
  apply (update_and_reject_need_the_token (reliable 100 false) "t9" example_db).
  reflexivity.
Defined.

(** ** Creating a token and reading it back *)

(** The document of an object when [undefined] properties are left out. *)
Lemma to_doc_ignoring env (o : JsObject) :
  ignoreUndefinedProperties env = true -> NoDup o.*1 ->
  exists d, to_doc env o = inr d /\
            (forall k v, (k, v) ∈ o -> d !! k = v) /\
            (forall k, k ∉ o.*1 -> d !! k = None).
Proof.
  intros Hig. induction o as [|[k0 [v0|]] o IH]; intros Hnd.
  - exists ∅. split; [done|]. split; [|done].
    intros k v Hin. by apply elem_of_nil in Hin.
  - apply NoDup_cons in Hnd as [Hk0 Hnd].
    destruct (IH Hnd) as (d & Hd & Hin & Hout).
    exists (<[k0 := v0]> d). cbn [to_doc]. rewrite Hd. split; [done|]. split.
    + intros k v [Heq|Hk]%elem_of_cons.
      * simplify_eq. by rewrite lookup_insert_eq.
      * rewrite lookup_insert_ne; [by apply Hin|].
        intros <-. apply Hk0. apply list_elem_of_fmap. by exists (k0, v).
    + intros k Hk. cbn in Hk. apply not_elem_of_cons in Hk as [Hne Hk].
      rewrite lookup_insert_ne by done. by apply Hout.
  - apply NoDup_cons in Hnd as [Hk0 Hnd].
    destruct (IH Hnd) as (d & Hd & Hin & Hout).
    exists d. cbn [to_doc]. rewrite Hig, Hd. split; [done|]. split.
    + intros k v [Heq|Hk]%elem_of_cons.
      * simplify_eq. by apply Hout.
      * by apply Hin.
    + intros k Hk. cbn in Hk. apply not_elem_of_cons in Hk as [Hne Hk].
      by apply Hout.
Qed.

(** X6. A token created with an expiry is stored under a new id with all
    its fields, when the date of the expiry, [expiresInDays] days after the
    time of the call in the arithmetic of floats, is one that a timestamp
    holds: its [expiresAt] is that date, and reading the id gives the token
    back. When the date is not one that a timestamp holds, nothing is
    created and the action returns its failure. *)
Theorem createUnifiedToken_then_get t ig env' userId type amount metadata days db :
  number_truthy (Some days) = true ->
  (forall expiresAt,
     date_after t days = inr expiresAt -> fails env' CGetDoc = false ->
     exists id db',
       unifiedTokens db !! id = None /\
       createUnifiedTokenAction (reliable t ig) userId type amount metadata
         (Some days) db
       = (db', inr (Success (PTokenId id))) /\
       db' = set_coll UnifiedTokens
               (<[id := created_token t userId type amount metadata expiresAt]>
                  (unifiedTokens db)) db /\
       getUnifiedTokenAction env' id db'
       = (db', inr (Success
            (PToken (id, created_token t userId type amount metadata expiresAt))))) /\
  (forall e,
     date_after t days = inl e ->
     createUnifiedTokenAction (reliable t ig) userId type amount metadata
       (Some days) db
     = (db, inr (Failure "Token oluşturulamadı"))).
Proof.
  intros Hdays. split.
  - intros expiresAt Hdate Hget.
    exists (fresh (dom (unifiedTokens db))). eexists. split; [|split; [|split]].
    + apply not_elem_of_dom, is_fresh.
    + unfold createUnifiedTokenAction, createUnifiedTokenAction_try, expiry,
        new_tokenData.
      rewrite Hdays. cbn [now reliable default from_option]. unfold id.
      rewrite Hdate.
      run_calls. cbn [to_doc exc_bind fails reliable now coll]. reflexivity.
    + reflexivity.
    + unfold getUnifiedTokenAction, getUnifiedTokenAction_try.
      rewrite doc_nonempty by apply fresh_id_nonempty.
      run_calls. rewrite Hget. cbn [coll unifiedTokens set_coll].
      by rewrite lookup_insert_eq.
  - intros e Hdate.
    unfold createUnifiedTokenAction, createUnifiedTokenAction_try, expiry.
    rewrite Hdays. cbn [now reliable default from_option]. unfold id.
    rewrite Hdate. reflexivity.
Qed.

Lemma createUnifiedToken_then_get_witness :
  (exists id db',
     unifiedTokens example_db !! id = None /\
     createUnifiedTokenAction (reliable 100 false) "bob" Bonus 4 None
       (Some 7%float) example_db
     = (db', inr (Success (PTokenId id))) /\
     db' = set_coll UnifiedTokens
             (<[id := created_token 100 "bob" Bonus 4 None 604800100]>
                (unifiedTokens example_db)) example_db /\
     getUnifiedTokenAction (reliable 200 false) id db'
     = (db', inr (Success
          (PToken (id, created_token 100 "bob" Bonus 4 None 604800100))))) /\
  createUnifiedTokenAction (reliable 100 false) "bob" Bonus 4 None
    (Some 3000000%float) example_db
  = (example_db, inr (Failure "Token oluşturulamadı")).
Proof.
  split.
  - apply (proj1 (createUnifiedToken_then_get 100 false (reliable 200 false)
                    "bob" Bonus 4 None 7 example_db ltac:(reflexivity))).
    + vm_compute. reflexivity.
    + reflexivity.
  - apply (proj2 (createUnifiedToken_then_get 100 false (reliable 200 false)
                    "bob" Bonus 4 None 3000000 example_db ltac:(reflexivity))
             (InvalidArgument "Timestamp")).
    vm_compute. reflexivity.
Defined.

(** X7. Without an expiry ([expiresInDays] missing or 0) the action passes
    [expiresAt: undefined] to [addDoc]: a database set up to leave
    undefined properties out stores the token without an [expiresAt]; any
    other database rejects the object, and nothing is created. *)
Theorem createUnifiedToken_without_expiry t userId type amount metadata
    expiresInDays db :
  number_truthy expiresInDays = false ->
  (exists id d,
     createUnifiedTokenAction (reliable t true) userId type amount metadata
       expiresInDays db
     = (set_coll UnifiedTokens (<[id := d]> (unifiedTokens db)) db,
        inr (Success (PTokenId id))) /\
     unifiedTokens db !! id = None /\
     d !! "expiresAt" = None /\ status_of d = Some (VStr "pending") /\
     due t d = false) /\
  createUnifiedTokenAction (reliable t false) userId type amount metadata
    expiresInDays db
  = (db, inr (Failure "Token oluşturulamadı")).
Proof.
  intros Hdays. split.
  - exists (fresh (dom (unifiedTokens db))). eexists. split; [|split].
    + unfold createUnifiedTokenAction, createUnifiedTokenAction_try, expiry,
        new_tokenData. rewrite Hdays.
      run_calls. cbn [to_doc exc_bind fails reliable now coll
                      ignoreUndefinedProperties]. reflexivity.
    + apply not_elem_of_dom, is_fresh.
    + split; [|split].
      * by repeat (rewrite lookup_insert_ne by done).
      * unfold status_of.
        by repeat (rewrite lookup_insert_ne by done); rewrite lookup_insert_eq.
      * unfold due, time_field.
        by repeat (rewrite lookup_insert_ne by done).
  - unfold createUnifiedTokenAction, createUnifiedTokenAction_try, expiry,
      new_tokenData. rewrite Hdays.
    run_calls. cbn [to_doc exc_bind fails reliable now coll
                    ignoreUndefinedProperties]. reflexivity.
Qed.

Lemma createUnifiedToken_without_expiry_witness :
  (exists id d,
     createUnifiedTokenAction (reliable 100 true) "bob" Bonus 4 None
       (Some 0%float) example_db
     = (set_coll UnifiedTokens (<[id := d]> (unifiedTokens example_db)) example_db,
        inr (Success (PTokenId id))) /\
     unifiedTokens example_db !! id = None /\
     d !! "expiresAt" = None /\ status_of d = Some (VStr "pending") /\
     due 100 d = false) /\
  createUnifiedTokenAction (reliable 100 false) "bob" Bonus 4 None
    (Some 0%float) example_db
  = (example_db, inr (Failure "Token oluşturulamadı")).
Proof.
  apply (createUnifiedToken_without_expiry 100 "bob" Bonus 4 None (Some 0%float)
           example_db).
  reflexivity.
Defined.

(** ** The migration of a legacy transaction *)

Lemma migrated_tokenData_keys env transactionId adminUserId td :
  NoDup (migrated_tokenData env transactionId adminUserId td).*1.
Proof.
  unfold migrated_tokenData. cbn [fmap list_fmap fst].
  apply (bool_decide_unpack _). vm_compute. exact I.
Qed.

Ltac in_list :=
  solve [repeat first [apply list_elem_of_here | apply list_elem_of_further]].

(** The token that a migration makes of a legacy transaction. *)
Lemma migrated_token env transactionId adminUserId td :
  ignoreUndefinedProperties env = true ->
  exists token,
    to_doc env (migrated_tokenData env transactionId adminUserId td) = inr token /\
    (forall k, k ∈ copied_fields -> token !! k = td !! k) /\
    token !! "createdAt"
    = (if truthy (td !! "createdAt") then td !! "createdAt"
       else Some (VTime (now env))).
Proof.
  intros Hig.
  destruct (to_doc_ignoring env _ Hig
              (migrated_tokenData_keys env transactionId adminUserId td))
    as (token & Htoken & Hin & _).
  exists token. split; [done|]. split.
  - intros k Hk. apply Hin. unfold copied_fields in Hk. unfold migrated_tokenData.
    repeat (apply elem_of_cons in Hk as [->|Hk]);
      [in_list..|by apply elem_of_nil in Hk].
  - apply Hin. unfold migrated_tokenData. in_list.
Qed.

Lemma migrate_run env transactionId adminUserId db td token :
  transactionId <> "" -> transactions db !! transactionId = Some td ->
  fails env CGetDoc = false -> fails env CAddDoc = false ->
  to_doc env (migrated_tokenData env transactionId adminUserId td) = inr token ->
  let id := fresh (dom (unifiedTokens db)) in
  migrateTransactionToTokenAction env transactionId adminUserId db
  = if fails env CUpdateDoc
    then (mkDb (users db) (<[id := token]> (unifiedTokens db)) (transactions db),
          inr (Failure "Migration başarısız"))
    else (mkDb (users db) (<[id := token]> (unifiedTokens db))
            (<[transactionId := apply_update (migrated_data env id adminUserId) td]>
               (transactions db)),
          inr (if fails env CRevalidatePath then Failure "Migration başarısız"
               else Success (PTokenId id))).
Proof.
  intros Hid Htd Hget Hadd Htoken id.
  unfold migrateTransactionToTokenAction, migrateTransactionToTokenAction_try.
  rewrite doc_nonempty by done.
  run_calls. rewrite Hget. cbn [coll]. rewrite Htd, Htoken, Hadd.
  cbn [coll set_coll unifiedTokens transactions users].
  destruct (fails env CUpdateDoc); [done|].
  unfold apply_write. cbn [fst snd coll set_coll transactions]. rewrite Htd.
  cbn [set_coll users unifiedTokens transactions].
  by destruct (fails env CRevalidatePath).
Qed.

(** X8. A migration copies the status of the legacy transaction, whatever it
    is, with the user, type and amount, to a new token and marks the
    transaction; users are not touched, so a transaction migrated as
    approved changes no balance. *)
Theorem migrateTransaction_copies t transactionId adminUserId db td :
  transactionId <> "" -> transactions db !! transactionId = Some td ->
  exists id token td',
    migrateTransactionToTokenAction (reliable t true) transactionId adminUserId db
    = (mkDb (users db) (<[id := token]> (unifiedTokens db))
         (<[transactionId := td']> (transactions db)),
       inr (Success (PTokenId id))) /\
    unifiedTokens db !! id = None /\
    (forall k, k ∈ copied_fields -> token !! k = td !! k) /\
    td' !! "migratedToToken" = Some (VStr id) /\
    td' !! "migratedBy" = Some (VStr adminUserId) /\
    td' !! "migratedAt" = Some (VTime t) /\
    forall k, k ∉ ["migratedToToken"; "migratedAt"; "migratedBy"] ->
              td' !! k = td !! k.
Proof.
  intros Hid Htd.
  destruct (migrated_token (reliable t true) transactionId adminUserId td eq_refl)
    as (token & Htoken & Hcopied & _).
  exists (fresh (dom (unifiedTokens db))), token. eexists.
  split; [|split; [|split; [done|]]].
  - by rewrite (migrate_run (reliable t true) _ _ _ _ _ Hid Htd eq_refl eq_refl Htoken).
  - apply not_elem_of_dom, is_fresh.
  - unfold migrated_data.
    cbn [apply_update fold_left update_path apply_field fst snd now reliable].
    repeat split.
    + by repeat (rewrite lookup_insert_ne by done); rewrite lookup_insert_eq.
    + by rewrite lookup_insert_eq.
    + by repeat (rewrite lookup_insert_ne by done); rewrite lookup_insert_eq.
    + intros k Hk. repeat (rewrite not_elem_of_cons in Hk).
      destruct Hk as (? & ? & ? & _).
      by repeat (rewrite lookup_insert_ne by done).
Qed.

(** X9. A migration is two separate writes: when the token has been added
    and the update of the transaction is then rejected, the action reports
    a failure, the new token stays and the transaction carries no mark. *)
Theorem migrateTransaction_not_atomic env transactionId adminUserId db td :
  transactionId <> "" -> transactions db !! transactionId = Some td ->
  ignoreUndefinedProperties env = true ->
  fails env CGetDoc = false -> fails env CAddDoc = false ->
  fails env CUpdateDoc = true ->
  exists id token,
    migrateTransactionToTokenAction env transactionId adminUserId db
    = (mkDb (users db) (<[id := token]> (unifiedTokens db)) (transactions db),
       inr (Failure "Migration başarısız")) /\
    unifiedTokens db !! id = None /\
    forall k, k ∈ copied_fields -> token !! k = td !! k.
Proof.
  intros Hid Htd Hig Hget Hadd Hupd.
  destruct (migrated_token env transactionId adminUserId td Hig)
    as (token & Htoken & Hcopied & _).
  exists (fresh (dom (unifiedTokens db))), token. split; [|split; [|done]].
  - by rewrite (migrate_run _ _ _ _ _ _ Hid Htd Hget Hadd Htoken), Hupd.
  - apply not_elem_of_dom, is_fresh.
Qed.

(** X10. Nothing stops a second migration of the same transaction: it makes
    a second token with the same copied fields under another id. *)
Theorem migrateTransaction_twice t t' transactionId adminUserId adminUserId' db td :
  transactionId <> "" -> transactions db !! transactionId = Some td ->
  exists id token db1 id' token' db2,
    migrateTransactionToTokenAction (reliable t true) transactionId adminUserId db
    = (db1, inr (Success (PTokenId id))) /\
    migrateTransactionToTokenAction (reliable t' true) transactionId adminUserId' db1
    = (db2, inr (Success (PTokenId id'))) /\
    id <> id' /\
    unifiedTokens db2 !! id = Some token /\
    unifiedTokens db2 !! id' = Some token' /\
    forall k, k ∈ ["userId"; "type"; "amount"; "status"] ->
              token !! k = td !! k /\ token' !! k = td !! k.
Proof.
  intros Hid Htd.
  destruct (migrated_token (reliable t true) transactionId adminUserId td eq_refl)
    as (token & Htoken & Hcopied & _).
  pose proof (migrate_run (reliable t true) _ _ _ _ _ Hid Htd eq_refl eq_refl Htoken) as Hrun.
  cbn [fails reliable] in Hrun.
  set (id := fresh (dom (unifiedTokens db))) in *.
  set (td1 := apply_update (migrated_data (reliable t true) id adminUserId) td) in *.
  set (db1 := mkDb (users db) (<[id := token]> (unifiedTokens db))
                (<[transactionId := td1]> (transactions db))) in *.
  assert (transactions db1 !! transactionId = Some td1) as Htd1
    by apply lookup_insert_eq.
  destruct (migrated_token (reliable t' true) transactionId adminUserId' td1 eq_refl)
    as (token' & Htoken' & Hcopied' & _).
  pose proof (migrate_run (reliable t' true) _ _ _ _ _ Hid Htd1 eq_refl eq_refl Htoken') as Hrun'.
  cbn [fails reliable] in Hrun'.
  set (id' := fresh (dom (unifiedTokens db1))) in *.
  assert (id' <> id) as Hne.
  { apply (fresh_token_ne db1 id token). apply lookup_insert_eq. }
  exists id, token, db1, id', token'. eexists.
  split; [exact Hrun|]. split; [exact Hrun'|]. split; [done|].
  cbn [unifiedTokens db1]. split; [|split].
  - rewrite lookup_insert_ne by done. apply lookup_insert_eq.
  - apply lookup_insert_eq.
  - intros k Hk. split.
    + apply Hcopied. unfold copied_fields.
      repeat (apply elem_of_cons in Hk as [->|Hk]);
        [in_list..|by apply elem_of_nil in Hk].
    + repeat (apply elem_of_cons in Hk as [->|Hk]);
        [..|by apply elem_of_nil in Hk];
        (rewrite Hcopied' by (unfold copied_fields; in_list));
        unfold td1, migrated_data;
        cbn [apply_update fold_left update_path apply_field fst snd];
        by repeat (rewrite lookup_insert_ne by done).
Qed.

(** X11. A migration of a transaction that does not exist reports that, and
    changes nothing. *)
Theorem migrateTransaction_missing env transactionId adminUserId db :
  transactionId <> "" -> transactions db !! transactionId = None ->
  fails env CGetDoc = false ->
  migrateTransactionToTokenAction env transactionId adminUserId db
  = (db, inr (Failure "Transaction bulunamadı")).
Proof.
  intros Hid Htd Hget.
  unfold migrateTransactionToTokenAction, migrateTransactionToTokenAction_try.
  rewrite doc_nonempty by done.
  run_calls. rewrite Hget. cbn [coll]. by rewrite Htd.
Qed.

Lemma migrateTransaction_copies_witness :
  exists id token td',
    migrateTransactionToTokenAction (reliable 100 true) "tx1" "admin"
      example_legacy_db
    = (mkDb (users example_legacy_db)
         (<[id := token]> (unifiedTokens example_legacy_db))
         (<["tx1" := td']> (transactions example_legacy_db)),
       inr (Success (PTokenId id))) /\
    unifiedTokens example_legacy_db !! id = None /\
    (forall k, k ∈ copied_fields ->
       token !! k = example_transaction !! k) /\
    td' !! "migratedToToken" = Some (VStr id) /\
    td' !! "migratedBy" = Some (VStr "admin") /\
    td' !! "migratedAt" = Some (VTime 100) /\
    forall k, k ∉ ["migratedToToken"; "migratedAt"; "migratedBy"] ->
       td' !! k = example_transaction !! k.
Proof.
  apply (migrateTransaction_copies 100 "tx1" "admin" example_legacy_db).
  - discriminate.
  - reflexivity.
Defined.

Lemma migrateTransaction_not_atomic_witness :
  exists id token,
    migrateTransactionToTokenAction (no_updates 100) "tx1" "admin" example_legacy_db
    = (mkDb (users example_legacy_db)
         (<[id := token]> (unifiedTokens example_legacy_db))
         (transactions example_legacy_db),
       inr (Failure "Migration başarısız")) /\
    unifiedTokens example_legacy_db !! id = None /\
    forall k, k ∈ copied_fields ->
       token !! k = example_transaction !! k.
Proof.
  apply (migrateTransaction_not_atomic (no_updates 100) "tx1" "admin"
           example_legacy_db).
  - discriminate.
  - reflexivity.
  - reflexivity.
  - reflexivity.
  - reflexivity.
  - reflexivity.
Defined.

Lemma migrateTransaction_twice_witness :
  exists id token db1 id' token' db2,
    migrateTransactionToTokenAction (reliable 100 true) "tx1" "admin"
      example_legacy_db
    = (db1, inr (Success (PTokenId id))) /\
    migrateTransactionToTokenAction (reliable 200 true) "tx1" "root" db1
    = (db2, inr (Success (PTokenId id'))) /\
    id <> id' /\
    unifiedTokens db2 !! id = Some token /\
    unifiedTokens db2 !! id' = Some token' /\
    forall k, k ∈ ["userId"; "type"; "amount"; "status"] ->
       token !! k = example_transaction !! k /\
       token' !! k = example_transaction !! k.
Proof.
  apply (migrateTransaction_twice 100 200 "tx1" "admin" "root" example_legacy_db).
  - discriminate.
  - reflexivity.
Defined.

Lemma migrateTransaction_missing_witness :
  migrateTransactionToTokenAction (reliable 100 true) "tx2" "admin" example_legacy_db
  = (example_legacy_db, inr (Failure "Transaction bulunamadı")).
Proof.
  apply (migrateTransaction_missing (reliable 100 true) "tx2" "admin"
           example_legacy_db).
  - discriminate.
  - reflexivity.
  - reflexivity.
Defined.

(** An object with an [undefined] property is rejected by a database that
    does not leave such properties out. *)
Lemma to_doc_undefined env (o : JsObject) k :
  ignoreUndefinedProperties env = false -> (k, None) ∈ o ->
  exists e, to_doc env o = inl e.
Proof.
  intros Hig. induction o as [|[k0 [v0|]] o IH]; intros Hin.
  - by apply elem_of_nil in Hin.
  - apply elem_of_cons in Hin as [[=]|Hin].
    destruct (IH Hin) as (e & He). exists e. cbn [to_doc]. by rewrite He.
  - cbn [to_doc]. rewrite Hig. eauto.
Qed.

(** X12. On a database that does not leave undefined properties out, a
    legacy transaction that lacks one of the copied fields, as a pending
    one lacks [approvedAt], cannot be migrated: the action fails and
    changes nothing. *)
Theorem migrateTransaction_needs_all_fields env transactionId adminUserId db td k :
  ignoreUndefinedProperties env = false ->
  transactions db !! transactionId = Some td ->
  k ∈ copied_fields -> td !! k = None ->
  migrateTransactionToTokenAction env transactionId adminUserId db
  = (db, inr (Failure "Migration başarısız")).
Proof.
  intros Hig Htd Hk Hnone.
  destruct (to_doc_undefined env
              (migrated_tokenData env transactionId adminUserId td) k Hig)
    as (e & He).
  { unfold migrated_tokenData. unfold copied_fields in Hk.
    repeat (apply elem_of_cons in Hk as [->|Hk]);
      [rewrite Hnone; in_list..|by apply elem_of_nil in Hk]. }
  unfold migrateTransactionToTokenAction. run_calls.
  destruct (String.eqb transactionId ""); [done|].
  destruct (fails env CGetDoc); [done|].
  cbn [coll]. by rewrite Htd, He.
Qed.

Lemma migrateTransaction_needs_all_fields_witness :
  migrateTransactionToTokenAction (reliable 100 false) "tx1" "admin"
    example_legacy_db
  = (example_legacy_db, inr (Failure "Migration başarısız")).
Proof.
  apply (migrateTransaction_needs_all_fields (reliable 100 false) "tx1" "admin"
           example_legacy_db example_transaction "approvedAt").
  - reflexivity.
  - reflexivity.
  - in_list.
  - reflexivity.
Defined.

(** ** The token statistics *)

Lemma count_where_cons f s (a : Doc) l :
  count_where f s (a :: l)
  = ((if matches (WhereEq f s) a then 1%nat else 0%nat) + count_where f s l)%nat.
Proof. unfold count_where. cbn [List.filter]. by destruct (matches _ a). Qed.


Lemma sum_list_cons (x : nat) l : sum_list (x :: l) = (x + sum_list l)%nat.
Proof. reflexivity. Qed.

(** A document matches at most one of several different values of a field. *)
Lemma matches_one f (a : Doc) names :
  NoDup names ->
  (sum_list (map (fun s => if matches (WhereEq f s) a then 1%nat else 0%nat) names) <= 1)%nat
  /\ (forall x, str_field f a = Some x -> x ∈ names ->
        sum_list (map (fun s => if matches (WhereEq f s) a then 1%nat else 0%nat) names)
        = 1%nat).
Proof.
  induction 1 as [|s names Hs Hnd [IHle IHeq]]; cbn [map]; rewrite ?sum_list_cons.
  - change (sum_list []) with 0%nat. split; [lia|].
    intros x _ Hx. by apply elem_of_nil in Hx.
  - unfold matches at 1 3. destruct (str_field f a) as [x|] eqn:Hx.
    + cbv beta iota. destruct (String.eqb_spec x s) as [->|Hne].
      * assert (sum_list (map (fun s0 => if matches (WhereEq f s0) a then 1%nat else 0%nat)
                            names) = 0%nat) as ->.
        { clear IHle IHeq Hnd. induction names as [|s' names IH]; [done|].
          apply not_elem_of_cons in Hs as [Hne Hs]. cbn [map]. rewrite sum_list_cons.
          rewrite (IH Hs). unfold matches. rewrite Hx.
          by destruct (String.eqb_spec s s'). }
        split; [lia|]. intros; lia.
      * split; [lia|]. intros y [= ->] [->|Hy]%elem_of_cons; [done|].
        rewrite (IHeq _ eq_refl Hy). lia.
    + cbv beta iota. split; [lia|]. intros; discriminate.
Qed.

Lemma count_where_disjoint f names l :
  NoDup names ->
  (sum_list (map (fun s => count_where f s l) names) <= length l)%nat /\
  ((forall d, d ∈ l -> exists x, str_field f d = Some x /\ x ∈ names) ->
   sum_list (map (fun s => count_where f s l) names) = length l).
Proof.
  intros Hnd.
  assert (forall a l,
    sum_list (map (fun s => count_where f s (a :: l)) names)
    = (sum_list (map (fun s => if matches (WhereEq f s) a then 1%nat else 0%nat) names)
       + sum_list (map (fun s => count_where f s l) names))%nat) as Hcons.
  { intros a l'. clear Hnd. induction names as [|s names IH]; [done|].
    cbn [map]. rewrite !sum_list_cons, IH, count_where_cons. lia. }
  induction l as [|a l [IHle IHeq]].
  - split; [|intros _]; clear; induction names; cbn in *; lia.
  - rewrite Hcons. cbn [length].
    destruct (matches_one f a names Hnd) as [Hle Heq]. split; [lia|].
    intros Hall. rewrite IHeq.
    + destruct (Hall a) as (x & Hx & Hin); [left|].
      rewrite (Heq x Hx Hin). lia.
    + intros d Hd. apply Hall. by right.
Qed.

(** A query without filter, order and limit returns the whole collection. *)
Lemma run_query_everything c db :
  run_query (mkQuery c [] ByName None) db ≡ₚ map_to_list (coll c db).
Proof.
  unfold run_query. cbn [q_limit q_order q_coll].
  rewrite merge_sort_Permutation.
  assert (forall l : list (string * Doc),
            List.filter (selects (mkQuery c [] ByName None)) l = l) as ->; [|done].
  induction l as [|x l IH]; [done|]. cbn. by rewrite IH.
Qed.

(** X13. The statistics count every token once in the total; the four status
    counts add up to at most the total, and to the total when every token
    carries one of the four statuses; so do the counts by type. *)
Theorem getTokenStatistics_counts t ig db :
  exists st,
    getTokenStatisticsAction (reliable t ig) db = (db, inr (Success (PStats st))) /\
    st_total st = size (unifiedTokens db) /\
    (st_pending st + st_approved st + st_rejected st + st_expired st
       <= st_total st)%nat /\
    ((forall id d, unifiedTokens db !! id = Some d ->
        exists s, str_field "status" d = Some (status_name s)) ->
     (st_pending st + st_approved st + st_rejected st + st_expired st)%nat
     = st_total st) /\
    (sum_list (st_byType st).*2 <= st_total st)%nat /\
    ((forall id d, unifiedTokens db !! id = Some d ->
        exists ty, str_field "type" d = Some (type_name ty)) ->
     sum_list (st_byType st).*2 = st_total st).
Proof.
  eexists. split; [reflexivity|]. cbn [st_total st_pending st_approved st_rejected
    st_expired st_byType].
  set (l := map snd (run_query (mkQuery UnifiedTokens [] ByName None) db)).
  assert (forall d, d ∈ l -> exists id, unifiedTokens db !! id = Some d) as Hl.
  { intros d (x & -> & Hx)%list_elem_of_fmap.
    rewrite run_query_everything in Hx. destruct x as [id d].
    apply elem_of_map_to_list in Hx. by exists id. }
  assert (NoDup status_names) as Hst
    by (apply (bool_decide_unpack _); vm_compute; exact I).
  assert (NoDup (map type_name all_types)) as Hty
    by (apply (bool_decide_unpack _); vm_compute; exact I).
  destruct (count_where_disjoint "status" status_names l Hst) as [Hle Heq].
  destruct (count_where_disjoint "type" (map type_name all_types) l Hty)
    as [Hle' Heq'].
  assert ((map (fun ty => (type_name ty, count_where "type" (type_name ty) l))
             all_types).*2
          = map (fun s => count_where "type" s l) (map type_name all_types))
    as -> by reflexivity.
  cbn [status_names map status_name] in Hle, Heq.
  rewrite !sum_list_cons in Hle, Heq. change (sum_list []) with 0%nat in Hle, Heq.
  split; [|split; [lia|split; [|split; [done|]]]].
  - unfold l. rewrite length_map, run_query_everything.
    by rewrite length_map_to_list.
  - intros Hall. rewrite <- Heq; [lia|].
    intros d Hd. destruct (Hl d Hd) as (id & Hid).
    destruct (Hall id d Hid) as (s & Hs). exists (status_name s). split; [done|].
    destruct s; in_list.
  - intros Hall. apply Heq'.
    intros d Hd. destruct (Hl d Hd) as (id & Hid).
    destruct (Hall id d Hid) as (ty & Hs). exists (type_name ty). split; [done|].
    destruct ty; in_list.
Qed.

(** ** The referral analysis and the pending commissions *)



(** A document that the query of a positive limit selects is not left with
    an empty result. *)
Lemma run_query_nonempty q db x n :
  q_limit q = Some (S n) ->
  coll (q_coll q) db !! x.1 = Some x.2 -> selects q x = true ->
  run_query q db <> [].
Proof.
  intros Hlim Hx Hsel Hnil.
  pose proof (run_query_length_limit q db _ Hlim) as Hlen.
  rewrite Hnil in Hlen. cbn [length] in Hlen.
  assert (x ∈ List.filter (selects q) (map_to_list (coll (q_coll q) db))) as Hin.
  { apply list_elem_of_In, filter_In. split; [|done].
    destruct x. by apply list_elem_of_In, elem_of_map_to_list. }
  destruct (List.filter _ _); [by apply elem_of_nil in Hin|].
  cbn [length] in Hlen. lia.
Qed.

Lemma getPendingReferralCommissions_run env db :
  fails env CGetDocs = false ->
  getPendingReferralCommissionsAction env db
  = (db, inr (match run_query pendingQuery db with
              | [] => Success (PCommissions [])
              | _ :: _ => Failure "Bekleyen komisyonlar alınamadı"
              end)).
Proof.
  intros Hget. unfold getPendingReferralCommissionsAction. run_calls.
  rewrite Hget. fold pendingQuery. by destruct (run_query pendingQuery db).
Qed.

Lemma selects_pending_commission x :
  selects pendingQuery x = true -> pending_commission x.2.
Proof.
  unfold selects, pendingQuery, pending_commission, matches.
  cbn [q_where q_order forallb].
  intros H. repeat (apply andb_prop in H as [H ?]).
  destruct (str_field "type" x.2) as [ty|]; [|done].
  destruct (str_field "status" x.2) as [st|]; [|done].
  rewrite andb_true_r in *. apply String.eqb_eq in H. by apply String.eqb_eq in H1 as ->; subst.
Qed.

(** X15. The list of pending referral commissions can only be empty. With a
    pending referral commission that has the time of its creation in the
    ledger, the loop calls its own loop variable [doc], and the action
    reports a failure; without any pending referral commission the action
    returns the empty list. *)
Theorem getPendingReferralCommissions_only_empty env db :
  fails env CGetDocs = false ->
  ((exists id d, unifiedTokens db !! id = Some d /\ pending_commission d /\
                 is_Some (time_field "createdAt" d)) ->
   getPendingReferralCommissionsAction env db
   = (db, inr (Failure "Bekleyen komisyonlar alınamadı"))) /\
  ((forall id d, unifiedTokens db !! id = Some d -> ~ pending_commission d) ->
   getPendingReferralCommissionsAction env db
   = (db, inr (Success (PCommissions [])))).
Proof.
  intros Hget. rewrite (getPendingReferralCommissions_run env db Hget). split.
  - intros (id & d & Hd & [Hty Hst] & Hc).
    assert (selects pendingQuery (id, d) = true) as Hsel.
    { unfold selects, pendingQuery, matches.
      cbn [q_where q_order forallb has_order_field snd].
      rewrite Hty, Hst. by destruct Hc as [c ->]. }
    pose proof (run_query_nonempty pendingQuery db (id, d) 99 eq_refl Hd Hsel).
    by destruct (run_query pendingQuery db).
  - intros Hnone. rewrite (run_query_nil pendingQuery db); [done|].
    intros id d Hd. apply not_true_is_false. intros Hsel.
    by apply (Hnone id d Hd), (selects_pending_commission (id, d)).
Qed.

Lemma commission_token_selected env userId amount referrerId id :
  selects pendingQuery (id, commission_tokenData env userId amount referrerId) = true.
Proof. reflexivity. Qed.

Lemma getPendingReferralCommissions_only_empty_witness :
  getPendingReferralCommissionsAction (reliable 100 false) example_commission_db
  = (example_commission_db, inr (Failure "Bekleyen komisyonlar alınamadı")) /\
  getPendingReferralCommissionsAction (reliable 100 false) example_db
  = (example_db, inr (Success (PCommissions []))).
Proof.
  split.
  - apply (proj1 (getPendingReferralCommissions_only_empty (reliable 100 false)
                    example_commission_db eq_refl)).
    exists "t4", (example_token "referral_commission" "pending" "alice" 0.5 4 1000).
    split; [reflexivity|]. split; [split; reflexivity|]. by exists 4.
  - apply (proj2 (getPendingReferralCommissions_only_empty (reliable 100 false)
                    example_db eq_refl)).
    apply (bool_decide_unpack
             (map_Forall (fun _ d => ~ pending_commission d)
                (unifiedTokens example_db))).
    vm_compute. exact I.
Defined.

Lemma deposit_keeps_balances env userId amount code db uid :
  balance_at (processDepositReferralAction env userId amount code db).1 uid
  = balance_at db uid.
Proof.
  destruct (run_step unifiedTokenActions_imports env
              (ProcessDepositReferral userId amount code) db)
    as [Heq|(ws & Hstep & Hc)].
  - cbn [run_in] in Heq. by rewrite Heq.
  - cbn [run_in] in Hc. by destruct (step_balance _ _ _ _ _ _ uid Hstep Hc).
Qed.

Lemma commission_data_stats a (d d0 : Doc) :
  d !! "referralStats" = d0 !! "referralStats" ->
  apply_update (commission_data a) d !! "referralStats"
  = apply_update (commission_data a) d0 !! "referralStats".
Proof.
  intros H. unfold commission_data.
  rewrite !apply_update_cons, !apply_update_nil. cbn [fst snd].
  rewrite !update_path_nested, !update_path_field.
  rewrite !lookup_insert_eq.
  rewrite !(lookup_insert_ne _ "balance" "referralStats") by done.
  by rewrite H.
Qed.

(** X16. A referral commission from deposit to payout: the deposit makes a
    pending commission token for the referrer and changes no balance; from
    then on the list of pending commissions fails; approving the token
    increments the balance of the referrer by 5% of the deposit, and the
    statistics of the referrer are those after the update of the deposit
    and then the update of the approval: the commission is added to the
    total and to the pending ones, then to the approved ones, and its
    negation to the pending ones. *)
Theorem referral_commission_end_to_end t ig t' ig' env userId depositAmount code
    adminUserId db referrerId referrerData rest userData :
  code <> "" ->
  users db !! "" = None -> unifiedTokens db !! "" = None ->
  run_query (referrerQuery code) db = (referrerId, referrerData) :: rest ->
  users db !! referrerId = Some referrerData ->
  users db !! userId = Some userData ->
  fails env CGetDocs = false ->
  let commission := (depositAmount * commissionRate)%float in
  exists db1 id db2 referrerData',
    processDepositReferralAction (reliable t ig) userId depositAmount (Some code) db
    = (db1, inr (Success (PCommissionAmount commission))) /\
    balance_at db1 referrerId = balance_at db referrerId /\
    getPendingReferralCommissionsAction env db1
    = (db1, inr (Failure "Bekleyen komisyonlar alınamadı")) /\
    approveReferralCommissionAction (reliable t' ig') id adminUserId db1
    = (db2, inr (Success PUnit)) /\
    users db2 !! referrerId = Some referrerData' /\
    balance_of referrerData' = incremented "balance" commission referrerData /\
    stats_updated
      (referrer_data (reliable t ig) commission ++ commission_data commission)%list
      referrerData referrerData'.
Proof.
  intros Hcode Hu0 Ht0 Hq Hr Hu Hget commission.
  destruct (processDepositReferral_commits t ig userId depositAmount code db
              referrerId referrerData rest userData Hcode Hu0 Hq Hr Hu)
    as (db1 & Hrun & Htok & r1 & Hr1 & Hd1).
  pose proof (deposit_keeps_balances (reliable t ig) userId depositAmount
                (Some code) db referrerId) as Hbal.
  rewrite Hrun in Hbal. cbn [fst] in Hbal.
  set (id := fresh (dom (unifiedTokens db))) in *.
  set (token := commission_tokenData (reliable t ig) userId depositAmount
                  referrerId) in *.
  assert (unifiedTokens db1 !! id = Some token) as Hid
    by (rewrite Htok; apply lookup_insert_eq).
  assert (users db1 !! "" = None) as Hu0'.
  { pose proof (run_creates_only_tokens unifiedTokenActions_imports
                  (reliable t ig)
                  (ProcessDepositReferral userId depositAmount (Some code)) db
                  Users ltac:(done)) as Hdom.
    cbn [run_in] in Hdom. rewrite Hrun in Hdom.
    apply not_elem_of_dom. cbn [coll fst] in Hdom. rewrite Hdom.
    by apply not_elem_of_dom. }
  assert (unifiedTokens db1 !! "" = None) as Ht0'.
  { rewrite Htok, lookup_insert_ne; [done|]. apply fresh_id_nonempty. }
  destruct (approveReferralCommission_applies t' ig' id adminUserId db1 token
              referrerId r1 Hu0' Ht0' Hid eq_refl eq_refl Hr1)
    as (db2 & Happ & Hus2 & _).
  change (js_number (token !! "amount")) with commission in Hus2.
  exists db1, id, db2, (apply_update (commission_data commission) r1).
  split; [done|]. split; [done|]. split; [|split; [done|split; [|split]]].
  - rewrite (getPendingReferralCommissions_run env db1 Hget).
    pose proof (run_query_nonempty pendingQuery db1 (id, token) 99 eq_refl Hid
                  (commission_token_selected _ _ _ _ _)).
    by destruct (run_query pendingQuery db1).
  - by rewrite Hus2, lookup_insert_eq.
  - rewrite commission_data_balance. unfold incremented. do 2 f_equal.
    unfold balance_at in Hbal. rewrite Hr1, Hr in Hbal. exact Hbal.
  - unfold stats_updated. rewrite apply_update_app.
    by apply commission_data_stats.
Qed.

Lemma example_referrer :
  run_query (referrerQuery "ABC") example_db = [("alice", example_user 10 "ABC")].
Proof. reflexivity. Qed.

Lemma referral_commission_end_to_end_witness :
  exists db1 id db2 referrerData',
    processDepositReferralAction (reliable 100 false) "bob" 100 (Some "ABC")
      example_db
    = (db1, inr (Success (PCommissionAmount (100 * commissionRate)))) /\
    balance_at db1 "alice" = balance_at example_db "alice" /\
    getPendingReferralCommissionsAction (reliable 150 false) db1
    = (db1, inr (Failure "Bekleyen komisyonlar alınamadı")) /\
    approveReferralCommissionAction (reliable 200 false) id "admin" db1
    = (db2, inr (Success PUnit)) /\
    users db2 !! "alice" = Some referrerData' /\
    balance_of referrerData'
    = incremented "balance" (100 * commissionRate) (example_user 10 "ABC") /\
    stats_updated
      (referrer_data (reliable 100 false) (100 * commissionRate)
       ++ commission_data (100 * commissionRate))%list
      (example_user 10 "ABC") referrerData'.
Proof.
  apply (referral_commission_end_to_end 100 false 200 false (reliable 150 false)
           "bob" 100 "ABC" "admin" example_db "alice" (example_user 10 "ABC") []
           (example_user 3 "XYZ")).
  - discriminate.
  - reflexivity.
  - reflexivity.
  - exact example_referrer.
  - reflexivity.
  - reflexivity.
  - reflexivity.
Defined.

(** ** Approvals *)

(** X17. As the token module stands, [approveTokenAction] succeeds only on a
    pending token that is a raffle entry or has no known type, and it never
    changes a user document: no approval through it pays out. *)
Theorem approveToken_never_pays env tokenId adminUserId notes db :
  users (approveTokenAction env tokenId adminUserId notes db).1 = users db /\
  forall p,
    (approveTokenAction env tokenId adminUserId notes db).2 = inr (Success p) ->
    exists d, unifiedTokens db !! tokenId = Some d /\ pending_doc d /\
              (switch_type d = Some RaffleEntry \/ switch_type d = None).
Proof.
  unfold approveTokenAction, approveTokenAction_in. run_calls.
  destruct (String.eqb tokenId ""); [by split|].
  destruct (fails env CGetDoc); [by split|].
  cbn [coll]. destruct (unifiedTokens db !! tokenId) as [d|] eqn:Hd; [|by split].
  destruct (status_is Pending d) eqn:Hp; [|by split]. cbn [negb].
  destruct (fails env CRunTransaction); [by split|].
  unfold approveToken_callback, increment.
  change (in_scope unifiedTokenActions_imports "increment") with false.
  destruct (doc Users (str_field "userId" d)) as [e|userRef]; [by split|].
  cbv beta iota zeta delta [exc_bind].
  destruct (type_of_string (default "" (str_field "type" d))) as [[]|] eqn:Hty;
    try (by split).
  - rewrite commit_single. unfold apply_write. cbn [fst snd coll]. rewrite Hd.
    cbn [set_coll users]. split; [by cases|].
    intros p _. exists d. split; [done|]. split; [done|]. by left.
  - rewrite commit_single. unfold apply_write. cbn [fst snd coll]. rewrite Hd.
    cbn [set_coll users]. split; [by cases|].
    intros p _. exists d. split; [done|]. split; [done|]. by right.
Qed.

(** X18. A pending raffle entry is approved by [approveTokenAction]: the
    token gets the status, the time, the admin and the notes (or the empty
    string), and nothing else changes; the owner need not exist. *)
Theorem approveToken_raffle_entry t ig tokenId adminUserId notes db d owner :
  tokenId <> "" -> unifiedTokens db !! tokenId = Some d -> pending_doc d ->
  str_field "type" d = Some "raffle_entry" ->
  str_field "userId" d = Some owner -> owner <> "" ->
  exists d',
    approveTokenAction (reliable t ig) tokenId adminUserId notes db
    = (set_coll UnifiedTokens (<[tokenId := d']> (unifiedTokens db)) db,
       inr (Success PUnit)) /\
    status_of d' = Some (VStr "approved") /\
    d' !! "approvedAt" = Some (VTime t) /\
    d' !! "approvedBy" = Some (VStr adminUserId) /\
    d' !! "adminNotes" = Some (VStr (default "" notes)) /\
    forall k, k ∉ ["status"; "approvedAt"; "approvedBy"; "adminNotes"] ->
              d' !! k = d !! k.
Proof.
  intros Hid Hd Hp Hty Ho Hown.
  exists (apply_update (approve_data (reliable t ig) adminUserId notes) d).
  split.
  - apply (approveToken_raffle_run _ t ig tokenId adminUserId notes db d owner);
      try done.
    unfold switch_type. by rewrite Hty.
  - unfold approve_data, status_of.
    cbn [apply_update fold_left update_path apply_field fst snd now reliable].
    repeat split.
    + by repeat (rewrite lookup_insert_ne by done); rewrite lookup_insert_eq.
    + by repeat (rewrite lookup_insert_ne by done); rewrite lookup_insert_eq.
    + by repeat (rewrite lookup_insert_ne by done); rewrite lookup_insert_eq.
    + by rewrite lookup_insert_eq.
    + intros k Hk. repeat (rewrite not_elem_of_cons in Hk).
      destruct Hk as (? & ? & ? & ? & _).
      by repeat (rewrite lookup_insert_ne by done).
Qed.

Lemma approveToken_raffle_entry_witness :
  exists d',
    approveTokenAction (reliable 100 false) "t2" "admin" None example_db
    = (set_coll UnifiedTokens (<["t2" := d']> (unifiedTokens example_db)) example_db,
       inr (Success PUnit)) /\
    status_of d' = Some (VStr "approved") /\
    d' !! "approvedAt" = Some (VTime 100) /\
    d' !! "approvedBy" = Some (VStr "admin") /\
    d' !! "adminNotes" = Some (VStr "") /\
    forall k, k ∉ ["status"; "approvedAt"; "approvedBy"; "adminNotes"] ->
              d' !! k = example_token "raffle_entry" "pending" "alice" 5 2 500 !! k.
Proof.
  apply (approveToken_raffle_entry 100 false "t2" "admin" None example_db
           (example_token "raffle_entry" "pending" "alice" 5 2 500) "alice").
  - discriminate.
  - reflexivity.
  - reflexivity.
  - reflexivity.
  - reflexivity.
  - discriminate.
Defined.



(** ** A second sweep *)

Lemma due_mono t t' (d : Doc) : t' <= t -> due t' d = true -> due t d = true.
Proof.
  unfold due. intros Hle [Hp He]%andb_true_iff. rewrite Hp. cbn.
  destruct (time_field "expiresAt" d) as [e|]; [|done].
  apply Z.leb_le in He. apply Z.leb_le. lia.
Qed.

Lemma expired_not_due env t (d : Doc) : due t (apply_update (expire_data env) d) = false.
Proof.
  unfold due, status_is. pose proof (expire_data_status env d) as Hs.
  unfold status_of in Hs. by rewrite Hs.
Qed.

(** X20. After a sweep that found at most 100 due tokens no token is due any
    more: a second sweep, at the same time or an earlier one, marks nothing
    and leaves the ledger as the first one left it. *)
Theorem cleanup_twice t ig t' ig' db :
  (length (List.filter (fun x => due t x.2) (map_to_list (unifiedTokens db)))
     <= 100)%nat ->
  t' <= t ->
  exists db' n,
    cleanupExpiredTokensAction (reliable t ig) db
    = (db', inr (Success (PDeleted n))) /\
    (forall id d, unifiedTokens db' !! id = Some d -> due t d = false) /\
    cleanupExpiredTokensAction (reliable t' ig') db'
    = (db', inr (Success (PDeleted 0))).
Proof.
  intros Hlen Hle. set (env := reliable t ig).
  set (marked := (run_query (expiredQuery env) db).*1).
  assert (List.filter (selects (expiredQuery env)) (map_to_list (unifiedTokens db))
          = List.filter (fun x => due t x.2) (map_to_list (unifiedTokens db)))
    as Hfilter.
  { apply List.filter_ext. intros x. apply selects_due. }
  destruct (commit_updates UnifiedTokens (expire_data env) marked
              (run_query_NoDup _ _) db) as (db' & Hc & Hother & Hlook).
  { intros i Hi. apply list_elem_of_fmap in Hi as (x & -> & Hx).
    apply run_query_elem in Hx as [Hx _]. cbn in Hx. eauto. }
  cbn [coll] in Hlook.
  assert (forall id d, unifiedTokens db' !! id = Some d -> due t d = false)
    as Hnone.
  { intros id d Hd. rewrite Hlook in Hd. case_decide as Hin.
    - apply fmap_Some in Hd as (d0 & _ & ->). apply expired_not_due.
    - destruct (due t d) eqn:Hdue; [|done]. destruct Hin.
      apply list_elem_of_fmap. exists (id, d). split; [done|].
      apply run_query_all; [|done|by rewrite selects_due].
      cbn [q_coll q_limit expiredQuery coll default]. by rewrite Hfilter. }
  exists db', (length (run_query (expiredQuery env) db)).
  split; [|split; [done|]].
  - apply cleanup_run. by rewrite expire_writes.
  - assert (run_query (expiredQuery (reliable t' ig')) db' = []) as Hnil.
    { apply run_query_nil. intros id d Hd. rewrite selects_due.
      cbn [now reliable snd]. destruct (due t' d) eqn:Hdue; [|done].
      rewrite <- (Hnone id d Hd). symmetry. by apply (due_mono t t'). }
    rewrite (cleanup_run t' ig' db' db'); rewrite Hnil; done.
Qed.

Lemma cleanup_twice_witness :
  exists db' n,
    cleanupExpiredTokensAction (reliable 100 false) example_db
    = (db', inr (Success (PDeleted n))) /\
    (forall id d, unifiedTokens db' !! id = Some d -> due 100 d = false) /\
    cleanupExpiredTokensAction (reliable 100 false) db'
    = (db', inr (Success (PDeleted 0))).
Proof.
  apply (cleanup_twice 100 false 100 false example_db).
  - apply (bool_decide_unpack _). vm_compute. exact I.
  - lia.
Defined.

(** ** A processed deposit read back *)

(** The two users after the transaction of a deposit with a referral code. *)
Lemma processDepositReferral_users t ig userId depositAmount code db
    referrerId referrerData rest userData :
  code <> "" ->
  users db !! "" = None ->
  run_query (referrerQuery code) db = (referrerId, referrerData) :: rest ->
  users db !! referrerId = Some referrerData ->
  users db !! userId = Some userData ->
  exists db1 r1 u1,
    processDepositReferralAction (reliable t ig) userId depositAmount (Some code) db
    = (db1, inr (Success (PCommissionAmount (depositAmount * commissionRate)))) /\
    users db1 !! referrerId = Some r1 /\
    users db1 !! userId = Some u1 /\
    r1 !! "referralStats"
    = apply_update (referrer_data (reliable t ig) (depositAmount * commissionRate))
        referrerData !! "referralStats" /\
    u1 !! "referredBy" = Some (VStr referrerId) /\
    u1 !! "referralProcessedAt" = Some (VTime t).
Proof.
  intros Hcode Hempty Hq Hr Hu.
  assert (referrerId <> "") as Hrid by (intros ->; congruence).
  assert (userId <> "") as Huid by (intros ->; congruence).
  apply String.eqb_neq in Hcode.
  set (D1 := referrer_data (reliable t ig) (depositAmount * commissionRate)).
  set (D2 := referred_data (reliable t ig) referrerId).
  destruct (commit_two_users
              (commission_tokenData (reliable t ig) userId depositAmount referrerId)
              (fresh (dom (unifiedTokens db))) referrerId D1 userId D2 db _ _ Hr Hu)
    as (db' & Hc & Htok & Hrefd).
  assert (processDepositReferralAction (reliable t ig) userId depositAmount
            (Some code) db
          = (db', inr (Success (PCommissionAmount (depositAmount * commissionRate)))))
    as Hrun.
  { unfold processDepositReferralAction. run_calls.
    cbn [fmap option_fmap option_map truthy reliable fails default negb].
    rewrite Hcode. cbn [negb]. unfold id. rewrite Hq.
    cbn [coll]. rewrite processDepositReferral_callback_ok by done.
    fold D1 D2. by rewrite Hc. }
  apply commit_cons_inv in Hc as (db1 & _ & Hc).
  apply commit_cons_inv in Hc as (db2 & _ & Hc).
  rewrite commit_single in Hc.
  pose proof (apply_write_update_lookup Users userId D2 db2 db' userId Hc) as Hlook.
  apply apply_write_update in Hc as (u2 & Hu2 & _).
  rewrite decide_True in Hlook by done. cbn [coll] in Hlook, Hu2.
  rewrite Hu2 in Hlook. cbn [fmap option_fmap option_map] in Hlook.
  eexists db', _, (apply_update D2 u2).
  split; [exact Hrun|]. split; [exact Hrefd|]. split; [exact Hlook|].
  split; [|split].
  - case_decide; [|done]. unfold D2, referred_data.
    rewrite apply_update_lookup_ne; [done|]. other_fields.
  - unfold D2, referred_data.
    cbn [apply_update fold_left update_path apply_field fst snd now reliable].
    by rewrite lookup_insert_ne, lookup_insert_eq by done.
  - unfold D2, referred_data.
    cbn [apply_update fold_left update_path apply_field fst snd now reliable].
    by rewrite lookup_insert_eq.
Qed.

(** X21. A user whose deposit was processed with a referral code is in the
    chain of the referrer, with the time of the deposit, unless the chain
    is cut at its 100 entries. *)
Theorem referred_user_joins_chain t ig env userId depositAmount code db
    referrerId referrerData rest userData :
  code <> "" ->
  users db !! "" = None ->
  run_query (referrerQuery code) db = (referrerId, referrerData) :: rest ->
  users db !! referrerId = Some referrerData ->
  users db !! userId = Some userData ->
  fails env CGetDocs = false ->
  exists db1 chain,
    processDepositReferralAction (reliable t ig) userId depositAmount (Some code) db
    = (db1, inr (Success (PCommissionAmount (depositAmount * commissionRate)))) /\
    getUserReferralChainAction env referrerId db1
    = (db1, inr (Success (PReferredUsers chain))) /\
    (length chain <= 100)%nat /\
    (length chain = 100%nat \/
     exists entry, entry ∈ chain /\
       ("id", Some (VStr userId)) ∈ entry /\
       ("referralProcessedAt", Some (VTime t)) ∈ entry).
Proof.
  intros Hcode Hempty Hq Hr Hu Hget.
  destruct (processDepositReferral_users t ig userId depositAmount code db
              referrerId referrerData rest userData Hcode Hempty Hq Hr Hu)
    as (db1 & r1 & u1 & Hrun & _ & Hu1 & _ & Hby & Hat).
  exists db1. eexists. split; [exact Hrun|]. split.
  { unfold getUserReferralChainAction. run_calls. rewrite Hget.
    fold (chainQuery referrerId). reflexivity. }
  rewrite length_map.
  pose proof (run_query_length_limit (chainQuery referrerId) db1 100 eq_refl)
    as Hlen.
  split; [lia|].
  destruct (decide (length (List.filter (selects (chainQuery referrerId))
                              (map_to_list (users db1))) <= 100)%nat)
    as [Hfew|Hmany]; [right|left; cbn [q_coll chainQuery coll] in Hlen; lia].
  assert ((userId, u1) ∈ run_query (chainQuery referrerId) db1) as Hin.
  { apply run_query_all; [done|done|].
    unfold selects, chainQuery, matches, has_order_field, str_field, time_field.
    cbn [q_where q_order forallb snd]. rewrite Hby, Hat.
    by rewrite String.eqb_refl. }
  eexists. split.
  { apply list_elem_of_fmap. exists (userId, u1). split; [reflexivity|exact Hin]. }
  cbn [fst snd]. rewrite Hat. split; in_list.
Qed.

Lemma referred_user_joins_chain_witness :
  exists db1 chain,
    processDepositReferralAction (reliable 100 false) "bob" 100 (Some "ABC")
      example_db
    = (db1, inr (Success (PCommissionAmount (100 * commissionRate)))) /\
    getUserReferralChainAction (reliable 150 false) "alice" db1
    = (db1, inr (Success (PReferredUsers chain))) /\
    (length chain <= 100)%nat /\
    (length chain = 100%nat \/
     exists entry, entry ∈ chain /\
       ("id", Some (VStr "bob")) ∈ entry /\
       ("referralProcessedAt", Some (VTime 100)) ∈ entry).
Proof.
  apply (referred_user_joins_chain 100 false (reliable 150 false) "bob" 100 "ABC"
           example_db "alice" (example_user 10 "ABC") [] (example_user 3 "XYZ")).
  - discriminate.
  - reflexivity.
  - exact example_referrer.
  - reflexivity.
  - reflexivity.
  - reflexivity.
Defined.

(** X22. The referral statistics read back after a processed deposit: the
    total and the pending commissions of the referrer are incremented by the
    commission, the referrals by one, the approved commissions are as they
    were, and the last referral is dated at the deposit. *)
Theorem referral_stats_after_deposit t ig env userId depositAmount code db
    referrerId referrerData rest userData :
  code <> "" ->
  users db !! "" = None ->
  run_query (referrerQuery code) db = (referrerId, referrerData) :: rest ->
  users db !! referrerId = Some referrerData ->
  users db !! userId = Some userData ->
  fails env CGetDoc = false ->
  let commission := (depositAmount * commissionRate)%float in
  let old := sub_doc (referrerData !! "referralStats") in
  exists db1 stats,
    processDepositReferralAction (reliable t ig) userId depositAmount (Some code) db
    = (db1, inr (Success (PCommissionAmount commission))) /\
    getUserReferralStatsAction env referrerId db1
    = (db1, inr (StatsOf (VMap stats))) /\
    stats !! "totalCommissions" = incremented "totalCommissions" commission old /\
    stats !! "pendingCommissions" = incremented "pendingCommissions" commission old /\
    stats !! "approvedCommissions" = old !! "approvedCommissions" /\
    stats !! "totalReferrals" = incremented "totalReferrals" 1 old /\
    stats !! "lastReferralDate" = Some (VTime t).
Proof.
  intros Hcode Hempty Hq Hr Hu Hget commission old.
  destruct (processDepositReferral_users t ig userId depositAmount code db
              referrerId referrerData rest userData Hcode Hempty Hq Hr Hu)
    as (db1 & r1 & u1 & Hrun & Hr1 & _ & Hstats & _).
  assert (referrerId <> "") as Hrid by (intros ->; congruence).
  fold commission in Hstats, Hrun.
  unfold referrer_data in Hstats.
  rewrite !apply_update_cons, apply_update_nil in Hstats. cbn [fst snd] in Hstats.
  rewrite !update_path_nested in Hstats.
  rewrite !lookup_insert_eq in Hstats. cbn [sub_doc] in Hstats.
  exists db1. eexists. split; [exact Hrun|]. split.
  { unfold getUserReferralStatsAction, getUserReferralStatsAction_try.
    rewrite doc_nonempty by done.
    run_calls. rewrite Hget. cbn [coll]. rewrite Hr1, Hstats.
    cbn [truthy default from_option]. reflexivity. }
  fold old. unfold incremented.
  cbn [apply_field now reliable].
  split; [|split; [|split; [|split]]].
  - repeat (rewrite lookup_insert_ne by done). by rewrite lookup_insert_eq.
  - repeat (rewrite lookup_insert_ne by done). rewrite lookup_insert_eq.
    by repeat (rewrite lookup_insert_ne by done).
  - by repeat (rewrite lookup_insert_ne by done).
  - repeat (rewrite lookup_insert_ne by done). rewrite lookup_insert_eq.
    by repeat (rewrite lookup_insert_ne by done).
  - by rewrite lookup_insert_eq.
Qed.

Lemma referral_stats_after_deposit_witness :
  exists db1 stats,
    processDepositReferralAction (reliable 100 false) "bob" 100 (Some "ABC")
      example_db
    = (db1, inr (Success (PCommissionAmount (100 * commissionRate)))) /\
    getUserReferralStatsAction (reliable 150 false) "alice" db1
    = (db1, inr (StatsOf (VMap stats))) /\
    stats !! "totalCommissions" = Some (VNum (100 * commissionRate)) /\
    stats !! "pendingCommissions" = Some (VNum (100 * commissionRate)) /\
    stats !! "approvedCommissions" = None /\
    stats !! "totalReferrals" = Some (VNum 1) /\
    stats !! "lastReferralDate" = Some (VTime 100).
Proof.
  apply (referral_stats_after_deposit 100 false (reliable 150 false) "bob" 100
           "ABC" example_db "alice" (example_user 10 "ABC") []
           (example_user 3 "XYZ")).
  - discriminate.
  - reflexivity.
  - exact example_referrer.
  - reflexivity.
  - reflexivity.
  - reflexivity.
Defined.

(** X23. [processDepositReferralAction] does not ask who refers whom: the
    referrer may be the depositing user, and a user who was referred before
    is referred anew. In each case a commission token is made for the
    referrer, and the depositing user is marked as referred by that user. *)
Theorem processDepositReferral_unchecked t ig userId depositAmount code db
    referrerId referrerData rest userData :
  code <> "" ->
  users db !! "" = None ->
  run_query (referrerQuery code) db = (referrerId, referrerData) :: rest ->
  users db !! referrerId = Some referrerData ->
  users db !! userId = Some userData ->
  exists db1 id token u1,
    processDepositReferralAction (reliable t ig) userId depositAmount (Some code) db
    = (db1, inr (Success (PCommissionAmount (depositAmount * commissionRate)))) /\
    unifiedTokens db !! id = None /\
    unifiedTokens db1 !! id = Some token /\
    str_field "userId" token = Some referrerId /\
    num_field "amount" token = Some (depositAmount * commissionRate)%float /\
    pending_doc token /\
    users db1 !! userId = Some u1 /\
    u1 !! "referredBy" = Some (VStr referrerId) /\
    u1 !! "referralProcessedAt" = Some (VTime t).
Proof.
  intros Hcode Hempty Hq Hr Hu.
  destruct (processDepositReferral_users t ig userId depositAmount code db
              referrerId referrerData rest userData Hcode Hempty Hq Hr Hu)
    as (db1 & r1 & u1 & Hrun & _ & Hu1 & _ & Hby & Hat).
  destruct (processDepositReferral_commits t ig userId depositAmount code db
              referrerId referrerData rest userData Hcode Hempty Hq Hr Hu)
    as (db1' & Hrun' & Htok & _).
  rewrite Hrun in Hrun'. injection Hrun' as <-.
  exists db1, (fresh (dom (unifiedTokens db))),
    (commission_tokenData (reliable t ig) userId depositAmount referrerId), u1.
  split; [done|]. split; [apply not_elem_of_dom, is_fresh|].
  split; [rewrite Htok; apply lookup_insert_eq|].
  by repeat split.
Qed.

Lemma processDepositReferral_unchecked_witness :
  exists db1 id token u1,
    processDepositReferralAction (reliable 100 false) "alice" 100 (Some "ABC")
      example_db
    = (db1, inr (Success (PCommissionAmount (100 * commissionRate)))) /\
    unifiedTokens example_db !! id = None /\
    unifiedTokens db1 !! id = Some token /\
    str_field "userId" token = Some "alice" /\
    num_field "amount" token = Some (100 * commissionRate)%float /\
    pending_doc token /\
    users db1 !! "alice" = Some u1 /\
    u1 !! "referredBy" = Some (VStr "alice") /\
    u1 !! "referralProcessedAt" = Some (VTime 100).
Proof.
  apply (processDepositReferral_unchecked 100 false "alice" 100 "ABC" example_db
           "alice" (example_user 10 "ABC") [] (example_user 10 "ABC")).
  - discriminate.
  - reflexivity.
  - exact example_referrer.
  - reflexivity.
  - reflexivity.
Defined.

(** ** What stays fixed *)

#[global] Instance same_on_refl ks : Reflexive (same_on ks).
Proof. by intros d k _. Qed.

#[global] Instance same_on_trans ks : Transitive (same_on ks).
Proof. intros d1 d2 d3 H1 H2 k Hk. by rewrite (H2 k Hk), (H1 k Hk). Qed.

#[global] Instance same_but_refl ks : Reflexive (same_but ks).
Proof. by intros d k _. Qed.

#[global] Instance same_but_trans ks : Transitive (same_but ks).
Proof. intros d1 d2 d3 H1 H2 k Hk. by rewrite (H2 k Hk), (H1 k Hk). Qed.

(** An update whose paths all start outside [ks] keeps the fields [ks]. *)
Lemma update_same_on ks (data : UpdateData) (d : Doc) :
  Forall (fun pf => forall k, head pf.1 = Some k -> k ∉ ks) data ->
  same_on ks d (apply_update data d).
Proof.
  intros Hdata k Hk. apply apply_update_lookup_ne.
  eapply Forall_impl; [exact Hdata|]. intros pf Hpf Hhead. by apply (Hpf k).
Qed.

(** An update whose paths all start in [ks] changes the fields [ks] only. *)
Lemma update_same_but ks (data : UpdateData) (d : Doc) :
  Forall (fun pf => forall k, head pf.1 = Some k -> k ∈ ks) data ->
  same_but ks d (apply_update data d).
Proof.
  intros Hdata k Hk. apply apply_update_lookup_ne.
  eapply Forall_impl; [exact Hdata|]. intros pf Hpf Hhead. by apply Hk, Hpf.
Qed.

Ltac paths_outside :=
  repeat (apply Forall_cons_2;
          [intros ? [= <-]; apply (bool_decide_unpack _); vm_compute; exact I|]);
  apply Forall_nil_2.

Ltac paths_inside :=
  repeat (apply Forall_cons_2; [intros ? [= <-]; in_list|]);
  apply Forall_nil_2.

(** As the token module stands, the transaction of [approveTokenAction]
    writes the token and nothing else. *)
Lemma approveToken_callback_as_is env tokenRef adminUserId notes d ws :
  approveToken_callback unifiedTokenActions_imports env tokenRef adminUserId notes d
  = inr ws ->
  ws = [WUpdate tokenRef (approve_data env adminUserId notes)].
Proof.
  unfold approveToken_callback, increment.
  change (in_scope unifiedTokenActions_imports "increment") with false.
  destruct (doc Users (str_field "userId" d)) as [e|userRef]; [done|].
  cbv beta iota zeta delta [exc_bind].
  destruct (type_of_string _) as [[]|]; try done; by intros [= <-].
Qed.

(** X24. Whose a token is, its type, its amount and its creation time are
    fixed: no operation but the generic [updateUnifiedTokenAction] changes
    them, whatever else it does to the token. *)
Theorem token_core_is_fixed env op db id d :
  (forall tokenId updates, op <> UpdateUnifiedToken tokenId updates) ->
  unifiedTokens db !! id = Some d ->
  exists d', unifiedTokens (run env op db).1 !! id = Some d' /\
             same_on core_fields d d'.
Proof.
  intros Hop Hd. unfold run.
  destruct (run_step unifiedTokenActions_imports env op db)
    as [Heq|(ws & Hstep & Hc)].
  { rewrite Heq. by exists d. }
  pose proof (fresh_token_ne _ _ _ Hd) as Hfresh.
  apply (commit_respects UnifiedTokens id (same_on core_fields) ws db _ d);
    [|done|done].
  destruct Hstep.
  - apply Forall_cons_2; [cbn; congruence|apply Forall_nil_2].
  - by destruct (Hop tokenId updates).
  - apply approveToken_callback_as_is in H1 as ->.
    apply Forall_cons_2; [|apply Forall_nil_2].
    intros _ x. apply update_same_on. unfold approve_data. paths_outside.
  - apply Forall_cons_2; [|apply Forall_nil_2].
    intros _ x. apply update_same_on. unfold reject_data. paths_outside.
  - apply Forall_fmap, Forall_forall. intros x _ _ y.
    apply update_same_on. unfold expire_data. paths_outside.
  - apply Forall_cons_2; [cbn; congruence|].
    destruct H as [->| ->]; [apply Forall_nil_2|].
    apply Forall_cons_2; [intros [=]|apply Forall_nil_2].
  - apply processDepositReferral_callback_shape in H1 as ->.
    apply Forall_cons_2; [cbn; congruence|].
    apply Forall_cons_2; [intros [=]|].
    apply Forall_cons_2; [intros [=]|apply Forall_nil_2].
  - destruct (approveReferralCommission_callback_shape _ _ _ _ _ _ H1)
      as (owner & a & Ha & ->).
    apply Forall_cons_2; [|apply Forall_cons_2; [intros [=]|apply Forall_nil_2]].
    intros _ x. apply update_same_on. unfold approve_commission_data.
    paths_outside.
Qed.

Lemma token_core_is_fixed_witness :
  exists d', unifiedTokens (run (reliable 100 false)
                              (RejectToken "t1" "admin" "no") example_db).1 !! "t1"
             = Some d' /\
             same_on core_fields (example_token "deposit" "pending" "alice" 5 1 50) d'.
Proof.
  apply (token_core_is_fixed (reliable 100 false) (RejectToken "t1" "admin" "no")
           example_db "t1").
  - discriminate.
  - reflexivity.
Defined.

(** X25. Of a user document the operations write the balance, the referral
    statistics and the two referral marks, and nothing else: a referral
    code, for one, is never changed by them. *)
Theorem user_profile_is_fixed env op db uid u :
  users db !! uid = Some u ->
  exists u', users (run env op db).1 !! uid = Some u' /\
             same_but ledger_fields u u'.
Proof.
  intros Hu. unfold run.
  destruct (run_step unifiedTokenActions_imports env op db)
    as [Heq|(ws & Hstep & Hc)].
  { rewrite Heq. by exists u. }
  apply (commit_respects Users uid (same_but ledger_fields) ws db _ u);
    [|done|done].
  destruct Hstep.
  - apply Forall_cons_2; [intros [=]|apply Forall_nil_2].
  - apply Forall_cons_2; [intros [=]|apply Forall_nil_2].
  - apply approveToken_callback_as_is in H1 as ->.
    apply Forall_cons_2; [intros [=]|apply Forall_nil_2].
  - apply Forall_cons_2; [intros [=]|apply Forall_nil_2].
  - apply Forall_fmap, Forall_forall. by intros x _ [=].
  - apply Forall_cons_2; [intros [=]|].
    destruct H as [->| ->]; [apply Forall_nil_2|].
    apply Forall_cons_2; [intros [=]|apply Forall_nil_2].
  - apply processDepositReferral_callback_shape in H1 as ->.
    apply Forall_cons_2; [intros [=]|].
    apply Forall_cons_2; [|apply Forall_cons_2; [|apply Forall_nil_2]].
    + intros _ x. apply update_same_but. paths_inside.
    + intros _ x. apply update_same_but. unfold referred_data. paths_inside.
  - destruct (approveReferralCommission_callback_shape _ _ _ _ _ _ H1)
      as (owner & a & Ha & ->).
    apply Forall_cons_2; [intros [=]|].
    apply Forall_cons_2; [|apply Forall_nil_2].
    intros _ x. apply update_same_but. paths_inside.
Qed.

Lemma user_profile_is_fixed_witness :
  exists u', users (run (reliable 100 false)
                      (ProcessDepositReferral "bob" 100 (Some "ABC")) example_db).1
               !! "alice" = Some u' /\
             same_but ledger_fields (example_user 10 "ABC") u'.
Proof.
  apply (user_profile_is_fixed (reliable 100 false)
           (ProcessDepositReferral "bob" 100 (Some "ABC")) example_db "alice").
  reflexivity.
Defined.

(** ** The tokens of a user by type *)

Lemma selects_type_query userId tokenType n x :
  selects (type_query userId tokenType n) x = true <->
  str_field "userId" x.2 = Some userId /\
  (forall ty, tokenType = Some ty -> str_field "type" x.2 = Some (type_name ty)) /\
  is_Some (time_field "createdAt" x.2).
Proof.
  unfold selects, type_query, matches.
  cbn [q_where q_order forallb has_order_field].
  destruct tokenType as [ty|]; cbn [forallb]; rewrite !andb_true_iff;
    destruct (str_field "userId" x.2) as [u|], (str_field "type" x.2) as [st|],
      (time_field "createdAt" x.2) as [c|]; rewrite ?String.eqb_eq;
    split; intros H; destruct_and?; try done; repeat split; eauto;
    try congruence.
  all: try by match goal with H : is_Some None |- _ => destruct H end.
  all: try (intros ty' [= <-]; congruence).
  all: try by match goal with H : forall ty0, Some ?ty = Some ty0 -> _ |- _ =>
                specialize (H ty eq_refl); congruence end.
Qed.

(** X26. In a ledger whose creation times are timestamps, and without a
    status, [getUserUnifiedTokensAction] returns the tokens of the user, of
    the given type if one is given: at most [limitCount] of them, newest
    first, and all of them when no more than [limitCount] match. A token
    without [createdAt] is never listed. *)
Theorem getUserUnifiedTokens_by_type env userId tokenType limitCount db :
  creation_times_typed db ->
  0 < limitCount -> fails env CGetDocs = false ->
  exists tokens,
    getUserUnifiedTokensAction env userId tokenType None limitCount db
    = (db, inr (Success (PTokens tokens))) /\
    (length tokens <= Z.to_nat limitCount)%nat /\
    Sorted (doc_le (ByTimeDesc "createdAt")) tokens /\
    (forall x, x ∈ tokens ->
       unifiedTokens db !! x.1 = Some x.2 /\
       str_field "userId" x.2 = Some userId /\
       (forall ty, tokenType = Some ty ->
                   str_field "type" x.2 = Some (type_name ty)) /\
       is_Some (time_field "createdAt" x.2)) /\
    ((length (List.filter
                (selects (type_query userId tokenType (Z.to_nat limitCount)))
                (map_to_list (unifiedTokens db))) <= Z.to_nat limitCount)%nat ->
     forall id d,
       unifiedTokens db !! id = Some d ->
       str_field "userId" d = Some userId ->
       (forall ty, tokenType = Some ty -> str_field "type" d = Some (type_name ty)) ->
       is_Some (time_field "createdAt" d) ->
       (id, d) ∈ tokens).
Proof.
  intros _ Hpos Hget.
  exists (run_query (type_query userId tokenType (Z.to_nat limitCount)) db).
  split.
  { unfold getUserUnifiedTokensAction, getUserUnifiedTokensAction_try, limit.
    run_calls. rewrite Hget.
    destruct (Z.leb_spec limitCount 0); [lia|]. by destruct tokenType. }
  split.
  { rewrite (run_query_length_limit _ _ (Z.to_nat limitCount)) by done. lia. }
  split; [apply (run_query_sorted (type_query _ _ _))|].
  split.
  { intros x Hx. apply run_query_elem in Hx as [Hx Hsel].
    apply selects_type_query in Hsel as (? & ? & ?). done. }
  intros Hlen id d Hd Hu Hs Hc.
  apply run_query_all; [done|done|].
  apply selects_type_query. done.
Qed.

Lemma getUserUnifiedTokens_by_type_witness :
  exists tokens,
    getUserUnifiedTokensAction (reliable 100 false) "alice" (Some Deposit) None 50
      example_db
    = (example_db, inr (Success (PTokens tokens))) /\
    (length tokens <= 50)%nat /\
    ("t1", example_token "deposit" "pending" "alice" 5 1 50) ∈ tokens.
Proof.
  destruct (getUserUnifiedTokens_by_type (reliable 100 false) "alice"
              (Some Deposit) 50 example_db) as (tokens & Hrun & Hlen & _ & _ & Hall).
  { apply (bool_decide_unpack _). vm_compute. exact I. }
  { reflexivity. }
  { reflexivity. }
  exists tokens. split; [exact Hrun|]. split; [exact Hlen|].
  apply Hall.
  - apply (bool_decide_unpack _). vm_compute. exact I.
  - reflexivity.
  - reflexivity.
  - intros ty [= <-]. reflexivity.
  - by eexists.
Defined.

(** X27. When the query is accepted, the referral commission tokens of a user
    are what [getUserUnifiedTokensAction] returns for the type
    [referral_commission], no status and a limit of 50. *)
Theorem getUserReferralCommissionTokens_as_by_type env userId db :
  fails env CGetDocs = false ->
  getUserReferralCommissionTokensAction env userId db
  = getUserUnifiedTokensAction env userId (Some ReferralCommission) None 50 db.
Proof.
  intros Hget.
  unfold getUserReferralCommissionTokensAction, getUserUnifiedTokensAction, limit.
  run_calls. by rewrite Hget.
Qed.

Lemma getUserReferralCommissionTokens_as_by_type_witness :
  getUserReferralCommissionTokensAction (reliable 100 false) "alice" example_db
  = getUserUnifiedTokensAction (reliable 100 false) "alice"
      (Some ReferralCommission) None 50 example_db.
Proof.
  apply (getUserReferralCommissionTokens_as_by_type (reliable 100 false) "alice"
           example_db).
  reflexivity.
Defined.
